(** * brain: a document database front-end over relational tables

    Shallow embedding of [brain/logic.py] (structure layer and logic layer)
    and of the field codec of [brain/connection.py], with the properties of
    the specification stated and proved over it.

    The relational engine is modelled by its effect on a store of tables:
    the specification table is a list of rows in insertion order, every
    per-field table is a list of rows in insertion order, and the set of
    per-field tables is a finite map from table names to row lists. *)

From Stdlib Require Import ZArith String Ascii List Bool Lia.
From stdpp Require Import base option list gmap strings pretty.

Local Open Scope Z_scope.

(** ** Names, types and values *)

(** An element of a field name: a map key, a list index, or [None]
    (the wildcard of a mask). *)
Inductive name_elem :=
| NStr (s : string)
| NInt (i : Z)
| NWild.

Inductive type_tag := TNull | TStr | TInt | TFloat | TBytes | TMap | TList.

(** A float is carried by its bit pattern, so that equality is structural. *)
Inductive value :=
| VNone
| VStr (s : string)
| VInt (z : Z)
| VFloat (bits : Z)
| VBytes (b : list Byte.byte)
| VMap
| VList.

#[global] Instance name_elem_eq_dec : EqDecision name_elem.
Proof. solve_decision. Defined.

#[global] Instance type_tag_eq_dec : EqDecision type_tag.
Proof. solve_decision. Defined.

Definition type_tag_to_nat (t : type_tag) : nat :=
  match t with
  | TNull => 0 | TStr => 1 | TInt => 2 | TFloat => 3
  | TBytes => 4 | TMap => 5 | TList => 6
  end%nat.

Definition type_tag_of_nat (n : nat) : type_tag :=
  match n with
  | 0 => TNull | 1 => TStr | 2 => TInt | 3 => TFloat
  | 4 => TBytes | 5 => TMap | _ => TList
  end%nat.

#[global] Instance type_tag_countable : Countable type_tag :=
  inj_countable' type_tag_to_nat type_tag_of_nat
    (λ t, match t with
          | TNull | TStr | TInt | TFloat | TBytes | TMap | TList => eq_refl
          end).

Definition is_str (e : name_elem) : bool :=
  match e with NStr _ => true | _ => false end.

Definition is_int (e : name_elem) : bool :=
  match e with NInt _ => true | _ => false end.

Definition is_map (v : value) : bool :=
  match v with VMap => true | _ => false end.

Definition is_list (v : value) : bool :=
  match v with VList => true | _ => false end.

(** ** The Field class

    [brain/interface.py] is not part of the sources at hand; the methods of
    [Field] that the structure layer calls are modelled here. *)

Module FieldCodec.

(** Modelled from the spec: the class [Field] of brain/interface.py is
    missing.  A field is a path, a type tag and a value; a field built
    without a value carries [None], and with it the tag of the null scalar
    (as [_fillWithNones] relies on when it sets [py_value = None]). *)
Record Field := mkFieldRaw {
  fname : list name_elem;
  ftype : type_tag;
  fvalue : value
}.

Definition type_of (v : value) : type_tag :=
  match v with
  | VNone => TNull
  | VStr _ => TStr
  | VInt _ => TInt
  | VFloat _ => TFloat
  | VBytes _ => TBytes
  | VMap => TMap
  | VList => TList
  end.

(** [Field(engine, name, value)] *)
Definition mkField (n : list name_elem) (v : value) : Field :=
  {| fname := n; ftype := type_of v; fvalue := v |}.

(** [Field(engine, name)] *)
Definition mkPath (n : list name_elem) : Field := mkField n VNone.

(** [field.type_str = t] *)
Definition with_type (f : Field) (t : type_tag) : Field :=
  {| fname := fname f; ftype := t; fvalue := fvalue f |}.

(** [field.py_value = v] *)
Definition with_value (f : Field) (v : value) : Field :=
  mkField (fname f) v.

(** [field.name = n] *)
Definition with_name (f : Field) (n : list name_elem) : Field :=
  {| fname := n; ftype := ftype f; fvalue := fvalue f |}.

(** Modelled from the spec: [name_str_no_type] of the missing class
    [Field], "string keys in-place, integer indices replaced by a wildcard
    placeholder".  The encoding into one string belongs to the engine; a
    name without type is kept as its list of segments, [None] standing for
    the placeholder. *)
Definition name_str_no_type (n : list name_elem) : list (option string) :=
  map (λ e, match e with NStr s => Some s | _ => None end) n.

(** Modelled from the spec: [name_str] of the missing class [Field], "the
    per-field table name equals name_str_no_type plus the type tag". *)
Definition name_str (f : Field) : list (option string) * type_tag :=
  (name_str_no_type (fname f), ftype f).

(** Modelled from the spec: [Field.fromNameStrNoType] of the missing class
    [Field]; every index position comes back as a wildcard. *)
Definition fromNameStrNoType (k : list (option string)) : list name_elem :=
  map (λ o, match o with Some s => NStr s | None => NWild end) k.

(** Modelled from the spec: the values of the index columns [c0, c1, ...]
    of a name, "one column per integer position in the path"; a wildcard
    gives no value. *)
Fixpoint columns (n : list name_elem) : list (option Z) :=
  match n with
  | [] => []
  | NStr _ :: n' => columns n'
  | NInt i :: n' => Some i :: columns n'
  | NWild :: n' => None :: columns n'
  end.

(** Modelled from the spec: [columns_condition] of the missing class
    [Field], the "wildcard-column-match" [AND ci = v] for every determined
    index of the name.  A condition is the list of the values asked of
    [c0, c1, ...]; a row satisfies it when every asked column holds the
    asked value. *)
Fixpoint cond_holds (cond cols : list (option Z)) : bool :=
  match cond with
  | [] => true
  | None :: cond' => cond_holds cond' (tail cols)
  | Some v :: cond' =>
      match cols with
      | Some w :: cols' => (v =? w) && cond_holds cond' cols'
      | _ => false
      end
  end.

(** Modelled from the spec: [renumber_condition] of the missing class
    [Field], "prefix index columns match": the condition of the name on
    all its index columns but the last. *)
Definition renumber_condition (n : list name_elem) : list (option Z) :=
  removelast (columns n).

(** Modelled from the spec: [getLastListColumn] of the missing class
    [Field]: the position of the last index column and the value the name
    gives it.  A name without any index has no such column. *)
Definition getLastListColumn (n : list name_elem) : option (nat * option Z) :=
  match columns n with
  | [] => None
  | c :: cs => Some (length cs, List.last (c :: cs) None)
  end.

(** Modelled from the spec: [getDeterminedName] of the missing class
    [Field], "name fully determined by SELECTed index columns": the
    wildcards of the name take the values of the row's index columns. *)
Fixpoint getDeterminedName (n : list name_elem) (cols : list (option Z))
  : list name_elem :=
  match n with
  | [] => []
  | NStr s :: n' => NStr s :: getDeterminedName n' cols
  | NInt i :: n' => NInt i :: getDeterminedName n' (tail cols)
  | NWild :: n' =>
      match cols with
      | Some v :: cols' => NInt v :: getDeterminedName n' cols'
      | _ => NWild :: getDeterminedName n' (tail cols)
      end
  end.

(** The two predicates of [Field] on which the spec gives too little to fix
    one reading: they stay an interface, and the properties below hold for
    every implementation of it. *)
Class Predicates := {
  matches : list name_elem → list name_elem → bool;
  pointsToListElement : list name_elem → bool
}.

(** Modelled from the spec: [Field.matches] of the missing class [Field],
    "Same length; corresponding segments equal, or the mask segment is a
    wildcard and the name segment is an integer". *)
Fixpoint spec_matches (n mask : list name_elem) : bool :=
  match n, mask with
  | [], [] => true
  | e :: n', m :: mask' =>
      (bool_decide (e = m) || (bool_decide (m = NWild) && is_int e))
      && spec_matches n' mask'
  | _, _ => false
  end.

(** Modelled from the spec: [Field.pointsToListElement] of the missing
    class [Field], "it points to a list element": the last segment is an
    index. *)
Definition spec_pointsToListElement (n : list name_elem) : bool :=
  match List.last n (NStr "") with
  | NStr _ => false
  | _ => true
  end.

Definition spec_predicates : Predicates :=
  {| matches := spec_matches;
     pointsToListElement := spec_pointsToListElement |}.

End FieldCodec.

Export FieldCodec.

(** ** Results and errors *)

Inductive error :=
| StructureError
| LogicError
| EngineError.   (* a fault of the engine or of the interpreter *)

Inductive result (A : Type) :=
| Ok (a : A)
| Err (e : error).

Arguments Ok {A} a.
Arguments Err {A} e.

#[global] Instance result_ret : MRet result := λ A a, Ok a.

#[global] Instance result_bind : MBind result := λ A B k m,
  match m with
  | Ok a => k a
  | Err e => Err e
  end.

(** [for x in l: body(x)] with the state threaded through. *)
Fixpoint foldM {A S : Type} (body : A → S → result S) (l : list A) (s : S)
  : result S :=
  match l with
  | [] => Ok s
  | x :: l' => s' ← body x s; foldM body l' s'
  end.

(** ** The store *)

(** A row of the specification table: [(id, field, type, refcount)]. *)
Record SpecRow := mkSpecRow {
  s_id : Z;
  s_field : list (option string);
  s_type : type_tag;
  s_refcount : Z
}.

(** A row of a per-field table: [(id, value, c0, c1, ...)]; an index column
    may hold NULL. *)
Record Row := mkRow {
  r_id : Z;
  r_value : value;
  r_cols : list (option Z)
}.

Record DB := mkDB {
  id_table : list SpecRow;
  field_tables : gmap (list (option string) * type_tag) (list Row);
  next_id : Z
}.

(** The store right after [_StructureLayer.__init__] on a fresh engine. *)
Definition empty_db : DB :=
  {| id_table := []; field_tables := ∅; next_id := 1 |}.

Definition set_id_table (rows : list SpecRow) (s : DB) : DB :=
  {| id_table := rows; field_tables := field_tables s; next_id := next_id s |}.

Definition set_field_tables
  (t : gmap (list (option string) * type_tag) (list Row)) (s : DB) : DB :=
  {| id_table := id_table s; field_tables := t; next_id := next_id s |}.

(** ** The engine

    Modelled from the spec: the engine adapter ([brain/engine.py]) is
    missing; each statement the structure layer executes is modelled by the
    relational operation it denotes. *)
Module Engine.

Definition tableExists (k : list (option string) * type_tag) (s : DB) : bool :=
  bool_decide (is_Some (field_tables s !! k)).

(** The rows of a table; a statement on a missing table is a fault. *)
Definition tableRows (k : list (option string) * type_tag) (s : DB)
  : result (list Row) :=
  match field_tables s !! k with
  | Some rows => Ok rows
  | None => Err EngineError
  end.

Definition tableIsEmpty (k : list (option string) * type_tag) (s : DB)
  : result bool :=
  rows ← tableRows k s; Ok (bool_decide (rows = [])).

Definition deleteTable (k : list (option string) * type_tag) (s : DB) : DB :=
  set_field_tables (delete k (field_tables s)) s.

Definition createTable (k : list (option string) * type_tag) (s : DB) : DB :=
  set_field_tables (<[k := []]> (field_tables s)) s.

Definition setTableRows (k : list (option string) * type_tag)
  (rows : list Row) (s : DB) : DB :=
  set_field_tables (<[k := rows]> (field_tables s)) s.

Definition getTablesList (s : DB) : list (list (option string) * type_tag) :=
  (map_to_list (field_tables s)).*1.

Definition getNewId (s : DB) : Z * DB :=
  (next_id s,
   {| id_table := id_table s; field_tables := field_tables s;
      next_id := next_id s + 1 |}).

End Engine.

(** Whether a row belongs to object [id] and satisfies a columns condition:
    [WHERE id=? AND c0=.. AND ..]. *)
Definition row_sel (id : Z) (cond : list (option Z)) (r : Row) : bool :=
  (r_id r =? id) && cond_holds cond (r_cols r).

(** Whether a specification row is the one of [(id, field)]. *)
Definition spec_sel (id : Z) (fld : list (option string)) (r : SpecRow) : bool :=
  (s_id r =? id) && bool_decide (s_field r = fld).

(** Whether a specification row is the one of [(id, field, type)]. *)
Definition spec_sel_t (id : Z) (fld : list (option string)) (t : type_tag)
  (r : SpecRow) : bool :=
  spec_sel id fld r && bool_decide (s_type r = t).

(** [SELECT DISTINCT]: the values in the order of their first occurrence. *)
Fixpoint distinct {A : Type} `{EqDecision A} (l : list A) : list A :=
  match l with
  | [] => []
  | x :: l' => x :: List.filter (λ y, negb (bool_decide (y = x))) (distinct l')
  end.

Fixpoint mapM {A B : Type} (f : A → result B) (l : list A) : result (list B) :=
  match l with
  | [] => Ok []
  | x :: l' => y ← f x; ys ← mapM f l'; Ok (y :: ys)
  end.

(** The regular expression ["^" + name + "\.\."]: the name is a proper
    prefix, segment by segment. *)
Definition strict_prefix_b (p n : list (option string)) : bool :=
  (length p <? length n)%nat && bool_decide (take (length p) n = p).

(** The regular expression ["^" + name + "(\.\.|$)"]: the name is a prefix,
    segment by segment. *)
Definition prefix_b (p n : list (option string)) : bool :=
  bool_decide (take (length p) n = p).

(** [f.name[:len(mask)] = mask] *)
Definition splice_prefix (mask n : list name_elem) : list name_elem :=
  mask ++ drop (length mask) n.

(** ** The structure layer: [_StructureLayer] of brain/logic.py *)

Section StructureLayer.

Context {P : Predicates}.

Definition deleteSpecification (id : Z) (s : DB) : DB :=
  set_id_table (List.filter (λ r, negb (s_id r =? id)) (id_table s)) s.

Definition getValueTypes (id : Z) (field : Field) (s : DB) : list type_tag :=
  map s_type
    (List.filter (spec_sel id (name_str_no_type (fname field))) (id_table s)).

Definition bump (n : Z) (r : SpecRow) : SpecRow :=
  {| s_id := s_id r; s_field := s_field r; s_type := s_type r;
     s_refcount := s_refcount r + n |}.

Definition increaseRefcount (id : Z) (field : Field) (s : DB) : DB :=
  let nt := name_str_no_type (fname field) in
  let new_type :=
    negb (existsb (λ t, bool_decide (t = ftype field))
            (getValueTypes id field s)) in
  if new_type then
    set_id_table (id_table s ++ [mkSpecRow id nt (ftype field) 1]) s
  else
    set_id_table
      (map (λ r, if spec_sel_t id nt (ftype field) r then bump 1 r else r)
         (id_table s)) s.

Definition decreaseRefcount (id : Z) (field : Field) (num : Z) (s : DB)
  : result DB :=
  let nt := name_str_no_type (fname field) in
  let sel := spec_sel_t id nt (ftype field) in
  match map s_refcount (List.filter sel (id_table s)) with
  | [] => Err EngineError   (* l[0] of an empty result *)
  | r :: _ =>
      if r =? num then
        Ok (set_id_table (List.filter (λ x, negb (sel x)) (id_table s)) s)
      else
        Ok (set_id_table
              (map (λ x, if sel x then bump (- num) x else x) (id_table s)) s)
  end.

Definition getFieldsList (id : Z) (field : option Field) (exclude_self : bool)
  (s : DB) : list Field :=
  let sel r :=
    (s_id r =? id)
    && match field with
       | Some f => strict_prefix_b (name_str_no_type (fname f)) (s_field r)
       | None => true
       end in
  let l := distinct (map s_field (List.filter sel (id_table s))) in
  let res :=
    map (λ e,
           let n := fromNameStrNoType e in
           mkPath (match field with
                   | Some f => splice_prefix (fname f) n
                   | None => n
                   end)) l in
  res ++ match field with
         | Some f => if exclude_self then [] else [mkPath (fname f)]
         | None => []
         end.

(** The dictionary [raw_fields_info], in insertion order. *)
Fixpoint raw_add (n : list (option string)) (t : type_tag)
  (d : list (list (option string) * list type_tag))
  : list (list (option string) * list type_tag) :=
  match d with
  | [] => [(n, [t])]
  | (n', ts) :: d' =>
      if bool_decide (n' = n) then (n', ts ++ [t]) :: d'
      else (n', ts) :: raw_add n t d'
  end.

(** With a list of masks the statement carries [" AND (" + " OR ".join(..)
    + ")"]: for an empty list this is [" AND ()"], which no SQL engine
    parses. *)
Definition getRawFieldsInfo (id : Z) (masks : option (list Field)) (s : DB)
  : result (list (list (option string) * list type_tag)) :=
  let sel r :=
    (s_id r =? id)
    && match masks with
       | Some ms =>
           existsb (λ m, prefix_b (name_str_no_type (fname m)) (s_field r)) ms
       | None => true
       end in
  match masks with
  | Some [] => Err EngineError
  | _ =>
      Ok (fold_left (λ d r, raw_add (s_field r) (s_type r) d)
            (List.filter sel (id_table s)) [])
  end.

Definition getFieldsInfo (id : Z) (masks : option (list Field)) (s : DB)
  : result (list Field) :=
  raw_fields_info ← getRawFieldsInfo id masks s;
  Ok (flat_map
        (λ '(name_str, types),
           match masks with
           | None =>
               map (λ t, with_type (mkPath (fromNameStrNoType name_str)) t)
                 types
           | Some ms =>
               let temp := fromNameStrNoType name_str in
               flat_map
                 (λ mask,
                    if matches temp (fname mask) then
                      map (λ t,
                             with_type
                               (mkPath (splice_prefix (fname mask)
                                          (fromNameStrNoType name_str))) t)
                        types
                    else [])
                 ms
           end)
        raw_fields_info).

Definition objectExists (id : Z) (s : DB) : bool :=
  0 <? Z.of_nat (length (List.filter (λ r, s_id r =? id) (id_table s))).

Definition getFieldValue (id : Z) (field : Field) (s : DB) : list Field :=
  if negb (Engine.tableExists (name_str field) s) then []
  else
    match Engine.tableRows (name_str field) s with
    | Err _ => []
    | Ok rows =>
        map (λ r,
               {| fname := getDeterminedName (fname field) (r_cols r);
                  ftype := ftype field;
                  fvalue := r_value r |})
          (List.filter (row_sel id (columns (fname field))) rows)
    end.

Definition assureFieldTableExists (field : Field) (s : DB) : DB :=
  if negb (Engine.tableExists (name_str field) s) then
    Engine.createTable (name_str field) s
  else s.

(** [col >= ?]: false on NULL on either side. *)
Definition col_ge (k : nat) (v : option Z) (r : Row) : bool :=
  match v, r_cols r !! k with
  | Some v, Some (Some c) => v <=? c
  | _, _ => false
  end.

(** [SET col = col + ?] *)
Definition shift_col (k : nat) (shift : Z) (r : Row) : Row :=
  {| r_id := r_id r; r_value := r_value r;
     r_cols := alter (fmap (Z.add shift)) k (r_cols r) |}.

(** The body of the loop of [renumberList], for one type of the child
    field: the [UPDATE] of its table. *)
Definition renumberList_type (id : Z) (cond : list (option Z)) (col : nat)
  (col_val : option Z) (shift : Z) (field : Field) (t : type_tag) (s : DB)
  : result DB :=
  let k := name_str (with_type field t) in
  rows ← Engine.tableRows k s;
  Ok (Engine.setTableRows k
        (map (λ r, if row_sel id cond r && col_ge col col_val r
                   then shift_col col shift r else r) rows) s).

Definition renumberList (id : Z) (target_field field : Field) (shift : Z)
  (s : DB) : result DB :=
  match getLastListColumn (fname target_field) with
  | None => Err EngineError
  | Some (col, col_val) =>
      let cond := renumber_condition (fname target_field) in
      foldM (renumberList_type id cond col col_val shift field)
        (getValueTypes id field s) s
  end.

(** The body of the loop of [deleteValues], for one type of the field: the
    count, the decrease of the counter, the [DELETE] and the drop of the
    table left empty. *)
Definition deleteValues_type (id : Z) (field_copy : Field)
  (cond : list (option Z)) (t : type_tag) (s : DB) : result DB :=
  let fc := with_type field_copy t in
  rows ← Engine.tableRows (name_str fc) s;
  let del_num := Z.of_nat (length (List.filter (row_sel id cond) rows)) in
  if 0 <? del_num then
    s1 ← decreaseRefcount id fc del_num s;
    let s2 :=
      Engine.setTableRows (name_str fc)
        (List.filter (λ r, negb (row_sel id cond r)) rows) s1 in
    empty ← Engine.tableIsEmpty (name_str fc) s2;
    Ok (if empty : bool then Engine.deleteTable (name_str fc) s2 else s2)
  else Ok s.

Definition deleteValues (id : Z) (field : Field)
  (condition : option (list (option Z))) (s : DB) : result DB :=
  let field_copy := mkPath (fname field) in
  let cond := default (columns (fname field)) condition in
  foldM (deleteValues_type id field_copy cond)
    (getValueTypes id field_copy s) s.

Definition addValueRecord (id : Z) (field : Field) (s : DB) : result DB :=
  rows ← Engine.tableRows (name_str field) s;
  Ok (Engine.setTableRows (name_str field)
        (rows ++ [mkRow id (fvalue field) (columns (fname field))]) s).

(** [SELECT MAX(col)]: NULL over no rows, NULL columns ignored. *)
Definition max_col (k : nat) (rows : list Row) : option Z :=
  fold_left
    (λ acc r,
       match r_cols r !! k with
       | Some (Some c) =>
           match acc with
           | Some m => Some (Z.max m c)
           | None => Some c
           end
       | _ => acc
       end) rows None.

Definition getMaxListIndex (id : Z) (field : Field) (s : DB)
  : result (option Z) :=
  match getLastListColumn (fname field) with
  | None => Err EngineError
  | Some (col, _) =>
      let cond := renumber_condition (fname field) in
      flds ← getFieldsInfo id (Some [field]) s;
      m ← foldM
            (λ fld m,
               rows ← Engine.tableRows (name_str fld) s;
               match max_col col (List.filter (row_sel id cond) rows) with
               | Some r => Ok (if m <? r then r else m)
               | None => Ok m
               end)
            flds (-1);
      Ok (if m =? -1 then None else Some m)
  end.

Definition objectHasField (id : Z) (field : Field) (s : DB) : result bool :=
  if (length (fname field) =? 0)%nat then Ok true
  else
    let types := getValueTypes id field s in
    if (length types =? 0)%nat then Ok false
    else
      let field_copy := mkPath (fname field) in
      let columns_condition := columns (fname field_copy) in
      tabs ← mapM (λ t, Engine.tableRows (name_str (with_type field_copy t)) s)
               types;
      Ok (existsb (existsb (row_sel id columns_condition)) tabs).

End StructureLayer.

(** ** The logic layer: [LogicLayer] of brain/logic.py *)

Section LogicLayer.

Context {P : Predicates}.

Definition _setFieldValue (id : Z) (field : Field) (s : DB) : result DB :=
  let s1 := assureFieldTableExists field s in
  let s2 := increaseRefcount id field s1 in
  addValueRecord id field s2.

(** [range(start, end)] *)
Definition range (start stop : Z) : list Z :=
  map (λ k, start + Z.of_nat k) (seq 0 (Z.to_nat (stop - start))).

Definition _fillWithNones (id : Z) (path : Field) (s : DB) : result DB :=
  max ← getMaxListIndex id path s;
  let start := match max with None => 0 | Some m => m + 1 end in
  match List.last (fname path) NWild with
  | NInt stop =>
      foldM
        (λ i s,
           _setFieldValue id
             (mkField (removelast (fname path) ++ [NInt i]) VNone) s)
        (range start stop) s
  | _ => Err EngineError   (* range() up to a non-integer *)
  end.

Definition _renumber (id : Z) (target_field : Field) (shift : Z) (s : DB)
  : result DB :=
  foldM
    (λ fld s,
       s1 ← (if shift <? 0
             then deleteValues id fld (Some (columns (fname target_field))) s
             else Ok s);
       renumberList id target_field fld shift s1)
    (getFieldsList id (Some target_field) false s) s.

Definition _deleteField (id : Z) (field : Field) (s : DB) : result DB :=
  if (0 <? length (fname field))%nat && pointsToListElement (fname field) then
    _renumber id field (-1) s
  else
    foldM (λ fld s, deleteValues id fld None s)
      (getFieldsList id (Some field) false s) s.

(** The inner loop of [_checkForConflicts], "create necessary hierarchy":
    [tmp] is the name of [tmp_field], [name_copy] the elements still to be
    appended, next one first. *)
Fixpoint _createHierarchy (id : Z) (tmp : list name_elem)
  (name_copy : list name_elem) (s : DB) : result DB :=
  match name_copy with
  | [] => Ok s
  | next :: rest =>
      let tmp_field := mkField tmp (if is_str next then VMap else VList) in
      s1 ← (if (0 <? length tmp)%nat && is_int (List.last tmp NWild)
            then _fillWithNones id tmp_field s
            else Ok s);
      s2 ← _setFieldValue id tmp_field s1;
      _createHierarchy id (tmp ++ [next]) rest s2
  end.

(** The loop of [_checkForConflicts]: [tmp] is the name of [tmp_field],
    [name_copy] the elements of the path not yet popped, next one first. *)
Fixpoint _checkForConflicts_loop (id : Z) (remove_conflicts : bool)
  (tmp : list name_elem) (name_copy : list name_elem) (s : DB) : result DB :=
  match name_copy with
  | [] => Ok s
  | next :: rest =>
      let types := getValueTypes id (mkPath tmp) s in
      let values :=
        flat_map (λ t, getFieldValue id (with_type (mkPath tmp) t) s) types in
      if (length values =? 0)%nat then Ok s
      else
        let values := map fvalue values in
        let next_is_str := is_str next in
        if negb (next_is_str && existsb is_map values)
           && negb (negb next_is_str && existsb is_list values)
        then
          if remove_conflicts then
            s1 ← foldM (λ fld s, deleteValues id fld None s)
                   (getFieldsList id (Some (mkPath tmp)) false s) s;
            _createHierarchy id tmp (next :: rest) s1
          else Err StructureError
        else _checkForConflicts_loop id remove_conflicts (tmp ++ [next]) rest s
  end.

Definition _checkForConflicts (id : Z) (field : Field)
  (remove_conflicts : bool) (s : DB) : result DB :=
  _checkForConflicts_loop id remove_conflicts [] (fname field) s.

Definition _deleteObject (id : Z) (s : DB) : result DB :=
  s1 ← foldM (λ field s, _deleteField id field s)
         (getFieldsList id None false s) s;
  Ok (deleteSpecification id s1).

(** The loop "fill autocreated list elements (if any) with Nones" of
    [_modifyFields]: [rev_name] is the name of [field_copy], last element
    first. *)
Fixpoint _fillAutocreated (id : Z) (rev_name : list name_elem) (s : DB)
  : result DB :=
  match rev_name with
  | [] => Ok s
  | e :: rest =>
      s1 ← (if is_int e then _fillWithNones id (mkPath (rev rev_name)) s
            else Ok s);
      _fillAutocreated id rest s1
  end.

(** The last loop of [_modifyFields], "store field values". *)
Definition _storeFields (id : Z) (path : Field) (fields : list Field) (s : DB)
  : result DB :=
  foldM
    (λ field s, _setFieldValue id (with_name field (fname path ++ fname field)) s)
    fields s.

Definition _modifyFields (id : Z) (path : Field) (fields : list Field)
  (remove_conflicts : bool) (s : DB) : result DB :=
  has ← objectHasField id path s;
  s1 ← (if has : bool then
          foldM (λ field s, deleteValues id field (Some (columns (fname path))) s)
            (getFieldsList id (Some path) false s) s
        else
          s' ← _checkForConflicts id path remove_conflicts s;
          _fillAutocreated id (rev (fname path)) s');
  _storeFields id path fields s1.

Definition processCreateRequest (fields : list Field) (s : DB)
  : result (Z * DB) :=
  let '(new_id, s0) := Engine.getNewId s in
  s1 ← _modifyFields new_id (mkPath []) fields true s0;
  Ok (new_id, s1).

Definition processModifyRequest (id : Z) (path : Field) (fields : list Field)
  (remove_conflicts : bool) (s : DB) : result DB :=
  _modifyFields id path fields remove_conflicts s.

Definition processDeleteRequest (id : Z) (fields : option (list Field))
  (s : DB) : result DB :=
  match fields with
  | Some fs => foldM (λ field s, _deleteField id field s) fs s
  | None => _deleteObject id s
  end.

(** [del field.name[:n]] on every field read. *)
Definition strip_prefix (n : nat) (field : Field) : Field :=
  with_name field (drop n (fname field)).

(** The list [result_list] of [processReadRequest], before the test for
    emptiness. *)
Definition read_result_list (id : Z) (req_path : option Field)
  (req_masks : option (list Field)) (s : DB) : result (list Field) :=
  let path :=
    match req_path with
    | None => None
    | Some p => if (length (fname p) =? 0)%nat then None else Some p
    end in
  let masks :=
    match req_masks with
    | None => None
    | Some ms => if (length ms =? 0)%nat then None else Some ms
    end in
  let fields :=
    match masks with
    | None =>
        match path with
        | None => None
        | Some p => Some [p]
        end
    | Some ms =>
        Some (List.filter
                (λ mask,
                   match path with
                   | None => true
                   | Some p => matches (fname mask) (fname p)
                   end) ms)
    end in
  fields_list ← getFieldsInfo id fields s;
  Ok (flat_map (λ field, getFieldValue id field s) fields_list).

Definition processReadRequest (id : Z) (req_path : option Field)
  (req_masks : option (list Field)) (s : DB) : result (list Field) :=
  result_list ← read_result_list id req_path req_masks s;
  if (length result_list =? 0)%nat then Err LogicError
  else
    Ok (match req_path with
        | Some p => map (strip_prefix (length (fname p))) result_list
        | None => result_list
        end).

Definition processObjectExistsRequest (id : Z) (s : DB) : bool :=
  objectExists id s.

(** [field.name[col_num] = counter]; an index out of range raises. *)
Definition set_name_elem (col_num : nat) (counter : Z) (field : Field)
  : result Field :=
  if (col_num <? length (fname field))%nat then
    Ok (with_name field (<[col_num := NInt counter]> (fname field)))
  else Err EngineError.

(** The local function [enumerate] of [processInsertRequest]. *)
Fixpoint enumerate (field_groups : list (list Field)) (col_num : nat)
  (counter : Z) : result (list (list Field)) :=
  match field_groups with
  | [] => Ok []
  | field_group :: rest =>
      g ← mapM (set_name_elem col_num counter) field_group;
      gs ← enumerate rest col_num (counter + 1);
      Ok (g :: gs)
  end.

(** The first step of [processInsertRequest]: the check of the parent and
    the autocreation of the list. *)
Definition insert_prepare_parent (id : Z) (path : Field)
  (remove_conflicts : bool) (s : DB) : result DB :=
  let parent_field := mkPath (removelast (fname path)) in
  let parent := getFieldValue id parent_field s in
  let not_list :=
    match parent with
    | [] => true
    | p0 :: _ => negb (is_list (fvalue p0))
    end in
  if not_list then
    if (length parent =? 0)%nat || remove_conflicts then
      _modifyFields id parent_field [mkField [] VList] remove_conflicts s
    else Err StructureError
  else Ok s.

(** The second step of [processInsertRequest]: "if path does not point to
    beginning of the list, fill missing elements with Nones". *)
Definition insert_fill (id : Z) (path : Field) (s : DB) : result DB :=
  match fname path with
  | [] => Err EngineError            (* name[-1] of an empty name *)
  | _ =>
      match List.last (fname path) NWild with
      | NWild => Ok s
      | NInt i => if 0 <? i then _fillWithNones id path s else Ok s
      | NStr _ => Err EngineError    (* a string compared with 0 *)
      end
  end.

(** The third step of [processInsertRequest]: the numbering of the groups,
    with the renumbering of the list when the groups go into its middle. *)
Definition insert_enumerate (id : Z) (path : Field)
  (field_groups : list (list Field)) (s : DB)
  : result (list (list Field) * DB) :=
  let target_col := (length (fname path) - 1)%nat in
  max ← getMaxListIndex id path s;
  match max with
  | None =>
      gs ← enumerate field_groups target_col 0; Ok (gs, s)
  | Some m =>
      match fname path !! target_col with
      | Some NWild =>
          gs ← enumerate field_groups target_col (m + 1); Ok (gs, s)
      | Some (NInt i) =>
          s1 ← _renumber id path (Z.of_nat (length field_groups)) s;
          gs ← enumerate field_groups target_col i;
          Ok (gs, s1)
      | _ => Err EngineError
      end
  end.

Definition processInsertRequest (id : Z) (path : Field)
  (field_groups : list (list Field)) (remove_conflicts : bool) (s : DB)
  : result DB :=
  s1 ← insert_prepare_parent id path remove_conflicts s;
  s2 ← insert_fill id path s1;
  '(gs, s3) ← insert_enumerate id path field_groups s2;
  foldM (λ field s, _setFieldValue id field s) (concat gs) s3.

End LogicLayer.

(** ** Search conditions and their compilation *)

(** The constants of the module [op]. *)
Inductive comparison := EQ | REGEXP | LT | GT | LTE | GTE.

Inductive operator := AND | OR.

(** [interface.SearchRequest.Condition]: a leaf compares a field with a
    value; [processSearchRequest] replaces the field of a leaf by [None]
    when its table does not exist. *)
Inductive Condition :=
| Leaf (operand1 : option Field) (cmp : comparison) (operand2 : Field)
    (invert : bool)
| Node (operand1 : Condition) (oper : operator) (operand2 : Condition)
    (invert : bool).

(** A table given for a [{}] slot of a statement. *)
Inductive table_ref :=
| IdTable
| FieldTable (k : list (option string) * type_tag).

(** What the compiler needs from the engine and from [Field]: the text of
    the regexp operator, the text of a columns condition, and the truth
    value of a comparison of the value column with a bound value ([None]
    when the comparison is NULL). *)
Class EngineSql := {
  getRegexpOp : string;
  columns_condition_sql : list name_elem → string;
  sql_compare : comparison → value → value → option bool
}.

Section Search.

Context {E : EngineSql}.

Local Open Scope string_scope.
Local Open Scope list_scope.

Definition _ID_COLUMN : string := "id".
Definition _VALUE_COLUMN : string := "value".

Definition operations (o : operator) : string :=
  match o with
  | AND => "INTERSECT"
  | OR => "UNION"
  end.

Definition comparisons (c : comparison) : string :=
  match c with
  | EQ => "="
  | REGEXP => getRegexpOp
  | LT => "<"
  | GT => ">"
  | LTE => "<="
  | GTE => ">="
  end.

(** The statement of all ids: [SELECT DISTINCT id FROM {}] on the
    specification table. *)
Definition all_ids_query : string * list table_ref * list value :=
  ("SELECT DISTINCT " +:+ _ID_COLUMN +:+ " FROM {}", [IdTable], []).

(** The base statement of a leaf: the comparison on the value column of the
    table of the field. *)
Definition leaf_base_query (op1 : Field) (cmp : comparison) (op2 : Field)
  (invert : bool) : string :=
  let not_str := if invert then " NOT " else " " in
  let comp_str :=
    "WHERE " +:+ not_str +:+ " " +:+ _VALUE_COLUMN +:+ " "
    +:+ comparisons cmp +:+ " ?" in
  "SELECT DISTINCT " +:+ _ID_COLUMN +:+ " FROM {} "
  +:+ comp_str +:+ " " +:+ columns_condition_sql (fname op1).

(** The statement added to an inverted leaf: the objects that do not have
    the field at all. *)
Definition lacking_query : string :=
  "SELECT " +:+ _ID_COLUMN +:+ " FROM "
  +:+ "(SELECT DISTINCT " +:+ _ID_COLUMN +:+ " FROM {} "
  +:+ "EXCEPT SELECT DISTINCT " +:+ _ID_COLUMN +:+ " FROM {}) as temp".

Fixpoint buildSqlQuery_cond (condition : Condition)
  : option (string * list table_ref * list value) :=
  match condition with
  | Node c1 o c2 _ =>
      match buildSqlQuery_cond c1, buildSqlQuery_cond c2 with
      | None, None => None
      | None, Some q2 =>
          match o with
          | AND => None
          | OR => Some q2
          end
      | Some q1, None =>
          match o with
          | AND => None
          | OR => Some q1
          end
      | Some (cond1, tables1, values1), Some (cond2, tables2, values2) =>
          Some ("SELECT * FROM (" +:+ cond1 +:+ ") as temp "
                +:+ operations o +:+ " SELECT * FROM ("
                +:+ cond2 +:+ ") as temp",
                tables1 ++ tables2, values1 ++ values2)
      end
  | Leaf None _ _ invert =>
      if invert then Some all_ids_query else None
  | Leaf (Some op1) cmp op2 invert =>
      let result := leaf_base_query op1 cmp op2 invert in
      let tables := [FieldTable (name_str op1)] in
      let values := [fvalue op2] in
      let result := if invert then result +:+ " UNION " else result in
      if invert then
        Some (result +:+ lacking_query,
              tables ++ [IdTable; FieldTable (name_str op1)], values)
      else Some (result, tables, values)
  end.

Definition buildSqlQuery (condition : option Condition)
  : option (string * list table_ref * list value) :=
  match condition with
  | None => Some all_ids_query
  | Some c => buildSqlQuery_cond c
  end.

(** The local functions of [processSearchRequest]. *)
Fixpoint getMentionedFields (condition : Condition)
  : list (list (option string) * type_tag) :=
  match condition with
  | Node c1 _ c2 _ => getMentionedFields c1 ++ getMentionedFields c2
  | Leaf (Some op1) _ _ _ => [name_str op1]
  | Leaf None _ _ _ => []
  end.

Fixpoint updateCondition (condition : Condition)
  (existing_tables : list (list (option string) * type_tag)) : Condition :=
  match condition with
  | Node c1 o c2 i =>
      Node (updateCondition c1 existing_tables) o
        (updateCondition c2 existing_tables) i
  | Leaf (Some op1) cmp op2 i =>
      if bool_decide (name_str op1 ∈ existing_tables) then condition
      else Leaf None cmp op2 i
  | Leaf None _ _ _ => condition
  end.

(** Modelled from the spec: [selectExistingTables] of the missing engine,
    "subset that exist". *)
Definition selectExistingTables
  (names : list (list (option string) * type_tag)) (s : DB)
  : list (list (option string) * type_tag) :=
  List.filter (λ k, Engine.tableExists k s) names.

(** The condition as [processSearchRequest] hands it to the compiler. *)
Definition search_condition (condition : option Condition) (s : DB)
  : option Condition :=
  match condition with
  | None => None
  | Some c =>
      Some (updateCondition c (selectExistingTables (getMentionedFields c) s))
  end.

(** The statement [processSearchRequest] executes, [None] when it returns
    the empty list without executing anything. *)
Definition search_query (condition : option Condition) (s : DB)
  : option (string * list table_ref * list value) :=
  buildSqlQuery (search_condition condition s).

(** *** What the compiled statements denote *)

Definition all_ids (s : DB) : list Z := distinct (map s_id (id_table s)).

Definition table_ids (k : list (option string) * type_tag) (s : DB) : list Z :=
  distinct (map r_id (default [] (field_tables s !! k))).

(** [WHERE [NOT] value cmp ?]: a row is kept when the condition is true,
    not when it is false or NULL. *)
Definition where_holds (cmp : comparison) (lit : value) (invert : bool)
  (r : Row) : bool :=
  match sql_compare cmp (r_value r) lit with
  | Some b => if invert then negb b else b
  | None => false
  end.

Definition leaf_base_ids (op1 : Field) (cmp : comparison) (op2 : Field)
  (invert : bool) (s : DB) : list Z :=
  distinct
    (map r_id
       (List.filter
          (λ r, where_holds cmp (fvalue op2) invert r
                && cond_holds (columns (fname op1)) (r_cols r))
          (default [] (field_tables s !! name_str op1)))).

Definition ids_union (a b : list Z) : list Z := distinct (a ++ b).

Definition ids_intersect (a b : list Z) : list Z :=
  distinct (List.filter (λ x, bool_decide (x ∈ b)) a).

Definition ids_except (a b : list Z) : list Z :=
  distinct (List.filter (λ x, negb (bool_decide (x ∈ b))) a).

(** Modelled from the spec: [execute] of the missing engine on the
    statements of [buildSqlQuery] (section 4.5): [UNION], [INTERSECT] and
    [EXCEPT] are the set operations on the selected ids.  The result is
    [None] exactly when [buildSqlQuery] gives the null statement. *)
Fixpoint query_ids (condition : Condition) (s : DB) : option (list Z) :=
  match condition with
  | Node c1 o c2 _ =>
      match query_ids c1 s, query_ids c2 s with
      | None, None => None
      | None, Some r2 => match o with AND => None | OR => Some r2 end
      | Some r1, None => match o with AND => None | OR => Some r1 end
      | Some r1, Some r2 =>
          Some (match o with
                | AND => ids_intersect r1 r2
                | OR => ids_union r1 r2
                end)
      end
  | Leaf None _ _ invert => if invert then Some (all_ids s) else None
  | Leaf (Some op1) cmp op2 invert =>
      let base := leaf_base_ids op1 cmp op2 invert s in
      if invert then
        Some (ids_union base
                (ids_except (all_ids s) (table_ids (name_str op1) s)))
      else Some base
  end.

Definition processSearchRequest (condition : option Condition) (s : DB)
  : list Z :=
  match search_condition condition s with
  | None => all_ids s
  | Some c => default [] (query_ids c s)
  end.

End Search.

(** ** The propagation of the inversion: [_propagateInversion] of
    brain/connection.py *)

(** [condition.invert] *)
Definition invert_of (condition : Condition) : bool :=
  match condition with
  | Leaf _ _ _ invert => invert
  | Node _ _ _ invert => invert
  end.

(** [condition.invert = b] *)
Definition set_invert (condition : Condition) (b : bool) : Condition :=
  match condition with
  | Leaf operand1 cmp operand2 _ => Leaf operand1 cmp operand2 b
  | Node operand1 oper operand2 _ => Node operand1 oper operand2 b
  end.

(** "invert operator" *)
Definition invert_operator (o : operator) : operator :=
  match o with
  | AND => OR
  | OR => AND
  end.

(** [_propagateInversion] of brain/connection.py on the condition whose
    flag [invert] has been set to the given one: the function sets the
    flags of the operands of an inverted node before it goes down into
    them. *)
Fixpoint _propagateInversion_as (invert : bool) (condition : Condition)
  : Condition :=
  match condition with
  | Leaf operand1 cmp operand2 _ => Leaf operand1 cmp operand2 invert
  | Node operand1 oper operand2 _ =>
      if invert then
        Node (_propagateInversion_as (negb (invert_of operand1)) operand1)
          (invert_operator oper)
          (_propagateInversion_as (negb (invert_of operand2)) operand2)
          false
      else
        Node (_propagateInversion_as (invert_of operand1) operand1)
          oper
          (_propagateInversion_as (invert_of operand2) operand2)
          false
  end.

Definition _propagateInversion (condition : Condition) : Condition :=
  _propagateInversion_as (invert_of condition) condition.

(** ** Repair, dump and the dispatch of requests *)

(** A Python dictionary in insertion order: [d[k] = f(d.get(k))]. *)
Fixpoint dict_upd {K V : Type} `{EqDecision K} (k : K) (f : option V → V)
  (d : list (K * V)) : list (K * V) :=
  match d with
  | [] => [(k, f None)]
  | (k', v) :: d' =>
      if bool_decide (k' = k) then (k', f (Some v)) :: d'
      else (k', v) :: dict_upd k f d'
  end.

Fixpoint dict_get {K V : Type} `{EqDecision K} (k : K) (d : list (K * V))
  : option V :=
  match d with
  | [] => None
  | (k', v) :: d' => if bool_decide (k' = k) then Some v else dict_get k d'
  end.

(** One step of the counting loop of [repairSupportTables]:
    [refcounters[obj_id][name_str_no_type][type_str] += 1], with the missing
    levels created. *)
Definition refcounters_add (obj_id : Z) (n : list (option string))
  (t : type_tag)
  (refcounters : list (Z * list (list (option string) * list (type_tag * Z))))
  : list (Z * list (list (option string) * list (type_tag * Z))) :=
  dict_upd obj_id
    (λ names,
       dict_upd n
         (λ types,
            dict_upd t
              (λ c, match c with None => 1 | Some c => c + 1 end)
              (default [] types))
         (default [] names))
    refcounters.

(** The dictionary [refcounters] after the scan of the given tables. *)
Definition count_refs
  (tables : list ((list (option string) * type_tag) * list Row))
  : list (Z * list (list (option string) * list (type_tag * Z))) :=
  fold_left
    (λ refcounters '(k, rows),
       fold_left (λ rc obj_id, refcounters_add obj_id k.1 k.2 rc)
         (map r_id rows) refcounters)
    tables [].

(** "flatten refcounters hierarchy" *)
Definition flatten_refs
  (refcounters : list (Z * list (list (option string) * list (type_tag * Z))))
  : list SpecRow :=
  flat_map
    (λ '(obj_id, names),
       flat_map
         (λ '(n, types), map (λ '(t, c), mkSpecRow obj_id n t c) types)
         names)
    refcounters.

Definition repairSupportTables (s : DB) : DB :=
  set_id_table (flatten_refs (count_refs (map_to_list (field_tables s)))) s.

Inductive dump_entry :=
| DumpId (id : Z)
| DumpFields (fields : list Field).

Inductive Request :=
| CreateRequest (fields : list Field)
| ModifyRequest (id : Z) (path : Field) (fields : list Field)
    (remove_conflicts : bool)
| InsertRequest (id : Z) (path : Field) (field_groups : list (list Field))
    (remove_conflicts : bool)
| ReadRequest (id : Z) (path : option Field) (masks : option (list Field))
| DeleteRequest (id : Z) (fields : option (list Field))
| SearchRequest (condition : option Condition)
| ObjectExistsRequest (id : Z)
| DumpRequest
| RepairRequest.

Inductive Response :=
| RNone
| RNewId (id : Z)
| RFields (fields : list Field)
| RIds (ids : list Z)
| RBool (b : bool)
| RDump (entries : list dump_entry).

Section Requests.

Context {P : Predicates} {E : EngineSql}.

Definition processDumpRequest (s : DB) : result (list dump_entry) :=
  let ids := processSearchRequest None s in
  entries ← mapM
              (λ obj_id,
                 fields ← processReadRequest obj_id None None s;
                 Ok [DumpId obj_id; DumpFields fields])
              ids;
  Ok (concat entries).

Definition processRepairRequest (s : DB) : DB := repairSupportTables s.

(** The handlers of [Connection._prepareRequest], applied to a request. *)
Definition processRequest (request : Request) (s : DB)
  : result (Response * DB) :=
  match request with
  | CreateRequest fields =>
      '(new_id, s') ← processCreateRequest fields s; Ok (RNewId new_id, s')
  | ModifyRequest id path fields rc =>
      s' ← processModifyRequest id path fields rc s; Ok (RNone, s')
  | InsertRequest id path groups rc =>
      s' ← processInsertRequest id path groups rc s; Ok (RNone, s')
  | ReadRequest id path masks =>
      fields ← processReadRequest id path masks s; Ok (RFields fields, s)
  | DeleteRequest id fields =>
      s' ← processDeleteRequest id fields s; Ok (RNone, s')
  | SearchRequest condition =>
      Ok (RIds (processSearchRequest condition s), s)
  | ObjectExistsRequest id => Ok (RBool (processObjectExistsRequest id s), s)
  | DumpRequest => entries ← processDumpRequest s; Ok (RDump entries, s)
  | RepairRequest => Ok (RNone, processRepairRequest s)
  end.

(** A batch of requests, each in its own transaction: a request that
    raises is rolled back and leaves the store as it was. *)
Fixpoint run (requests : list Request) (s : DB) : DB :=
  match requests with
  | [] => s
  | r :: rest =>
      match processRequest r s with
      | Ok (_, s') => run rest s'
      | Err _ => run rest s
      end
  end.

End Requests.

(** ** The field codec of brain/connection.py *)

Module Codec.

(** A scalar of a document. *)
Inductive scalar :=
| SNone
| SStr (s : string)
| SInt (z : Z)
| SFloat (bits : Z)
| SBytes (b : list Byte.byte).

(** A document: nested dictionaries with string keys (in insertion order),
    lists and scalars. *)
#[local] Unset Elimination Schemes.
Inductive doc :=
| DScalar (v : scalar)
| DMap (items : list (string * doc))
| DList (elems : list doc).
#[local] Set Elimination Schemes.

Definition value_of_scalar (v : scalar) : value :=
  match v with
  | SNone => VNone
  | SStr s => VStr s
  | SInt z => VInt z
  | SFloat b => VFloat b
  | SBytes b => VBytes b
  end.

(** The Python object a value of a field stands for. *)
Definition py_value (v : value) : doc :=
  match v with
  | VNone => DScalar SNone
  | VStr s => DScalar (SStr s)
  | VInt z => DScalar (SInt z)
  | VFloat b => DScalar (SFloat b)
  | VBytes b => DScalar (SBytes b)
  | VMap => DMap []
  | VList => DList []
  end.

Definition is_none (d : doc) : bool :=
  match d with DScalar SNone => true | _ => false end.

(** The local function [flattenNode] of [_flattenHierarchy]. *)
Fixpoint flattenNode (node : doc) (prefix : list name_elem)
  : list (list name_elem * value) :=
  match node with
  | DMap items =>
      (prefix, VMap)
      :: (fix over_keys (items : list (string * doc)) :=
            match items with
            | [] => []
            | (x, child) :: rest =>
                flattenNode child (prefix ++ [NStr x]) ++ over_keys rest
            end) items
  | DList elems =>
      (prefix, VList)
      :: (fix over_elems (elems : list doc) (i : Z) :=
            match elems with
            | [] => []
            | x :: rest =>
                flattenNode x (prefix ++ [NInt i]) ++ over_elems rest (i + 1)
            end) elems 0
  | DScalar v => [(prefix, value_of_scalar v)]
  end.

Definition _flattenHierarchy (data : doc) : list Field :=
  map (λ '(path, v), mkField path v) (flattenNode data []).

(** [obj[ptr]] for a list: a negative index counts from the end. *)
Definition list_index (n : nat) (i : Z) : option nat :=
  if 0 <=? i then
    if i <? Z.of_nat n then Some (Z.to_nat i) else None
  else
    if - i <=? Z.of_nat n then Some (Z.to_nat (Z.of_nat n + i)) else None.

Fixpoint items_get (k : string) (items : list (string * doc)) : option doc :=
  match items with
  | [] => None
  | (k', v) :: rest => if bool_decide (k' = k) then Some v else items_get k rest
  end.

Fixpoint items_set (k : string) (x : doc) (items : list (string * doc))
  : list (string * doc) :=
  match items with
  | [] => [(k, x)]
  | (k', v) :: rest =>
      if bool_decide (k' = k) then (k', x) :: rest
      else (k', v) :: items_set k x rest
  end.

(** [obj[ptr]].  Only lists indexed by integers and dictionaries keyed by
    strings are modelled; any other access is a fault. *)
Definition get_item (obj : doc) (ptr : name_elem) : result doc :=
  match obj, ptr with
  | DList l, NInt i =>
      match list_index (length l) i with
      | Some n => match l !! n with Some x => Ok x | None => Err EngineError end
      | None => Err EngineError
      end
  | DMap items, NStr k =>
      match items_get k items with
      | Some x => Ok x
      | None => Err EngineError
      end
  | _, _ => Err EngineError
  end.

(** [obj[ptr] = x] *)
Definition set_item (obj : doc) (ptr : name_elem) (x : doc) : result doc :=
  match obj, ptr with
  | DList l, NInt i =>
      match list_index (length l) i with
      | Some n => Ok (DList (<[n := x]> l))
      | None => Err EngineError
      end
  | DMap items, NStr k => Ok (DMap (items_set k x items))
  | _, _ => Err EngineError
  end.

(** "ensure that there is a place in obj where ptr points" *)
Definition ensure_place (obj : doc) (ptr : name_elem) : result doc :=
  match obj, ptr with
  | DList l, NInt i =>
      if Z.of_nat (length l) <? i + 1 then
        Ok (DList (l ++ replicate (Z.to_nat (i + 1 - Z.of_nat (length l)))
                          (DScalar SNone)))
      else Ok obj
  | DList _, _ => Err EngineError
  | DMap items, NStr k =>
      match items_get k items with
      | Some _ => Ok obj
      | None => Ok (DMap (items_set k (DScalar SNone) items))
      end
  | DMap _, _ => Err EngineError
  | DScalar _, _ => Ok obj
  end.

(** [_saveTo(obj, ptr, path, value)]; the object is changed in place in
    the source, and returned here. *)
Fixpoint _saveTo (obj : doc) (ptr : name_elem) (path : list name_elem)
  (v : value) : result doc :=
  obj1 ← ensure_place obj ptr;
  match path with
  | [] =>
      cur ← get_item obj1 ptr;
      if (negb (is_list v) && negb (is_map v)) || is_none cur
      then set_item obj1 ptr (py_value v)
      else Ok obj1
  | p0 :: rest =>
      cur ← get_item obj1 ptr;
      obj2 ← (if is_none cur
              then set_item obj1 ptr (if is_str p0 then DMap [] else DList [])
              else Ok obj1);
      child ← get_item obj2 ptr;
      child' ← _saveTo child p0 rest v;
      set_item obj2 ptr child'
  end.

Definition _fieldsToTree (fields : list Field) : result doc :=
  if (length fields =? 0)%nat then Ok (DList [])
  else
    res ← foldM (λ field res, _saveTo res (NInt 0) (fname field) (fvalue field))
            fields (DList []);
    get_item res (NInt 0).

(** Every dictionary of the document has its keys once. *)
Fixpoint keys_unique (d : doc) : Prop :=
  match d with
  | DScalar _ => True
  | DMap items =>
      NoDup (map fst items)
      ∧ (fix all (items : list (string * doc)) : Prop :=
           match items with
           | [] => True
           | (_, child) :: rest => keys_unique child ∧ all rest
           end) items
  | DList elems =>
      (fix all (elems : list doc) : Prop :=
         match elems with
         | [] => True
         | x :: rest => keys_unique x ∧ all rest
         end) elems
  end.

End Codec.

(** ** The facade: [Connection] of brain/connection.py *)

(** What a handler that raises leaves in the store it worked on: the
    writes it made before it raised.  The sources do not say what they
    are; the properties of the facade hold whatever they are. *)
Class Interrupted := interrupted : Request → DB → DB.

Module Facade.

(** What a call of the facade raises: the errors of the facade itself, and
    whatever the logic layer, the engine or the interpreter raised. *)
Inductive exception :=
| FacadeError
| FormatError
| Raised (e : error).

Inductive outcome (A : Type) :=
| Returns (a : A)
| Raises (x : exception).

Arguments Returns {A} a.
Arguments Raises {A} x.

Definition lift {A : Type} (r : result A) : outcome A :=
  match r with
  | Ok a => Returns a
  | Err e => Raises (Raised e)
  end.

(** Modelled from the spec: the transactions of the missing engine
    ([begin], [commit], [rollback] of the engine adapter contract).  The
    engine holds the store, and during a transaction the store as it was
    at [begin], which [rollback] gives back. *)
Record EngineState := mkEngine {
  e_store : DB;
  e_saved : option DB
}.

Definition engine_begin (e : EngineState) : EngineState :=
  {| e_store := e_store e; e_saved := Some (e_store e) |}.

Definition engine_commit (e : EngineState) : EngineState :=
  {| e_store := e_store e; e_saved := None |}.

Definition engine_rollback (e : EngineState) : EngineState :=
  {| e_store := default (e_store e) (e_saved e); e_saved := None |}.

(** An entry of a dump as the user gets it: the entries at the odd
    positions are made trees, the others are left as they are. *)
Inductive dumped :=
| Untouched (entry : dump_entry)
| Tree (tree : Codec.doc).

(** A result in "user-readable form". *)
Inductive user_result :=
| UNone
| UResult (res : Response)
| UTree (tree : Codec.doc)
| UDump (entries : list dumped).

(** The loop over a dump of [_transformResults]: "IDs have even indexes,
    lists of fields have odd ones". *)
Fixpoint transform_dump (i : nat) (entries : list dump_entry)
  : result (list dumped) :=
  match entries with
  | [] => Ok []
  | e :: rest =>
      x ← (if Nat.odd i then
             match e with
             | DumpFields fields =>
                 tree ← Codec._fieldsToTree fields; Ok (Tree tree)
             | DumpId _ => Err EngineError   (* len() of an integer *)
             end
           else Ok (Untouched e));
      xs ← transform_dump (S i) rest;
      Ok (x :: xs)
  end.

(** The body of the loop of [_transformResults].  A request has the result
    of its own handler; another result is taken for a fault. *)
Definition transform_result (request : Request) (res : Response)
  : result user_result :=
  match request with
  | ModifyRequest _ _ _ _ | InsertRequest _ _ _ _ | DeleteRequest _ _
  | RepairRequest => Ok UNone
  | SearchRequest _ | CreateRequest _ | ObjectExistsRequest _ =>
      Ok (UResult res)
  | ReadRequest _ _ _ =>
      match res with
      | RFields fields => tree ← Codec._fieldsToTree fields; Ok (UTree tree)
      | _ => Err EngineError
      end
  | DumpRequest =>
      match res with
      | RDump entries =>
          entries' ← transform_dump 0 entries; Ok (UDump entries')
      | _ => Err EngineError
      end
  end.

(** [for result, request in zip(results, requests)] *)
Fixpoint _transformResults (requests : list Request) (results : list Response)
  : result (list user_result) :=
  match results, requests with
  | res :: results', request :: requests' =>
      r ← transform_result request res;
      rs ← _transformResults requests' results';
      Ok (r :: rs)
  | _, _ => Ok []
  end.

(** [Connection._prepareRequest]: the request as the handler gets it; the
    handler is [processRequest] on it. *)
Definition _prepareRequest (request : Request) : Request :=
  match request with
  | InsertRequest id path field_groups remove_conflicts =>
      InsertRequest id path
        (map (map (λ field, with_name field (fname path ++ fname field)))
           field_groups)
        remove_conflicts
  | SearchRequest (Some condition) =>
      SearchRequest (Some (_propagateInversion condition))
  | _ => request
  end.

Record Connection := mkConnection {
  _engine : EngineState;
  _transaction : bool;
  _sync : bool;
  _requests : list Request;
  _remove_conflicts : bool
}.

(** [Connection.__init__] *)
Definition new_connection (engine : DB) (remove_conflicts : bool)
  : Connection :=
  {| _engine := {| e_store := engine; e_saved := None |};
     _transaction := false;
     _sync := false;
     _requests := [];
     _remove_conflicts := remove_conflicts |}.

Definition set_engine (e : EngineState) (c : Connection) : Connection :=
  {| _engine := e; _transaction := _transaction c; _sync := _sync c;
     _requests := _requests c; _remove_conflicts := _remove_conflicts c |}.

Definition set_transaction (b : bool) (c : Connection) : Connection :=
  {| _engine := _engine c; _transaction := b; _sync := _sync c;
     _requests := _requests c; _remove_conflicts := _remove_conflicts c |}.

Definition set_sync (b : bool) (c : Connection) : Connection :=
  {| _engine := _engine c; _transaction := _transaction c; _sync := b;
     _requests := _requests c; _remove_conflicts := _remove_conflicts c |}.

Definition set_requests (l : list Request) (c : Connection) : Connection :=
  {| _engine := _engine c; _transaction := _transaction c; _sync := _sync c;
     _requests := l; _remove_conflicts := _remove_conflicts c |}.

Definition begin (sync : bool) (c : Connection) : Connection * outcome unit :=
  if negb (_transaction c) then
    let c1 := if sync then set_engine (engine_begin (_engine c)) c else c in
    (set_sync sync (set_transaction true c1), Returns tt)
  else (c, Raises FacadeError).

Definition beginAsync (c : Connection) : Connection * outcome unit :=
  begin false c.

Definition beginSync (c : Connection) : Connection * outcome unit :=
  begin true c.

Definition rollback (c : Connection) : Connection * outcome unit :=
  if negb (_transaction c) then (c, Raises FacadeError)
  else
    let c1 := set_transaction false c in
    if _sync c1 then (set_engine (engine_rollback (_engine c1)) c1, Returns tt)
    else (set_requests [] c1, Returns tt).

Section Handlers.

Context {P : Predicates} {E : EngineSql} {I : Interrupted}.

(** [handler(request)] on the engine. *)
Definition call_handler (request : Request) (e : EngineState)
  : EngineState * outcome Response :=
  match processRequest request (e_store e) with
  | Ok (response, s') =>
      ({| e_store := s'; e_saved := e_saved e |}, Returns response)
  | Err err =>
      ({| e_store := interrupted request (e_store e); e_saved := e_saved e |},
       Raises (Raised err))
  end.

(** The loop of [_processRequests]. *)
Fixpoint handle_all (prepared_requests : list Request) (e : EngineState)
  : EngineState * outcome (list Response) :=
  match prepared_requests with
  | [] => (e, Returns [])
  | request :: rest =>
      match call_handler request e with
      | (e1, Returns response) =>
          match handle_all rest e1 with
          | (e2, Returns res) => (e2, Returns (response :: res))
          | (e2, Raises x) => (e2, Raises x)
          end
      | (e1, Raises x) => (e1, Raises x)
      end
  end.

Definition _processRequests (requests : list Request) (e : EngineState)
  : EngineState * outcome (list Response) :=
  let prepared_requests := map _prepareRequest requests in
  match handle_all prepared_requests (engine_begin e) with
  | (e2, Returns res) => (engine_commit e2, Returns res)
  | (e2, Raises x) => (engine_rollback e2, Raises x)
  end.

(** [commit] returns the results of an asynchronous transaction, and
    [None] at the end of a synchronous one. *)
Definition commit (c : Connection)
  : Connection * outcome (option (list user_result)) :=
  if negb (_transaction c) then (c, Raises FacadeError)
  else
    let c1 := set_transaction false c in
    if _sync c1 then
      (set_sync false (set_engine (engine_commit (_engine c1)) c1),
       Returns None)
    else
      let '(e', res) := _processRequests (_requests c1) (_engine c1) in
      (set_requests [] (set_engine e' c1),
       match res with
       | Returns res =>
           match _transformResults (_requests c1) res with
           | Ok l => Returns (Some l)
           | Err err => Raises (Raised err)
           end
       | Raises x => Raises x
       end).

(** [l[0]] *)
Definition item0 {A : Type} (l : list A) : outcome A :=
  match l with
  | a :: _ => Returns a
  | [] => Raises (Raised EngineError)
  end.

(** The decorator [_transacted] around a method of [Connection].  Every
    method under it builds one request and appends it to [_requests], or
    raises before it does: [queued] is the request, or what was raised. *)
Definition _transacted (queued : outcome Request) (c : Connection)
  : Connection * outcome user_result :=
  if _sync c then
    match queued with
    | Raises x => (c, Raises x)
    | Returns request =>
        let c1 := set_requests (_requests c ++ [request]) c in
        let '(e1, processed) :=
          match item0 (_requests c1) with
          | Raises x => (_engine c1, Raises x)
          | Returns request0 =>
              match call_handler (_prepareRequest request0) (_engine c1) with
              | (e1, Returns res) =>
                  (e1, lift (_transformResults (_requests c1) [res]))
              | (e1, Raises x) => (e1, Raises x)
              end
          end in
        let c2 := set_engine e1 c1 in
        match processed with
        | Returns processed => (set_requests [] c2, item0 processed)
        | Raises x =>
            let '(c3, rolled_back) := rollback c2 in
            (set_requests [] c3,
             match rolled_back with
             | Returns _ => Raises x
             | Raises y => Raises y
             end)
        end
    end
  else
    let create_transaction := negb (_transaction c) in
    let '(c1, begun) :=
      if create_transaction then beginAsync c else (c, Returns tt) in
    match begun with
    | Raises x => (c1, Raises x)
    | Returns _ =>
        match queued with
        | Raises x =>
            let '(c2, rolled_back) := rollback c1 in
            (c2, match rolled_back with
                 | Returns _ => Raises x
                 | Raises y => Raises y
                 end)
        | Returns request =>
            let c2 := set_requests (_requests c1 ++ [request]) c1 in
            if create_transaction then
              let '(c3, committed) := commit c2 in
              (c3, match committed with
                   | Returns (Some l) => item0 l
                   | Returns None => Raises (Raised EngineError)
                   | Raises x => Raises x
                   end)
            else (c2, Returns UNone)
        end
    end.

End Handlers.

(** The methods of [Connection] under [_transacted], and those that call
    them. *)
Module Methods.

Section Methods.

Context {P : Predicates} {E : EngineSql} {I : Interrupted}.

Definition modify (id : Z) (path : option (list name_elem))
  (value : Codec.doc) (remove_conflicts : option bool) (c : Connection)
  : Connection * outcome user_result :=
  _transacted
    (Returns (ModifyRequest id (mkPath (default [] path))
                (Codec._flattenHierarchy value)
                (default (_remove_conflicts c) remove_conflicts))) c.

Definition read (id : Z) (path : option (list name_elem))
  (masks : option (list (list name_elem))) (c : Connection)
  : Connection * outcome user_result :=
  _transacted
    (Returns (ReadRequest id (mkPath <$> path)
                (match path with
                 | Some p => map (λ mask, mkPath (p ++ mask)) <$> masks
                 | None => map mkPath <$> masks
                 end))) c.

Definition insertMany (id : Z) (path : list name_elem)
  (values : list Codec.doc) (remove_conflicts : option bool) (c : Connection)
  : Connection * outcome user_result :=
  _transacted
    (Returns (InsertRequest id (mkPath path)
                (map Codec._flattenHierarchy values)
                (default (_remove_conflicts c) remove_conflicts))) c.

Definition deleteMany (id : Z) (paths : option (list (list name_elem)))
  (c : Connection) : Connection * outcome user_result :=
  _transacted (Returns (DeleteRequest id (map mkPath <$> paths))) c.

Definition create (data : Codec.doc) (path : option (list name_elem))
  (c : Connection) : Connection * outcome user_result :=
  _transacted
    (Returns (CreateRequest
                (map (λ field, with_name field (default [] path ++ fname field))
                   (Codec._flattenHierarchy data)))) c.

Definition objectExists (id : Z) (c : Connection)
  : Connection * outcome user_result :=
  _transacted (Returns (ObjectExistsRequest id)) c.

Definition dump (c : Connection) : Connection * outcome user_result :=
  _transacted (Returns DumpRequest) c.

Definition repair (c : Connection) : Connection * outcome user_result :=
  _transacted (Returns RepairRequest) c.

Definition readByMask (id : Z) (mask : option (list name_elem))
  (c : Connection) : Connection * outcome user_result :=
  read id None (match mask with Some m => Some [m] | None => None end) c.

Definition readByMasks (id : Z) (masks : option (list (list name_elem)))
  (c : Connection) : Connection * outcome user_result :=
  read id None masks c.

Definition insert (id : Z) (path : list name_elem) (value : Codec.doc)
  (remove_conflicts : option bool) (c : Connection)
  : Connection * outcome user_result :=
  insertMany id path [value] remove_conflicts c.

Definition delete (id : Z) (path : option (list name_elem)) (c : Connection)
  : Connection * outcome user_result :=
  deleteMany id (match path with Some p => Some [p] | None => None end) c.

End Methods.

End Methods.

End Facade.

(** ** The indices in use in a list *)

(** The indices in use in the list at path [p] of object [id]: the values
    of the index column that follows the columns of [p], in the rows of the
    object that lie under [p]. *)
Definition used_indices (id : Z) (p : list name_elem) (s : DB) : list Z :=
  distinct
    (flat_map
       (λ '(k, rows),
          if prefix_b (name_str_no_type (p ++ [NWild])) k.1 then
            omap (λ r, if row_sel id (columns p) r
                       then mjoin (r_cols r !! length (columns p))
                       else None) rows
          else [])
       (map_to_list (field_tables s))).

(** The indices are [0, 1, ..., n-1] for some [n]. *)
Definition dense (l : list Z) : Prop :=
  ∃ n, ∀ i, In i l ↔ 0 ≤ i < n.

(** ** Stores and requests of the scenarios *)

Module Examples.

#[local] Existing Instance spec_predicates.

Local Open Scope string_scope.
Local Open Scope list_scope.

Definition store_of {A : Type} (r : result (A * DB)) : DB :=
  match r with
  | Ok (_, s) => s
  | Err _ => empty_db
  end.

Definition state_of (r : result DB) : DB :=
  match r with
  | Ok s => s
  | Err _ => empty_db
  end.

(** Scenario 1 of the spec: three values at the path [['tracks']]. *)
Definition tracks_fields : list Field :=
  [mkField [NStr "tracks"] (VStr "Track 1");
   mkField [NStr "tracks"] (VStr "Track 2");
   mkField [NStr "tracks"] (VStr "Track 3")].

Definition tracks_store : DB :=
  store_of (processCreateRequest tracks_fields empty_db).

(** Three values of two types at the path [['x']]. *)
Definition mixed_fields : list Field :=
  [mkField [NStr "x"] (VInt 1);
   mkField [NStr "x"] (VStr "a");
   mkField [NStr "x"] (VInt 2)].

Definition mixed_store : DB :=
  store_of (processCreateRequest mixed_fields empty_db).

(** [create(5, path=['l', 3])]: the facade puts the path in front of the
    names of the flattened value. *)
Definition gap_fields : list Field :=
  map (λ f, with_name f ([NStr "l"; NInt 3] ++ fname f))
    (Codec._flattenHierarchy (Codec.DScalar (Codec.SInt 5))).

Definition gap_store : DB :=
  store_of (processCreateRequest gap_fields empty_db).

(** Two elements appended to the list at [['l']] of that object. *)
Definition gap_insert_groups : list (list Field) :=
  [[mkField [NStr "l"; NWild] (VInt 7)];
   [mkField [NStr "l"; NWild] (VInt 8)]].


(** [create({})], then [modify(id, ['a', 'b'], 5)]. *)
Definition empty_object_store : DB :=
  store_of
    (processCreateRequest (Codec._flattenHierarchy (Codec.DMap [])) empty_db).

Definition scalar_below_store : DB :=
  state_of
    (processModifyRequest 1 (mkPath [NStr "a"; NStr "b"])
       (Codec._flattenHierarchy (Codec.DScalar (Codec.SInt 5))) false
       empty_object_store).

(** [create({'a': 'x'})] *)
Definition string_parent_store : DB :=
  store_of
    (processCreateRequest
       (Codec._flattenHierarchy
          (Codec.DMap [("a", Codec.DScalar (Codec.SStr "x"))]))
       empty_db).

(** [insert(1, ['a', None], 1)], as [_prepareRequest] hands it over: the
    names of the fields start with the path. *)
Definition insert_groups : list (list Field) :=
  [map (λ f, with_name f ([NStr "a"; NWild] ++ fname f))
     (Codec._flattenHierarchy (Codec.DScalar (Codec.SInt 1)))].

(** A document with an empty dictionary, a null and a nested list. *)
Definition nested_doc : Codec.doc :=
  Codec.DMap
    [("a", Codec.DList [Codec.DScalar Codec.SNone; Codec.DMap [];
                        Codec.DList [Codec.DScalar (Codec.SInt 1)]]);
     ("b", Codec.DScalar (Codec.SStr "x"))].

(** An engine for the scenarios: equality of strings and of integers, the
    order of integers; every other comparison is NULL. *)
Definition example_engine : EngineSql :=
  {| getRegexpOp := "REGEXP";
     columns_condition_sql := λ n,
       String.concat ""
         (imap (λ i c, match c with
                       | Some v => " AND c" +:+ pretty i +:+ "=" +:+ pretty v
                       | None => ""
                       end) (columns n));
     sql_compare := λ c v w,
       match v, w with
       | VStr a, VStr b =>
           match c with EQ => Some (bool_decide (a = b)) | _ => None end
       | VInt a, VInt b =>
           Some (match c with
                 | EQ => a =? b | LT => a <? b | GT => b <? a
                 | LTE => a <=? b | GTE => b <=? a | REGEXP => false
                 end)%Z
       | _, _ => None
       end |}.

(** Scenario 5 of the spec: [A = {phone: '1111'}], [B = {phone: '2222'}],
    [C = {name: 'x'}]. *)
Definition phones_store : DB :=
  store_of
    (processCreateRequest
       (Codec._flattenHierarchy
          (Codec.DMap [("name", Codec.DScalar (Codec.SStr "x"))]))
       (store_of
          (processCreateRequest
             (Codec._flattenHierarchy
                (Codec.DMap [("phone", Codec.DScalar (Codec.SStr "2222"))]))
             (store_of
                (processCreateRequest
                   (Codec._flattenHierarchy
                      (Codec.DMap
                         [("phone", Codec.DScalar (Codec.SStr "1111"))]))
                   empty_db))))).

Definition phone_is_1111 (invert : bool) : Condition :=
  Leaf (Some (with_type (mkPath [NStr "phone"]) TStr)) EQ
    (mkField [] (VStr "1111")) invert.

(** A store whose specification table counts a row of a table that does
    not exist. *)
Definition corrupt_store : DB :=
  {| id_table := [mkSpecRow 1 [Some "a"] TStr 1];
     field_tables := ∅;
     next_id := 1 |}.

(** The three objects of scenario 5 after the deletion of the first. *)
Definition phones_without_first : DB :=
  state_of (processDeleteRequest 1 None phones_store).

(** [NOT (phone == '1111' AND NOT (phone == '2222'))] *)
Definition not_first_phone : Condition :=
  Node (phone_is_1111 false) AND
    (Leaf (Some (with_type (mkPath [NStr "phone"]) TStr)) EQ
       (mkField [] (VStr "2222")) true)
    true.

(** A handler that raises has written nothing. *)
Definition nothing_written : Interrupted := λ _ s, s.

(** A connection to the store of scenario 5. *)
Definition phones_connection : Facade.Connection :=
  Facade.new_connection phones_store false.

(** The same connection in a synchronous transaction in which the first
    object has been deleted. *)
Definition phones_in_transaction : Facade.Connection :=
  {| Facade._engine :=
       {| Facade.e_store := phones_without_first;
          Facade.e_saved := Some phones_store |};
     Facade._transaction := true;
     Facade._sync := true;
     Facade._requests := [];
     Facade._remove_conflicts := false |}.

End Examples.

(** ** The field codec, slot by slot *)

Module Slots.

Import Codec.

(** The elements of a list flattened from index [i] on, as the inner loop
    of [flattenNode] does it. *)
Fixpoint flatten_elems (prefix : list name_elem) (elems : list doc) (i : Z)
  : list (list name_elem * value) :=
  match elems with
  | [] => []
  | x :: rest =>
      flattenNode x (prefix ++ [NInt i]) ++ flatten_elems prefix rest (i + 1)
  end.

(** What [_saveTo(obj, ptr, path, value)] makes of the place [obj[ptr]],
    given what it holds ([None] when it has just been created). *)
Definition save_slot (cur : doc) (path : list name_elem) (v : value)
  : result doc :=
  match path with
  | [] =>
      Ok (if (negb (is_list v) && negb (is_map v)) || is_none cur
          then py_value v else cur)
  | p0 :: rest =>
      _saveTo (if is_none cur
               then (if is_str p0 then DMap [] else DList [])
               else cur) p0 rest v
  end.

(** A list of (path, value) pairs saved into one place, in order. *)
Definition save_all (fields : list (list name_elem * value)) (cur : doc)
  : result doc :=
  foldM (λ f cur, save_slot cur f.1 f.2) fields cur.

(** Induction on documents, with the hypothesis on every child. *)
Fixpoint doc_induction (Q : doc → Prop)
  (Hscalar : ∀ v, Q (DScalar v))
  (Hmap : ∀ items, Forall (λ kv, Q kv.2) items → Q (DMap items))
  (Hlist : ∀ elems, Forall Q elems → Q (DList elems))
  (d : doc) {struct d} : Q d :=
  match d with
  | DScalar v => Hscalar v
  | DMap items =>
      Hmap items
        ((fix go (items : list (string * doc)) : Forall (λ kv, Q kv.2) items :=
            match items with
            | [] => @List.Forall_nil _ _
            | kv :: rest =>
                @List.Forall_cons _ _ kv rest
                  (doc_induction Q Hscalar Hmap Hlist kv.2) (go rest)
            end) items)
  | DList elems =>
      Hlist elems
        ((fix go (elems : list doc) : Forall Q elems :=
            match elems with
            | [] => @List.Forall_nil _ _
            | x :: rest =>
                @List.Forall_cons _ _ x rest
                  (doc_induction Q Hscalar Hmap Hlist x) (go rest)
            end) elems)
  end.

End Slots.

(** ** Predicates of the properties *)

(** The key of the per-field table a specification row stands for. *)
Definition spec_key (r : SpecRow) : list (option string) * type_tag :=
  (s_field r, s_type r).

(** [SELECT COUNT( * ) FROM rows WHERE id = ?] *)
Definition count_id (id : Z) (rows : list Row) : Z :=
  Z.of_nat (length (List.filter (λ r, r_id r =? id) rows)).

(** The rows of a table, none when the table does not exist. *)
Definition rows_of (k : list (option string) * type_tag) (s : DB) : list Row :=
  default [] (field_tables s !! k).

(** Refcount consistency: for every row [(id, field, type, r)] of the
    specification table, the per-field table of [(field, type)] exists and
    holds exactly [r] rows of [id]. *)
Definition refcount_consistent (s : DB) : Prop :=
  ∀ row, In row (id_table s) →
    ∃ rows, field_tables s !! spec_key row = Some rows
            ∧ count_id (s_id row) rows = s_refcount row.

(** Every reference counter counts the rows of its object in its table and
    is at least one. *)
Definition refcounts_exact (s : DB) : Prop :=
  ∀ row, In row (id_table s) →
    s_refcount row = count_id (s_id row) (rows_of (spec_key row) s)
    ∧ 1 ≤ s_refcount row.

(** Specification completeness: the rows of an object in a table have
    their specification row. *)
Definition spec_complete (s : DB) : Prop :=
  ∀ k id, 0 < count_id id (rows_of k s) →
    ∃ row, In row (id_table s) ∧ s_id row = id ∧ spec_key row = k.

(** The invariant of the store. *)
Definition store_ok (s : DB) : Prop := refcounts_exact s ∧ spec_complete s.

(** The specification rows of object [id] have their (field, type) in
    [Q]. *)
Definition keys_in (Q : list (option string) * type_tag → Prop) (id : Z)
  (s : DB) : Prop :=
  ∀ row, In row (id_table s) → s_id row = id → Q (spec_key row).

(** A columns condition that asks nothing. *)
Definition cond_trivial (cond : list (option Z)) : Prop :=
  Forall (λ c, c = None) cond.

(** A name whose indices are all wildcards. *)
Definition all_wild (n : list name_elem) : Prop :=
  Forall (λ e, is_int e = false) n.

(** The rows of a table in a list of tables. *)
Fixpoint assoc_rows (k : list (option string) * type_tag)
  (l : list ((list (option string) * type_tag) * list Row)) : list Row :=
  match l with
  | [] => []
  | (k', rows) :: l' => if bool_decide (k' = k) then rows else assoc_rows k l'
  end.

(** The counter of [(id, name, type)] in the dictionary [refcounters], zero
    when a level is missing. *)
Definition refs_get (obj_id : Z) (n : list (option string)) (t : type_tag)
  (refcounters : list (Z * list (list (option string) * list (type_tag * Z))))
  : Z :=
  match dict_get obj_id refcounters with
  | Some names =>
      match dict_get n names with
      | Some types => default 0 (dict_get t types)
      | None => 0
      end
  | None => 0
  end.

(** The dictionary has every key once, at every level, and counts from one
    on. *)
Definition refs_wf
  (refcounters : list (Z * list (list (option string) * list (type_tag * Z))))
  : Prop :=
  NoDup refcounters.*1
  ∧ Forall (λ e, NoDup e.2.*1
                 ∧ Forall (λ e', NoDup e'.2.*1
                                 ∧ Forall (λ c, 1 ≤ c.2) e'.2) e.2)
      refcounters.

(** The result raises nothing but engine faults. *)
Definition engine_only {A : Type} (r : result A) : Prop :=
  ∀ e, r = Err e → e = EngineError.


Definition spec_id_key (r : SpecRow) : Z * (list (option string) * type_tag) :=
  (s_id r, spec_key r).

Definition spec_unique (s : DB) : Prop :=
  NoDup (map spec_id_key (id_table s)).

Definition tables_nonempty (s : DB) : Prop :=
  ∀ k rows, field_tables s !! k = Some rows → rows ≠ [].

Definition table_lifecycle (s : DB) : Prop :=
  ∀ k, is_Some (field_tables s !! k)
       ↔ ∃ row, In row (id_table s) ∧ spec_key row = k.

(** What the store holds of object [id] is the same in [s] and [s']: its
    rows of the specification table and its rows of every table. *)
Definition same_object (id : Z) (s s' : DB) : Prop :=
  List.filter (λ r, s_id r =? id) (id_table s')
  = List.filter (λ r, s_id r =? id) (id_table s)
  ∧ ∀ k, List.filter (λ r, r_id r =? id) (rows_of k s')
         = List.filter (λ r, r_id r =? id) (rows_of k s).

(** The object a request writes to, if it writes to one object. *)
Definition written_object (request : Request) (s : DB) : option Z :=
  match request with
  | CreateRequest _ => Some (next_id s)
  | ModifyRequest id _ _ _ => Some id
  | InsertRequest id _ _ _ => Some id
  | DeleteRequest id _ => Some id
  | _ => None
  end.


(** The number of occurrences of a character in a string. *)
Fixpoint count_char (c : Ascii.ascii) (s : string) : nat :=
  match s with
  | EmptyString => 0
  | String c' s' =>
      (if bool_decide (c' = c) then 1 else 0) + count_char c s'
  end%nat.

(** The table slots [{}] and the value slots [?] of a statement. *)
Definition table_slots (q : string) : nat := count_char "{"%char q.
Definition value_slots (q : string) : nat := count_char "?"%char q.

(** A table given to a statement exists in the store. *)
Definition table_ref_exists (s : DB) (t : table_ref) : Prop :=
  match t with
  | IdTable => True
  | FieldTable k => Engine.tableExists k s = true
  end.

(** No node of the condition is inverted; a leaf may be. *)
Fixpoint inversion_at_leaves (condition : Condition) : Prop :=
  match condition with
  | Leaf _ _ _ _ => True
  | Node operand1 _ operand2 invert =>
      invert = false
      ∧ inversion_at_leaves operand1 ∧ inversion_at_leaves operand2
  end.

(** The truth value of a condition, given the truth value of every
    comparison. *)
Fixpoint condition_holds (truth : option Field → comparison → Field → bool)
  (condition : Condition) : bool :=
  match condition with
  | Leaf operand1 cmp operand2 invert =>
      xorb invert (truth operand1 cmp operand2)
  | Node operand1 oper operand2 invert =>
      xorb invert
        (match oper with
         | AND => condition_holds truth operand1
                  && condition_holds truth operand2
         | OR => condition_holds truth operand1
                 || condition_holds truth operand2
         end)
  end.

(** The value [_flattenHierarchy] gives to the root of a document. *)
Definition root_value (d : Codec.doc) : value :=
  match d with
  | Codec.DScalar v => Codec.value_of_scalar v
  | Codec.DMap _ => VMap
  | Codec.DList _ => VList
  end.

(** The container a name element is an entry of: a dictionary for a key,
    a list for an index. *)
Definition container_for (e : name_elem) : value :=
  if is_str e then VMap else VList.

(** A name without wildcard. *)
Definition determined (n : list name_elem) : Prop :=
  Forall (λ e, e ≠ NWild) n.




(** The requests handled one after the other on a store: the results and
    the store after the last one, or the error of the first that raises. *)
Fixpoint process_all {P : Predicates} {E : EngineSql}
  (requests : list Request) (s : DB) : result (list Response * DB) :=
  match requests with
  | [] => Ok ([], s)
  | request :: rest =>
      '(response, s1) ← processRequest request s;
      '(responses, s2) ← process_all rest s1;
      Ok (response :: responses, s2)
  end.

(** The store a connection works on. *)
Definition store_of_connection (c : Facade.Connection) : DB :=
  Facade.e_store (Facade._engine c).

(** The engine has a transaction open. *)
Definition engine_in_transaction (c : Facade.Connection) : Prop :=
  is_Some (Facade.e_saved (Facade._engine c)).

(** No transaction is in progress in the connection, and none was rolled
    back in synchronous mode. *)
Definition idle (c : Facade.Connection) : Prop :=
  Facade._transaction c = false ∧ Facade._sync c = false
  ∧ Facade._requests c = [] ∧ Facade.e_saved (Facade._engine c) = None.

(** A synchronous transaction is in progress, begun on the store [s0]. *)
Definition in_sync_transaction (s0 : DB) (c : Facade.Connection) : Prop :=
  Facade._transaction c = true ∧ Facade._sync c = true
  ∧ Facade._requests c = [] ∧ Facade.e_saved (Facade._engine c) = Some s0.

(** No transaction is in progress, but the connection is still in
    synchronous mode. *)
Definition stale_sync (c : Facade.Connection) : Prop :=
  Facade._transaction c = false ∧ Facade._sync c = true
  ∧ Facade._requests c = [] ∧ Facade.e_saved (Facade._engine c) = None.

(** The engine has a transaction open exactly during a synchronous
    transaction of the connection, and requests wait only during an
    asynchronous one. *)
Definition settled (c : Facade.Connection) : Prop :=
  (engine_in_transaction c
   ↔ Facade._transaction c = true ∧ Facade._sync c = true)
  ∧ (Facade._transaction c = false ∨ Facade._sync c = true →
     Facade._requests c = []).

(** A call of the user on a connection. *)
Inductive operation :=
| OpBegin (sync : bool)
| OpCommit
| OpRollback
| OpCall (queued : Facade.outcome Request).

Definition apply_operation {P : Predicates} {E : EngineSql} {I : Interrupted}
  (o : operation) (c : Facade.Connection) : Facade.Connection :=
  match o with
  | OpBegin sync => (Facade.begin sync c).1
  | OpCommit => (Facade.commit c).1
  | OpRollback => (Facade.rollback c).1
  | OpCall queued => (Facade._transacted queued c).1
  end.

(** The connection with another store, all the rest the same. *)
Definition with_store (s : DB) (c : Facade.Connection) : Facade.Connection :=
  Facade.set_engine
    {| Facade.e_store := s;
       Facade.e_saved := Facade.e_saved (Facade._engine c) |} c.

(** The connection on the store [s] with no transaction in progress, no
    request waiting and the flag [_sync] as given. *)
Definition closed_connection (s : DB) (sync : bool) (c : Facade.Connection)
  : Facade.Connection :=
  {| Facade._engine := {| Facade.e_store := s; Facade.e_saved := None |};
     Facade._transaction := false;
     Facade._sync := sync;
     Facade._requests := [];
     Facade._remove_conflicts := Facade._remove_conflicts c |}.

(** Splits a conjunction of evaluations into its parts. *)
Ltac split_all := repeat match goal with |- _ ∧ _ => split end.

(** * Properties *)

(** ** The error monad *)

Lemma bind_Ok {A B : Type} (m : result A) (k : A → result B) (b : B) :
  m ≫= k = Ok b ↔ ∃ a, m = Ok a ∧ k a = Ok b.
Proof.
  destruct m as [a|e]; simpl; split.
  - intros H. by exists a.
  - by intros (a' & [= ->] & H).
  - discriminate.
  - by intros (a' & ? & _).
Qed.

Lemma bind_Err {A B : Type} (m : result A) (k : A → result B) (e : error) :
  m ≫= k = Err e ↔ m = Err e ∨ ∃ a, m = Ok a ∧ k a = Err e.
Proof.
  destruct m as [a|e']; simpl; split.
  - intros H. right. by exists a.
  - intros [?|(a' & [= ->] & H)]; done.
  - intros [= ->]. by left.
  - intros [[= ->]|(a' & ? & _)]; done.
Qed.

(** A loop raises an error only if its body does. *)
Lemma foldM_Err {A S : Type} (body : A → S → result S) (e : error)
  (l : list A) (s : S) :
  foldM body l s = Err e → ∃ x s', In x l ∧ body x s' = Err e.
Proof.
  revert s. induction l as [|x l IH]; intros s; simpl; [done|].
  intros [H|(s' & _ & H)]%bind_Err.
  - exists x, s. split; [apply in_eq | done].
  - destruct (IH _ H) as (y & s'' & Hy & He).
    exists y, s''. split; [by apply in_cons | done].
Qed.

(** A loop preserves what its body preserves. *)
Lemma foldM_preserves {A S : Type} (body : A → S → result S) (I : S → Prop)
  (l : list A) :
  (∀ x s s', In x l → I s → body x s = Ok s' → I s') →
  ∀ s s', I s → foldM body l s = Ok s' → I s'.
Proof.
  induction l as [|x l IH]; intros Hbody s s' HI; simpl.
  - by intros [= <-].
  - intros (s1 & H1 & H2)%bind_Ok.
    eapply IH; [| |exact H2].
    + intros y t t' Hy. apply Hbody. by apply in_cons.
    + eapply Hbody; [apply in_eq | exact HI | exact H1].
Qed.

(** ** Which errors the structure layer can raise *)

Lemma engine_only_Ok {A : Type} (a : A) : engine_only (Ok a).
Proof. intros e. discriminate. Qed.

Lemma engine_only_Err {A : Type} : engine_only (@Err A EngineError).
Proof. by intros e [= <-]. Qed.

Lemma engine_only_bind {A B : Type} (m : result A) (k : A → result B) :
  engine_only m → (∀ a, m = Ok a → engine_only (k a)) → engine_only (m ≫= k).
Proof.
  intros Hm Hk e [H|(a & Ha & H)]%bind_Err.
  - by apply Hm.
  - by apply (Hk a Ha).
Qed.

Lemma engine_only_foldM {A S : Type} (body : A → S → result S)
  (l : list A) (s : S) :
  (∀ x s, In x l → engine_only (body x s)) → engine_only (foldM body l s).
Proof.
  intros Hbody e (x & s' & Hx & He)%foldM_Err. by apply (Hbody x s' Hx).
Qed.

Lemma engine_only_mapM {A B : Type} (f : A → result B) (l : list A) :
  (∀ x, In x l → engine_only (f x)) → engine_only (mapM f l).
Proof.
  induction l as [|x l IH]; intros Hf; simpl; [apply engine_only_Ok|].
  apply engine_only_bind; [apply Hf, in_eq|]. intros y _.
  apply engine_only_bind.
  - apply IH. intros z Hz. by apply Hf, in_cons.
  - intros ys _. apply engine_only_Ok.
Qed.

Lemma engine_only_tableRows k s : engine_only (Engine.tableRows k s).
Proof.
  unfold Engine.tableRows. destruct (field_tables s !! k);
    [apply engine_only_Ok | apply engine_only_Err].
Qed.

Lemma engine_only_tableIsEmpty k s : engine_only (Engine.tableIsEmpty k s).
Proof.
  apply engine_only_bind; [apply engine_only_tableRows|].
  intros rows _. apply engine_only_Ok.
Qed.

Lemma engine_only_decreaseRefcount id field num s :
  engine_only (decreaseRefcount id field num s).
Proof.
  unfold decreaseRefcount.
  destruct (map s_refcount _) as [|r l]; [apply engine_only_Err|].
  destruct (r =? num); apply engine_only_Ok.
Qed.

Lemma engine_only_deleteValues id field condition s :
  engine_only (deleteValues id field condition s).
Proof.
  apply engine_only_foldM. intros t s' _.
  apply engine_only_bind; [apply engine_only_tableRows|]. intros rows _.
  simpl. case_match; [|apply engine_only_Ok].
  apply engine_only_bind; [apply engine_only_decreaseRefcount|]. intros s1 _.
  apply engine_only_bind; [apply engine_only_tableIsEmpty|]. intros b _.
  apply engine_only_Ok.
Qed.

Lemma engine_only_addValueRecord id field s :
  engine_only (addValueRecord id field s).
Proof.
  apply engine_only_bind; [apply engine_only_tableRows|].
  intros rows _. apply engine_only_Ok.
Qed.

Section ErrorsOfLogic.

Context {P : Predicates}.

Lemma engine_only_setFieldValue id field s :
  engine_only (_setFieldValue id field s).
Proof. apply engine_only_addValueRecord. Qed.

Lemma engine_only_storeFields id path fields s :
  engine_only (_storeFields id path fields s).
Proof.
  apply engine_only_foldM. intros f s' _. apply engine_only_setFieldValue.
Qed.

End ErrorsOfLogic.

(** ** A modification at the root *)

Section RootModify.

Context {P : Predicates}.

Lemma engine_only_delete_loop id cond fields s :
  engine_only
    (foldM (λ field s, deleteValues id field cond s) fields s).
Proof.
  apply engine_only_foldM. intros f s' _. apply engine_only_deleteValues.
Qed.

(** C10: whatever the object id, and also when the object has no row in the
    specification table, [objectHasField] answers [True] for the root path;
    so a modification at the root is the deletion of the stored subtree
    followed by the storing of the payload, never the check for conflicts:
    it does not depend on [remove_conflicts] and never raises
    [StructureError]. *)
Theorem root_modify_deletes_without_conflict_check
  (id : Z) (t : type_tag) (v : value) (fields : list Field)
  (remove_conflicts : bool) (s : DB) :
  let path := {| fname := []; ftype := t; fvalue := v |} in
  objectHasField id path s = Ok true
  ∧ _modifyFields id path fields remove_conflicts s =
      (s1 ← foldM (λ field s, deleteValues id field (Some []) s)
              (getFieldsList id (Some path) false s) s;
       _storeFields id path fields s1)
  ∧ _modifyFields id path fields remove_conflicts s ≠ Err StructureError.
Proof.
  intros path.
  assert (Hhas : objectHasField id path s = Ok true) by reflexivity.
  assert (Heq : _modifyFields id path fields remove_conflicts s =
      (s1 ← foldM (λ field s, deleteValues id field (Some []) s)
              (getFieldsList id (Some path) false s) s;
       _storeFields id path fields s1)).
  { unfold _modifyFields. rewrite Hhas. reflexivity. }
  split; [exact Hhas|]. split; [exact Heq|].
  rewrite Heq. intros Hs.
  assert (Heo : engine_only
            (s1 ← foldM (λ field s, deleteValues id field (Some []) s)
                    (getFieldsList id (Some path) false s) s;
             _storeFields id path fields s1)).
  { apply engine_only_bind; [apply engine_only_delete_loop|].
    intros s1 _. apply engine_only_storeFields. }
  specialize (Heo _ Hs). discriminate.
Qed.

End RootModify.

(** ** Reading *)

Section Read.

Context {P : Predicates}.

Lemma engine_only_getFieldsInfo id masks s :
  engine_only (getFieldsInfo id masks s).
Proof.
  apply engine_only_bind.
  - unfold getRawFieldsInfo. destruct masks as [[|m ms]|];
      [apply engine_only_Err | apply engine_only_Ok | apply engine_only_Ok].
  - intros raw _. apply engine_only_Ok.
Qed.









End Read.

(** ** Searching *)

Lemma In_filter_distinct {A : Type} `{EqDecision A} (f : A → bool)
  (l : list A) (x : A) :
  In x (List.filter f l) ↔ In x l ∧ f x = true.
Proof. apply filter_In. Qed.

Lemma In_distinct {A : Type} `{EqDecision A} (l : list A) (x : A) :
  In x (distinct l) ↔ In x l.
Proof.
  induction l as [|y l IH]; simpl; [done|].
  rewrite filter_In, IH. split.
  - intros [->|[H _]]; [by left | by right].
  - intros [->|H]; [by left|].
    destruct (decide (x = y)) as [->|Hne]; [by left|].
    right. split; [done|]. cbn beta. by rewrite bool_decide_eq_false_2.
Qed.


Section SearchProperties.

Context {E : EngineSql}.

Local Open Scope string_scope.
Local Open Scope list_scope.



End SearchProperties.

(** ** The round trip of the field codec *)

Section RoundTrip.

Import Codec Slots.

Lemma flattenNode_DMap items prefix :
  flattenNode (DMap items) prefix =
  (prefix, VMap)
  :: flat_map (λ kv, flattenNode kv.2 (prefix ++ [NStr kv.1])) items.
Proof.
  simpl. f_equal.
  induction items as [|[x child] items IH]; [done|].
  simpl. by rewrite IH.
Qed.

Lemma flattenNode_DList elems prefix :
  flattenNode (DList elems) prefix =
  (prefix, VList) :: flatten_elems prefix elems 0.
Proof.
  simpl. f_equal. generalize 0.
  induction elems as [|x elems IH]; intros i; [done|].
  simpl. by rewrite IH.
Qed.

Lemma keys_unique_DMap items :
  keys_unique (DMap items)
  ↔ NoDup (map fst items) ∧ Forall (λ kv, keys_unique kv.2) items.
Proof.
  simpl. apply and_iff_compat_l.
  induction items as [|[x child] items IH]; simpl.
  - split; [constructor | done].
  - rewrite IH. split.
    + intros [H1 H2]. by constructor.
    + intros H. by inversion H.
Qed.

Lemma keys_unique_DList elems :
  keys_unique (DList elems) ↔ Forall keys_unique elems.
Proof.
  simpl. induction elems as [|x elems IH]; simpl.
  - split; [constructor | done].
  - rewrite IH. split.
    + intros [H1 H2]. by constructor.
    + intros H. by inversion H.
Qed.

(** Flattening under a prefix puts the prefix in front of every path. *)
Lemma flattenNode_prefix d : ∀ p q,
  flattenNode d (p ++ q) = map (λ f, (p ++ f.1, f.2)) (flattenNode d q).
Proof.
  induction d as [v|items IH|elems IH] using doc_induction; intros p q.
  - done.
  - rewrite !flattenNode_DMap. simpl. f_equal.
    induction IH as [|[x child] items Hc _ IHitems]; [done|].
    simpl. rewrite map_app, <- IHitems. f_equal.
    rewrite <- app_assoc. apply Hc.
  - rewrite !flattenNode_DList. simpl. f_equal. generalize 0.
    induction IH as [|x elems Hc _ IHelems]; intros i; [done|].
    simpl. rewrite map_app, <- IHelems. f_equal.
    rewrite <- app_assoc. apply Hc.
Qed.

Lemma flattenNode_under e d :
  flattenNode d [e] = map (λ f, (e :: f.1, f.2)) (flattenNode d []).
Proof. apply (flattenNode_prefix d [e] []). Qed.

Lemma flattenNode_nonempty d prefix : flattenNode d prefix ≠ [].
Proof. by destruct d. Qed.

Lemma save_all_app fs gs cur :
  save_all (fs ++ gs) cur = save_all fs cur ≫= save_all gs.
Proof.
  unfold save_all. revert cur.
  induction fs as [|f fs IH]; intros cur; simpl; [done|].
  destruct (save_slot cur f.1 f.2) as [c|e]; simpl; [apply IH | done].
Qed.

(** *** Dictionaries *)

Lemma items_get_set k x items : items_get k (items_set k x items) = Some x.
Proof.
  induction items as [|[k' v] items IH]; simpl.
  - by rewrite bool_decide_eq_true_2.
  - destruct (decide (k' = k)) as [->|Hne].
    + rewrite bool_decide_eq_true_2 by done. simpl.
      by rewrite bool_decide_eq_true_2.
    + rewrite bool_decide_eq_false_2 by done. simpl.
      by rewrite bool_decide_eq_false_2.
Qed.

Lemma items_set_set k x y items :
  items_set k y (items_set k x items) = items_set k y items.
Proof.
  induction items as [|[k' v] items IH]; simpl.
  - by rewrite bool_decide_eq_true_2.
  - destruct (decide (k' = k)) as [->|Hne].
    + rewrite bool_decide_eq_true_2 by done. simpl.
      by rewrite bool_decide_eq_true_2.
    + rewrite bool_decide_eq_false_2 by done. simpl.
      rewrite bool_decide_eq_false_2 by done. by rewrite IH.
Qed.

Lemma items_set_same k x items :
  items_get k items = Some x → items_set k x items = items.
Proof.
  induction items as [|[k' v] items IH]; simpl; [done|].
  destruct (decide (k' = k)) as [->|Hne].
  - rewrite bool_decide_eq_true_2 by done. by intros [= ->].
  - rewrite bool_decide_eq_false_2 by done. intros H. by rewrite IH.
Qed.

Lemma items_get_None k items :
  items_get k items = None ↔ ¬ In k (map fst items).
Proof.
  induction items as [|[k' v] items IH]; simpl; [tauto|].
  destruct (decide (k' = k)) as [->|Hne].
  - rewrite bool_decide_eq_true_2 by done. split; [done|]. intros H.
    destruct H. by left.
  - rewrite bool_decide_eq_false_2 by done. rewrite IH. tauto.
Qed.

Lemma items_set_new k x items :
  items_get k items = None → items_set k x items = items ++ [(k, x)].
Proof.
  induction items as [|[k' v] items IH]; simpl; [done|].
  destruct (decide (k' = k)) as [->|Hne].
  - by rewrite bool_decide_eq_true_2.
  - rewrite bool_decide_eq_false_2 by done. intros H. by rewrite IH.
Qed.

(** Saving below a key of a dictionary saves into the place of the key. *)
Lemma saveTo_DMap items k path v :
  _saveTo (DMap items) (NStr k) path v =
  save_slot (default (DScalar SNone) (items_get k items)) path v
  ≫= λ c, Ok (DMap (items_set k c items)).
Proof.
  destruct (items_get k items) as [cur|] eqn:Hget.
  - destruct path as [|p0 rest]; simpl; rewrite Hget; simpl; rewrite Hget; simpl.
    + destruct (_ || _); [done|]. by rewrite items_set_same.
    + destruct (is_none cur) eqn:Hn; simpl.
      * rewrite items_get_set. simpl.
        destruct (_saveTo _ p0 rest v); simpl; [|done].
        by rewrite items_set_set.
      * rewrite Hget. simpl. done.
  - destruct path as [|p0 rest]; simpl; rewrite Hget; simpl;
      rewrite items_get_set; simpl.
    + rewrite orb_true_r. by rewrite items_set_set.
    + rewrite items_get_set. simpl.
      destruct (_saveTo _ p0 rest v); simpl; [|done].
      by rewrite !items_set_set.
Qed.

(** The fields of one child, saved into a dictionary that has the key. *)
Lemma save_all_under_key k fs : ∀ items cur,
  items_get k items = Some cur →
  save_all (map (λ f, (NStr k :: f.1, f.2)) fs) (DMap items) =
  save_all fs cur ≫= λ c, Ok (DMap (items_set k c items)).
Proof.
  induction fs as [|f fs IH]; intros items cur Hget.
  - simpl. by rewrite items_set_same.
  - unfold save_all. simpl. fold (save_all fs).
    fold (save_all (map (λ f, (NStr k :: f.1, f.2)) fs)).
    rewrite saveTo_DMap, Hget. simpl.
    destruct (save_slot cur f.1 f.2) as [c|e]; simpl; [|done].
    rewrite (IH _ c) by apply items_get_set.
    destruct (save_all fs c); simpl; [|done]. by rewrite items_set_set.
Qed.

(** The fields of one child, saved into a dictionary without the key. *)
Lemma save_all_new_key k fs items :
  fs ≠ [] →
  items_get k items = None →
  save_all (map (λ f, (NStr k :: f.1, f.2)) fs) (DMap items) =
  save_all fs (DScalar SNone) ≫= λ c, Ok (DMap (items ++ [(k, c)])).
Proof.
  destruct fs as [|f fs]; [done|]. intros _ Hget.
  unfold save_all. simpl. fold (save_all fs).
  fold (save_all (map (λ f, (NStr k :: f.1, f.2)) fs)).
  rewrite saveTo_DMap, Hget. simpl.
  destruct (save_slot (DScalar SNone) f.1 f.2) as [c|e]; simpl; [|done].
  rewrite (save_all_under_key k fs _ c) by apply items_get_set.
  destruct (save_all fs c); simpl; [|done].
  by rewrite items_set_set, items_set_new.
Qed.

(** *** Lists *)

Lemma saveTo_unfold obj ptr path v :
  _saveTo obj ptr path v =
  ensure_place obj ptr ≫= λ obj1,
    match path with
    | [] =>
        get_item obj1 ptr ≫= λ cur,
          if (negb (is_list v) && negb (is_map v)) || is_none cur
          then set_item obj1 ptr (py_value v)
          else Ok obj1
    | p0 :: rest =>
        get_item obj1 ptr ≫= λ cur,
          (if is_none cur
           then set_item obj1 ptr (if is_str p0 then DMap [] else DList [])
           else Ok obj1) ≫= λ obj2,
            get_item obj2 ptr ≫= λ child,
              _saveTo child p0 rest v ≫= λ child', set_item obj2 ptr child'
    end.
Proof. by destruct path. Qed.

Lemma list_index_last (n : nat) :
  list_index (S n) (Z.of_nat n) = Some n.
Proof.
  unfold list_index.
  rewrite (proj2 (Z.leb_le _ _)) by lia.
  rewrite (proj2 (Z.ltb_lt _ _)) by lia.
  by rewrite Nat2Z.id.
Qed.

Lemma ensure_place_new acc :
  ensure_place (DList acc) (NInt (Z.of_nat (length acc))) =
  Ok (DList (acc ++ [DScalar SNone])).
Proof.
  unfold ensure_place.
  rewrite (proj2 (Z.ltb_lt _ _)) by lia.
  replace (Z.to_nat _) with 1%nat by lia. done.
Qed.

Lemma ensure_place_last acc cur :
  ensure_place (DList (acc ++ [cur])) (NInt (Z.of_nat (length acc))) =
  Ok (DList (acc ++ [cur])).
Proof.
  unfold ensure_place.
  rewrite (proj2 (Z.ltb_ge _ _)); [done|].
  rewrite length_app. simpl. lia.
Qed.

Lemma get_item_last acc cur :
  get_item (DList (acc ++ [cur])) (NInt (Z.of_nat (length acc))) = Ok cur.
Proof.
  unfold get_item. rewrite length_app. simpl.
  replace (length acc + 1)%nat with (S (length acc)) by lia.
  rewrite list_index_last.
  by rewrite lookup_app_r, Nat.sub_diag.
Qed.

Lemma set_item_last acc cur x :
  set_item (DList (acc ++ [cur])) (NInt (Z.of_nat (length acc))) x =
  Ok (DList (acc ++ [x])).
Proof.
  unfold set_item. rewrite length_app. simpl.
  replace (length acc + 1)%nat with (S (length acc)) by lia.
  rewrite list_index_last.
  rewrite insert_app_r_alt by done. by rewrite Nat.sub_diag.
Qed.

(** Saving below the last index of a list saves into the last place. *)
Lemma saveTo_DList_last acc cur path v :
  _saveTo (DList (acc ++ [cur])) (NInt (Z.of_nat (length acc))) path v =
  save_slot cur path v ≫= λ c, Ok (DList (acc ++ [c])).
Proof.
  rewrite saveTo_unfold, ensure_place_last.
  destruct path as [|p0 rest]; cbv [mbind result_bind save_slot];
    rewrite get_item_last.
  - destruct (_ || _); [apply set_item_last | done].
  - destruct (is_none cur).
    + rewrite set_item_last, get_item_last.
      destruct (_saveTo _ p0 rest v); [apply set_item_last | done].
    + rewrite get_item_last.
      destruct (_saveTo _ p0 rest v); [apply set_item_last | done].
Qed.

(** Saving below the index after the last creates the place. *)
Lemma saveTo_DList_new acc path v :
  _saveTo (DList acc) (NInt (Z.of_nat (length acc))) path v =
  save_slot (DScalar SNone) path v ≫= λ c, Ok (DList (acc ++ [c])).
Proof.
  rewrite <- saveTo_DList_last.
  rewrite !saveTo_unfold, ensure_place_new, ensure_place_last. done.
Qed.

Lemma save_all_under_last fs : ∀ acc cur,
  save_all (map (λ f, (NInt (Z.of_nat (length acc)) :: f.1, f.2)) fs)
    (DList (acc ++ [cur])) =
  save_all fs cur ≫= λ c, Ok (DList (acc ++ [c])).
Proof.
  induction fs as [|f fs IH]; intros acc cur; [done|].
  unfold save_all. simpl. fold (save_all fs).
  fold (save_all
          (map (λ f, (NInt (Z.of_nat (length acc)) :: f.1, f.2)) fs)).
  rewrite saveTo_DList_last.
  destruct (save_slot cur f.1 f.2) as [c|e]; simpl; [|done].
  apply IH.
Qed.

Lemma save_all_new_index fs acc :
  fs ≠ [] →
  save_all (map (λ f, (NInt (Z.of_nat (length acc)) :: f.1, f.2)) fs)
    (DList acc) =
  save_all fs (DScalar SNone) ≫= λ c, Ok (DList (acc ++ [c])).
Proof.
  destruct fs as [|f fs]; [done|]. intros _.
  unfold save_all. simpl. fold (save_all fs).
  fold (save_all
          (map (λ f, (NInt (Z.of_nat (length acc)) :: f.1, f.2)) fs)).
  rewrite saveTo_DList_new.
  destruct (save_slot (DScalar SNone) f.1 f.2) as [c|e]; simpl; [|done].
  apply save_all_under_last.
Qed.

Lemma py_value_of_scalar v : py_value (value_of_scalar v) = DScalar v.
Proof. by destruct v. Qed.

Lemma value_of_scalar_plain v :
  negb (is_list (value_of_scalar v)) && negb (is_map (value_of_scalar v))
  = true.
Proof. by destruct v. Qed.

(** The fields of a document, saved into an empty place, give the
    document. *)
Lemma save_all_flatten d :
  keys_unique d → save_all (flattenNode d []) (DScalar SNone) = Ok d.
Proof.
  induction d as [v|items IH|elems IH] using doc_induction.
  - intros _. unfold save_all. simpl.
    by rewrite value_of_scalar_plain, py_value_of_scalar.
  - intros [Hnd Hwf]%keys_unique_DMap.
    rewrite flattenNode_DMap.
    assert (Hgen : ∀ acc,
              NoDup (map fst (acc ++ items)) →
              save_all
                (flat_map (λ kv, flattenNode kv.2 ([] ++ [NStr kv.1])) items)
                (DMap acc) = Ok (DMap (acc ++ items))).
    { clear Hnd.
      induction IH as [|[x child] items Hc _ IHitems]; intros acc Hnd.
      - by rewrite app_nil_r.
      - simpl in *. rewrite save_all_app, flattenNode_under.
        inversion Hwf as [|? ? Hwc Hwr]; subst. simpl in Hwc.
        assert (Heq : (acc ++ [(x, child)]) ++ items
                      = acc ++ (x, child) :: items)
          by (by rewrite <- app_assoc).
        rewrite save_all_new_key.
        + rewrite (Hc Hwc). simpl.
          rewrite (IHitems Hwr (acc ++ [(x, child)])); by rewrite Heq.
        + pose proof (flattenNode_nonempty child []).
          by destruct (flattenNode child []).
        + apply items_get_None. rewrite map_app in Hnd.
          apply NoDup_app in Hnd as (_ & Hd & _).
          intros Hin. apply (Hd x); [by apply list_elem_of_In|].
          simpl. apply list_elem_of_here. }
    apply (Hgen []). exact Hnd.
  - intros Hwf%keys_unique_DList.
    rewrite flattenNode_DList.
    assert (Hgen : ∀ acc,
              save_all (flatten_elems [] elems (Z.of_nat (length acc)))
                (DList acc) = Ok (DList (acc ++ elems))).
    { induction IH as [|x elems Hc _ IHelems]; intros acc.
      - by rewrite app_nil_r.
      - simpl. rewrite save_all_app, flattenNode_under.
        inversion Hwf as [|? ? Hwc Hwr]; subst.
        rewrite save_all_new_index.
        + rewrite (Hc Hwc). simpl.
          replace (Z.of_nat (length acc) + 1)
            with (Z.of_nat (length (acc ++ [x])))
            by (rewrite length_app; simpl; lia).
          rewrite (IHelems Hwr (acc ++ [x])).
          by rewrite <- app_assoc.
        + pose proof (flattenNode_nonempty x []).
          by destruct (flattenNode x []). }
    apply (Hgen []).
Qed.

(** The loop of [_fieldsToTree] on the temporary root [res]. *)
Lemma fieldsToTree_loop_last fs : ∀ cur,
  foldM (λ field res, _saveTo res (NInt 0) (fname field) (fvalue field))
    (map (λ '(path, v), mkField path v) fs) (DList [cur]) =
  save_all fs cur ≫= λ c, Ok (DList [c]).
Proof.
  induction fs as [|[p v] fs IH]; intros cur; [done|].
  unfold save_all. simpl. fold (save_all fs).
  pose proof (saveTo_DList_last [] cur p v) as Hs.
  change (Z.of_nat (length [])) with 0 in Hs.
  cbn [app] in Hs. rewrite Hs.
  destruct (save_slot cur p v) as [c|e]; simpl; [apply IH | done].
Qed.

Lemma fieldsToTree_loop fs :
  fs ≠ [] →
  foldM (λ field res, _saveTo res (NInt 0) (fname field) (fvalue field))
    (map (λ '(path, v), mkField path v) fs) (DList []) =
  save_all fs (DScalar SNone) ≫= λ c, Ok (DList [c]).
Proof.
  destruct fs as [|[p v] fs]; [done|]. intros _.
  unfold save_all. simpl. fold (save_all fs).
  pose proof (saveTo_DList_new [] p v) as Hs.
  change (Z.of_nat (length [])) with 0 in Hs.
  cbn [app] in Hs. rewrite Hs.
  destruct (save_slot (DScalar SNone) p v) as [c|e]; simpl; [|done].
  apply fieldsToTree_loop_last.
Qed.

(** C2: for every document (nested dictionaries with string keys, lists
    and scalars, empty dictionaries and empty lists included), the tree
    built from the flattened fields is the document. *)
Theorem flatten_then_build (d : doc) :
  keys_unique d → _fieldsToTree (_flattenHierarchy d) = Ok d.
Proof.
  intros Hwf. unfold _fieldsToTree, _flattenHierarchy.
  assert (Hlen : (length (map (λ '(path, v), mkField path v)
                            (flattenNode d [])) =? 0)%nat = false).
  { rewrite length_map. pose proof (flattenNode_nonempty d []).
    by destruct (flattenNode d []). }
  rewrite Hlen, fieldsToTree_loop by apply flattenNode_nonempty.
  rewrite (save_all_flatten d Hwf). simpl.
  apply (get_item_last []).
Qed.

Lemma flatten_then_build_witness :
  keys_unique Examples.nested_doc
  ∧ _fieldsToTree (_flattenHierarchy Examples.nested_doc)
    = Ok Examples.nested_doc.
Proof.
  assert (H : keys_unique Examples.nested_doc).
  { simpl.
    repeat match goal with
           | |- _ ∧ _ => split
           | |- True => exact I
           | |- NoDup _ => apply (bool_decide_unpack _); vm_compute; exact I
           end. }
  split; [exact H|]. exact (flatten_then_build Examples.nested_doc H).
Defined.

End RoundTrip.

(** ** Refcount consistency *)

Section Counting.

Lemma spec_sel_t_true id n t row :
  spec_sel_t id n t row = true ↔ s_id row = id ∧ spec_key row = (n, t).
Proof.
  unfold spec_sel_t, spec_sel, spec_key.
  rewrite !andb_true_iff, Z.eqb_eq, !bool_decide_eq_true.
  split.
  - intros [[-> ->] ->]. done.
  - intros [-> [= -> ->]]. done.
Qed.

Lemma spec_sel_t_false id n t row :
  spec_sel_t id n t row = false ↔ ¬ (s_id row = id ∧ spec_key row = (n, t)).
Proof.
  rewrite <- spec_sel_t_true. by destruct (spec_sel_t id n t row).
Qed.

Lemma spec_sel_true id n row :
  spec_sel id n row = true ↔ s_id row = id ∧ s_field row = n.
Proof.
  unfold spec_sel. by rewrite andb_true_iff, Z.eqb_eq, bool_decide_eq_true.
Qed.

Lemma count_id_nonneg id rows : 0 ≤ count_id id rows.
Proof. unfold count_id. lia. Qed.

Lemma count_id_app id a b :
  count_id id (a ++ b) = count_id id a + count_id id b.
Proof. unfold count_id. rewrite List.filter_app, length_app. lia. Qed.

Lemma count_id_one id id' v c :
  count_id id' [mkRow id v c] = if bool_decide (id = id') then 1 else 0.
Proof.
  unfold count_id. simpl. destruct (decide (id = id')) as [->|Hne].
  - by rewrite Z.eqb_refl, bool_decide_eq_true_2.
  - rewrite (proj2 (Z.eqb_neq _ _)) by done.
    by rewrite bool_decide_eq_false_2.
Qed.

Lemma count_id_map id (f : Row → Row) rows :
  (∀ r, r_id (f r) = r_id r) → count_id id (map f rows) = count_id id rows.
Proof.
  intros Hf. unfold count_id. f_equal.
  induction rows as [|r rows IH]; simpl; [done|].
  rewrite Hf. destruct (r_id r =? id); simpl; by rewrite IH.
Qed.

(** The rows a deletion selects are rows of the object. *)
Lemma count_id_delete id cond rows :
  count_id id (List.filter (λ r, negb (row_sel id cond r)) rows)
  = count_id id rows
    - Z.of_nat (length (List.filter (row_sel id cond) rows)).
Proof.
  unfold count_id, row_sel.
  induction rows as [|r rows IH]; simpl; [done|].
  destruct (r_id r =? id) eqn:Hid; simpl.
  - destruct (cond_holds cond (r_cols r)); simpl; [|rewrite Hid; simpl]; lia.
  - rewrite Hid. lia.
Qed.

Lemma count_id_delete_other id id' cond rows :
  id' ≠ id →
  count_id id' (List.filter (λ r, negb (row_sel id cond r)) rows)
  = count_id id' rows.
Proof.
  intros Hne. unfold count_id, row_sel. f_equal.
  induction rows as [|r rows IH]; simpl; [done|].
  destruct (r_id r =? id) eqn:Hid; simpl.
  - apply Z.eqb_eq in Hid.
    assert (Hf : (r_id r =? id') = false) by (apply Z.eqb_neq; congruence).
    destruct (cond_holds cond (r_cols r)); simpl; rewrite ?Hf; done.
  - destruct (r_id r =? id'); simpl; by rewrite IH.
Qed.

Lemma cond_trivial_holds cond cols :
  cond_trivial cond → cond_holds cond cols = true.
Proof.
  intros H. revert cols. induction H as [|c cond -> _ IH]; intros cols; [done|].
  simpl. apply IH.
Qed.

Lemma count_selected_trivial id cond rows :
  cond_trivial cond →
  Z.of_nat (length (List.filter (row_sel id cond) rows)) = count_id id rows.
Proof.
  intros H. unfold count_id, row_sel. do 2 f_equal.
  apply List.filter_ext. intros r. rewrite cond_trivial_holds by done.
  apply andb_true_r.
Qed.

Lemma count_selected_le id cond rows :
  Z.of_nat (length (List.filter (row_sel id cond) rows)) ≤ count_id id rows.
Proof.
  pose proof (count_id_delete id cond rows) as H.
  pose proof (count_id_nonneg id
                (List.filter (λ r, negb (row_sel id cond r)) rows)). lia.
Qed.

(** *** The rows of the tables after a step of the engine *)

Lemma rows_of_set_id_table k rows s :
  rows_of k (set_id_table rows s) = rows_of k s.
Proof. done. Qed.

Lemma rows_of_setTableRows k k' rows s :
  rows_of k' (Engine.setTableRows k rows s)
  = if decide (k = k') then rows else rows_of k' s.
Proof.
  unfold rows_of, Engine.setTableRows. simpl.
  rewrite lookup_insert. by destruct (decide (k = k')).
Qed.

Lemma rows_of_deleteTable k k' s :
  rows_of k' (Engine.deleteTable k s)
  = if decide (k = k') then [] else rows_of k' s.
Proof.
  unfold rows_of, Engine.deleteTable. simpl.
  rewrite lookup_delete. by destruct (decide (k = k')).
Qed.

Lemma rows_of_tableRows k s rows :
  Engine.tableRows k s = Ok rows → rows_of k s = rows.
Proof.
  unfold Engine.tableRows, rows_of.
  destruct (field_tables s !! k); [by intros [= ->] | done].
Qed.

Lemma rows_of_assure field k s :
  rows_of k (assureFieldTableExists field s) = rows_of k s.
Proof.
  unfold assureFieldTableExists, Engine.tableExists, Engine.createTable.
  destruct (bool_decide _) eqn:Hex; simpl; [done|].
  apply bool_decide_eq_false in Hex.
  unfold rows_of. simpl. rewrite lookup_insert.
  destruct (decide (name_str field = k)) as [<-|]; [|done].
  destruct (field_tables s !! name_str field) eqn:E; [|done].
  destruct Hex. by eexists.
Qed.

Lemma tableRows_assure field s :
  Engine.tableRows (name_str field) (assureFieldTableExists field s)
  = Ok (rows_of (name_str field) s).
Proof.
  unfold assureFieldTableExists, Engine.tableExists, Engine.createTable,
    Engine.tableRows, rows_of.
  destruct (field_tables s !! name_str field) eqn:E.
  - rewrite bool_decide_eq_true_2 by (by eexists). simpl. by rewrite E.
  - rewrite bool_decide_eq_false_2 by (by intros [? ?]). simpl.
    by rewrite lookup_insert_eq.
Qed.

(** A table with a row of the store does exist. *)
Lemma rows_of_positive k id s :
  0 < count_id id (rows_of k s) →
  ∃ rows, field_tables s !! k = Some rows ∧ rows_of k s = rows.
Proof.
  unfold rows_of. destruct (field_tables s !! k) as [rows|]; simpl.
  - intros _. by exists rows.
  - unfold count_id. simpl. lia.
Qed.

Lemma store_ok_consistent s : store_ok s → refcount_consistent s.
Proof.
  intros [Hex _] row Hin. destruct (Hex row Hin) as [Heq Hpos].
  destruct (rows_of_positive (spec_key row) (s_id row) s) as (rows & Hl & Hr);
    [lia|].
  exists rows. split; [done|]. by rewrite <- Hr.
Qed.

Lemma store_ok_empty : store_ok empty_db.
Proof.
  split.
  - intros row [].
  - intros k id. unfold rows_of, count_id. simpl.
    rewrite lookup_empty. simpl. lia.
Qed.

End Counting.

Section StoreSteps.

Context {P : Predicates}.

(** *** Writing a value *)

Lemma getValueTypes_In id field s t :
  In t (getValueTypes id field s)
  ↔ ∃ row, In row (id_table s) ∧ s_id row = id
           ∧ spec_key row = (name_str_no_type (fname field), t).
Proof.
  unfold getValueTypes. rewrite in_map_iff. split.
  - intros (row & <- & [Hin Hsel%spec_sel_true]%filter_In).
    exists row. destruct Hsel as [-> <-]. done.
  - intros (row & Hin & Hid & [= Hf Ht]). exists row. split; [done|].
    apply filter_In. split; [done|]. by apply spec_sel_true.
Qed.

Lemma increaseRefcount_spec id field s :
  let n := name_str_no_type (fname field) in
  let t := ftype field in
  field_tables (increaseRefcount id field s) = field_tables s
  ∧ ((¬ (∃ row, In row (id_table s) ∧ s_id row = id ∧ spec_key row = (n, t))
      ∧ id_table (increaseRefcount id field s)
        = id_table s ++ [mkSpecRow id n t 1])
     ∨ ((∃ row, In row (id_table s) ∧ s_id row = id ∧ spec_key row = (n, t))
        ∧ id_table (increaseRefcount id field s)
          = map (λ r, if spec_sel_t id n t r then bump 1 r else r)
              (id_table s))).
Proof.
  intros n t. unfold increaseRefcount. fold n t.
  destruct (existsb _ (getValueTypes id field s)) eqn:Hex; simpl.
  - split; [done|]. right. split; [|done].
    apply existsb_exists in Hex as (t' & Hin & Ht).
    apply bool_decide_eq_true in Ht as ->.
    by apply getValueTypes_In in Hin.
  - split; [done|]. left. split; [|done].
    intros Hrow. apply (getValueTypes_In id field s t) in Hrow.
    assert (existsb (λ t0, bool_decide (t0 = t)) (getValueTypes id field s)
            = true) as Ht.
    { apply existsb_exists. exists t. split; [done|].
      by apply bool_decide_eq_true. }
    congruence.
Qed.

Lemma id_table_increaseRefcount id field s1 s :
  id_table s1 = id_table s →
  id_table (increaseRefcount id field s1)
  = id_table (increaseRefcount id field s).
Proof.
  intros H. unfold increaseRefcount, getValueTypes. rewrite H.
  by destruct (negb _).
Qed.

Lemma id_table_assure field s :
  id_table (assureFieldTableExists field s) = id_table s.
Proof. unfold assureFieldTableExists. by destruct (negb _). Qed.

(** What [_setFieldValue] does to the store. *)
Lemma setFieldValue_effect id field s s' :
  _setFieldValue id field s = Ok s' →
  id_table s' = id_table (increaseRefcount id field s)
  ∧ ∀ k, rows_of k s'
         = if decide (name_str field = k)
           then rows_of k s ++ [mkRow id (fvalue field) (columns (fname field))]
           else rows_of k s.
Proof.
  unfold _setFieldValue, addValueRecord.
  set (s1 := assureFieldTableExists field s).
  destruct (increaseRefcount_spec id field s1) as [Htab _].
  assert (Hrows : Engine.tableRows (name_str field)
                    (increaseRefcount id field s1)
                  = Ok (rows_of (name_str field) s)).
  { unfold Engine.tableRows. rewrite Htab. apply tableRows_assure. }
  rewrite Hrows. simpl. intros [= <-]. split.
  - simpl. apply id_table_increaseRefcount, id_table_assure.
  - intros k. rewrite rows_of_setTableRows.
    destruct (decide (name_str field = k)) as [<-|Hne]; [done|].
    unfold rows_of at 1. rewrite Htab. apply rows_of_assure.
Qed.

Lemma setFieldValue_ok id field s s' :
  store_ok s → _setFieldValue id field s = Ok s' → store_ok s'.
Proof.
  intros [Hex Hcomp] (Hspec & Hrows)%setFieldValue_effect.
  set (k := name_str field) in *.
  assert (Hcnt : ∀ k' id',
            count_id id' (rows_of k' s')
            = count_id id' (rows_of k' s)
              + (if decide (k = k') then
                   if bool_decide (id = id') then 1 else 0
                 else 0)).
  { intros k' id'. rewrite Hrows.
    destruct (decide (k = k')); [|lia].
    by rewrite count_id_app, count_id_one. }
  destruct (increaseRefcount_spec id field s) as [_ [[Hnew Hs]|[Hold Hs]]];
    rewrite Hs in Hspec; clear Hs.
  - (* a new counter *)
    assert (Hzero : count_id id (rows_of k s) = 0).
    { pose proof (count_id_nonneg id (rows_of k s)).
      destruct (decide (0 < count_id id (rows_of k s))) as [Hpos|]; [|lia].
      destruct (Hcomp k id Hpos) as (row & ? & ? & ?).
      destruct Hnew. by exists row. }
    split.
    + intros row. rewrite Hspec, in_app_iff. intros [Hin|[<-|[]]].
      * destruct (Hex row Hin) as [Heq Hpos]. split; [|done].
        rewrite Hcnt, Heq.
        destruct (decide (k = spec_key row)) as [Hk|]; [|lia].
        destruct (decide (id = s_id row)) as [Hid|].
        -- destruct Hnew. by exists row.
        -- rewrite bool_decide_eq_false_2 by done. lia.
      * simpl. split; [|lia]. unfold spec_key. simpl.
        change (name_str_no_type (fname field), ftype field) with k.
        rewrite Hcnt, Hzero.
        rewrite decide_True by done. by rewrite bool_decide_eq_true_2.
    + intros k' id' Hpos. rewrite Hcnt in Hpos.
      destruct (decide (0 < count_id id' (rows_of k' s))) as [Hp|Hn].
      * destruct (Hcomp k' id' Hp) as (row & Hin & ? & ?).
        exists row. rewrite Hspec, in_app_iff. auto.
      * destruct (decide (k = k')) as [<-|]; [|lia].
        destruct (decide (id = id')) as [<-|];
          [|rewrite bool_decide_eq_false_2 in Hpos by done; lia].
        exists (mkSpecRow id (name_str_no_type (fname field)) (ftype field) 1).
        rewrite Hspec, in_app_iff. simpl. auto.
  - (* an existing counter *)
    split.
    + intros row'. rewrite Hspec, in_map_iff.
      intros (row & <- & Hin). destruct (Hex row Hin) as [Heq Hpos].
      destruct (spec_sel_t _ _ _ row) eqn:Hsel.
      * apply spec_sel_t_true in Hsel as [Hid Hk].
        unfold bump, spec_key in *. simpl in *.
        change (name_str_no_type (fname field), ftype field) with k in Hk.
        rewrite Hcnt, <- Heq, Hk.
        rewrite decide_True by done.
        rewrite bool_decide_eq_true_2 by done. lia.
      * apply spec_sel_t_false in Hsel. split; [|done].
        rewrite Hcnt, Heq.
        destruct (decide (k = spec_key row)) as [Hk|]; [|lia].
        destruct (decide (id = s_id row)) as [Hid|];
          [|rewrite bool_decide_eq_false_2 by done; lia].
        destruct Hsel. done.
    + intros k' id' Hpos. rewrite Hcnt in Hpos.
      assert (Hrow : ∃ row, In row (id_table s) ∧ s_id row = id'
                            ∧ spec_key row = k').
      { destruct (decide (0 < count_id id' (rows_of k' s))) as [Hp|Hn].
        - by apply Hcomp.
        - destruct (decide (k = k')) as [<-|]; [|lia].
          destruct (decide (id = id')) as [<-|];
            [done|rewrite bool_decide_eq_false_2 in Hpos by done; lia]. }
      destruct Hrow as (row & Hin & Hid & Hk).
      exists (if spec_sel_t id (name_str_no_type (fname field))
                   (ftype field) row then bump 1 row else row).
      split.
      * rewrite Hspec. apply in_map_iff. by exists row.
      * by destruct (spec_sel_t _ _ _ row).
Qed.

(** *** Deleting values *)

Lemma spec_key_bump n row : spec_key (bump n row) = spec_key row.
Proof. done. Qed.

(** What one round of [deleteValues] does to the store. *)
Lemma deleteValues_type_effect id fc cond t s s' :
  deleteValues_type id fc cond t s = Ok s' →
  let k := name_str (with_type fc t) in
  let sel := spec_sel_t id k.1 k.2 in
  let del := Z.of_nat (length (List.filter (row_sel id cond) (rows_of k s))) in
  (del = 0 ∧ s' = s)
  ∨ (0 < del
     ∧ (∃ row rest,
          List.filter sel (id_table s) = row :: rest
          ∧ id_table s'
            = if s_refcount row =? del
              then List.filter (λ x, negb (sel x)) (id_table s)
              else map (λ x, if sel x then bump (- del) x else x) (id_table s))
     ∧ ∀ k', rows_of k' s'
             = if decide (k = k')
               then List.filter (λ r, negb (row_sel id cond r)) (rows_of k s)
               else rows_of k' s).
Proof.
  intros H k sel del. unfold deleteValues_type in H. fold k in H.
  apply bind_Ok in H as (rows & Hrows & H).
  pose proof (rows_of_tableRows _ _ _ Hrows) as Hr.
  subst del. rewrite Hr.
  destruct (0 <? _) eqn:Hpos.
  - right. apply Z.ltb_lt in Hpos. split; [done|].
    apply bind_Ok in H as (s1 & Hdec & H).
    unfold decreaseRefcount in Hdec.
    change (name_str_no_type (fname (with_type fc t))) with k.1 in Hdec.
    change (ftype (with_type fc t)) with k.2 in Hdec. fold sel in Hdec.
    destruct (List.filter sel (id_table s)) as [|row rest] eqn:Hf;
      [done|]. simpl in Hdec.
    apply bind_Ok in H as (empty & Hempty & [= <-]).
    unfold Engine.tableIsEmpty in Hempty.
    apply bind_Ok in Hempty as (rows2 & Hrows2 & [= <-]).
    apply rows_of_tableRows in Hrows2.
    rewrite rows_of_setTableRows, decide_True in Hrows2 by done.
    assert (Hs1 : field_tables s1 = field_tables s
                  ∧ id_table s1
                    = if s_refcount row =? Z.of_nat
                           (length (List.filter (row_sel id cond) rows))
                      then List.filter (λ x, negb (sel x)) (id_table s)
                      else map (λ x, if sel x
                                     then bump (- Z.of_nat
                                            (length (List.filter
                                                       (row_sel id cond) rows)))
                                            x
                                     else x) (id_table s)).
    { destruct (s_refcount row =? _); by injection Hdec as <-. }
    destruct Hs1 as [Ht1 Hi1]. split.
    + exists row, rest. split; [done|]. rewrite <- Hi1.
      by destruct (bool_decide (rows2 = [])).
    + intros k'.
      assert (Hk' : rows_of k'
                      (Engine.setTableRows k
                         (List.filter (λ r, negb (row_sel id cond r)) rows) s1)
                    = if decide (k = k')
                      then List.filter (λ r, negb (row_sel id cond r)) rows
                      else rows_of k' s).
      { rewrite rows_of_setTableRows. destruct (decide (k = k')); [done|].
        unfold rows_of. by rewrite Ht1. }
      destruct (bool_decide (rows2 = [])) eqn:He; [|done].
      apply bool_decide_eq_true in He. rewrite rows_of_deleteTable.
      destruct (decide (k = k')) as [<-|]; [|done].
      by rewrite Hrows2, He.
  - left. injection H as <-. apply Z.ltb_ge in Hpos. split; [lia|done].
Qed.

Lemma deleteValues_type_ok id fc cond t s s' :
  store_ok s → deleteValues_type id fc cond t s = Ok s' → store_ok s'.
Proof.
  intros [Hex Hcomp] H.
  apply deleteValues_type_effect in H. cbv zeta in H.
  set (k := name_str (with_type fc t)) in *.
  set (del := Z.of_nat (length (List.filter (row_sel id cond) (rows_of k s))))
    in *.
  destruct H as [[_ ->]|(Hpos & (row & rest & Hf & Hspec) & Hrows)]; [done|].
  assert (Hsel : ∀ x, spec_sel_t id k.1 k.2 x = true
                      ↔ s_id x = id ∧ spec_key x = k).
  { intros x. rewrite spec_sel_t_true. by destruct k. }
  assert (Hrow : In row (id_table s) ∧ s_id row = id ∧ spec_key row = k).
  { assert (Hin : In row (List.filter (spec_sel_t id k.1 k.2) (id_table s)))
      by (rewrite Hf; apply in_eq).
    apply filter_In in Hin as [Hin Hs]. by apply Hsel in Hs. }
  destruct Hrow as (Hin & Hid & Hk).
  set (c := count_id id (rows_of k s)).
  assert (Hle : del ≤ c) by apply count_selected_le.
  assert (Hc : ∀ x, In x (id_table s) → s_id x = id → spec_key x = k →
                    s_refcount x = c ∧ 1 ≤ c).
  { intros x Hx Hxi Hxk. destruct (Hex x Hx) as [Heq Hp].
    rewrite Hxi, Hxk in Heq. fold c in Heq. lia. }
  assert (Hcnt : ∀ k' id',
            count_id id' (rows_of k' s')
            = if decide (k = k') then
                if decide (id' = id) then c - del
                else count_id id' (rows_of k' s)
              else count_id id' (rows_of k' s)).
  { intros k' id'. rewrite Hrows.
    destruct (decide (k = k')) as [<-|]; [|done].
    destruct (decide (id' = id)) as [->|Hne].
    - apply count_id_delete.
    - by apply count_id_delete_other. }
  destruct (Hc row Hin Hid Hk) as [Hr Hc1]. rewrite Hr in Hspec.
  destruct (c =? del) eqn:Hcd.
  - apply Z.eqb_eq in Hcd. split.
    + intros x. rewrite Hspec. intros [Hx Hns]%filter_In.
      destruct (Hex x Hx) as [Heq Hp]. split; [|done].
      rewrite Hcnt, Heq.
      destruct (decide (k = spec_key x)) as [Hxk|]; [|done].
      destruct (decide (s_id x = id)) as [Hxi|]; [|done].
      apply negb_true_iff in Hns.
      assert (spec_sel_t id k.1 k.2 x = true) by (by apply Hsel).
      congruence.
    + intros k' id' Hp. rewrite Hcnt in Hp.
      assert (Hp' : 0 < count_id id' (rows_of k' s)
                    ∧ ¬ (id' = id ∧ k' = k)).
      { destruct (decide (k = k')) as [<-|Hne].
        - destruct (decide (id' = id)) as [->|Hni]; [lia|].
          split; [done|]. by intros [? _].
        - split; [done|]. by intros [_ ?]. }
      destruct Hp' as [Hp' Hnot].
      destruct (Hcomp k' id' Hp') as (x & Hx & Hxi & Hxk).
      exists x. split; [|done]. rewrite Hspec. apply filter_In.
      split; [done|]. apply negb_true_iff.
      destruct (spec_sel_t id k.1 k.2 x) eqn:Hs; [|done].
      apply Hsel in Hs as [? ?]. destruct Hnot. split; congruence.
  - apply Z.eqb_neq in Hcd. split.
    + intros x'. rewrite Hspec, in_map_iff. intros (x & <- & Hx).
      destruct (Hex x Hx) as [Heq Hp].
      destruct (spec_sel_t id k.1 k.2 x) eqn:Hs.
      * apply Hsel in Hs as [Hxi Hxk].
        destruct (Hc x Hx Hxi Hxk) as [Hxr _].
        rewrite spec_key_bump. unfold bump. simpl.
        rewrite Hcnt, Hxk, Hxi, !decide_True by done. lia.
      * split; [|done]. rewrite Hcnt, Heq.
        destruct (decide (k = spec_key x)) as [Hxk|]; [|done].
        destruct (decide (s_id x = id)) as [Hxi|]; [|done].
        assert (spec_sel_t id k.1 k.2 x = true) by (by apply Hsel).
        congruence.
    + intros k' id' Hp. rewrite Hcnt in Hp.
      assert (Hp' : 0 < count_id id' (rows_of k' s)).
      { destruct (decide (k = k')) as [<-|]; [|done].
        destruct (decide (id' = id)) as [->|]; [|done]. fold c. lia. }
      destruct (Hcomp k' id' Hp') as (x & Hx & Hxi & Hxk).
      exists (if spec_sel_t id k.1 k.2 x then bump (- del) x else x).
      split.
      * rewrite Hspec. apply in_map_iff. by exists x.
      * by destruct (spec_sel_t id k.1 k.2 x).
Qed.

(** A deletion adds no specification row. *)
Lemma deleteValues_type_keys Q id' id fc cond t s s' :
  keys_in Q id' s → deleteValues_type id fc cond t s = Ok s' →
  keys_in Q id' s'.
Proof.
  intros HQ H. apply deleteValues_type_effect in H. cbv zeta in H.
  destruct H as [[_ ->]|(_ & (row & rest & _ & Hspec) & _)]; [done|].
  intros x. rewrite Hspec. destruct (_ =? _).
  - intros [Hx _]%filter_In. by apply HQ.
  - intros (x0 & <- & Hx)%in_map_iff.
    destruct (spec_sel_t _ _ _ x0); intros Hid; exact (HQ x0 Hx Hid).
Qed.

(** A deletion without condition removes the counter of the type. *)
Lemma deleteValues_type_clears id fc cond t s s' :
  store_ok s → cond_trivial cond →
  deleteValues_type id fc cond t s = Ok s' →
  keys_in (λ k, k ≠ name_str (with_type fc t)) id s'.
Proof.
  intros [Hex Hcomp] Htriv H.
  apply deleteValues_type_effect in H. cbv zeta in H.
  set (k := name_str (with_type fc t)) in *.
  rewrite (count_selected_trivial id cond) in H by done.
  assert (Hsel : ∀ x, spec_sel_t id k.1 k.2 x = true
                      ↔ s_id x = id ∧ spec_key x = k).
  { intros x. rewrite spec_sel_t_true. by destruct k. }
  destruct H as [[Hz ->]|(Hpos & (row & rest & Hf & Hspec) & _)].
  - intros x Hx Hxi Hxk. destruct (Hex x Hx) as [Heq Hp].
    rewrite Hxi, Hxk in Heq. lia.
  - assert (Hin : In row (List.filter (spec_sel_t id k.1 k.2) (id_table s)))
      by (rewrite Hf; apply in_eq).
    apply filter_In in Hin as [Hin [Hid Hk]%Hsel].
    destruct (Hex row Hin) as [Heq _]. rewrite Hid, Hk in Heq.
    rewrite Heq, Z.eqb_refl in Hspec.
    intros x. rewrite Hspec. intros [Hx Hns]%filter_In Hxi Hxk.
    apply negb_true_iff in Hns.
    assert (spec_sel_t id k.1 k.2 x = true) by (by apply Hsel).
    congruence.
Qed.

(** A loop whose invariant follows the elements still to come. *)
Lemma foldM_remaining {A S : Type} (body : A → S → result S)
  (I : list A → S → Prop) :
  (∀ x l s s', I (x :: l) s → body x s = Ok s' → I l s') →
  ∀ l s s', I l s → foldM body l s = Ok s' → I [] s'.
Proof.
  intros Hbody l. induction l as [|x l IH]; intros s s' HI; simpl.
  - by intros [= <-].
  - intros (s1 & H1 & H2)%bind_Ok. eapply IH; [|exact H2].
    eapply Hbody; [exact HI | exact H1].
Qed.

Lemma foldM_app {A S : Type} (body : A → S → result S) (l1 l2 : list A)
  (s : S) :
  foldM body (l1 ++ l2) s = foldM body l1 s ≫= foldM body l2.
Proof.
  revert s. induction l1 as [|x l1 IH]; intros s; simpl; [done|].
  destruct (body x s); simpl; [apply IH | done].
Qed.

Lemma deleteValues_ok id field condition s s' :
  store_ok s → deleteValues id field condition s = Ok s' → store_ok s'.
Proof.
  unfold deleteValues. apply foldM_preserves.
  intros t s1 s2 _. apply deleteValues_type_ok.
Qed.

Lemma deleteValues_keys Q id' id field condition s s' :
  keys_in Q id' s → deleteValues id field condition s = Ok s' →
  keys_in Q id' s'.
Proof.
  unfold deleteValues. apply foldM_preserves.
  intros t s1 s2 _. apply deleteValues_type_keys.
Qed.

(** A deletion without condition removes every counter of the field. *)
Lemma deleteValues_clears id field condition s s' :
  store_ok s →
  cond_trivial (default (columns (fname field)) condition) →
  deleteValues id field condition s = Ok s' →
  store_ok s'
  ∧ keys_in (λ k, k.1 ≠ name_str_no_type (fname field)) id s'.
Proof.
  intros Hok Htriv H. unfold deleteValues in H.
  set (n := name_str_no_type (fname field)).
  pose (I := λ (l : list type_tag) (s : DB),
          store_ok s ∧ keys_in (λ k, k.1 = n → In k.2 l) id s).
  assert (Hend : I [] s').
  { eapply (foldM_remaining _ I); [| |exact H].
    - intros t l s1 s2 [Hok1 Hk1] Hstep. split.
      + by eapply deleteValues_type_ok.
      + intros x Hx Hxi Hxn.
        pose proof (deleteValues_type_keys _ _ _ _ _ _ _ _ Hk1 Hstep
                      x Hx Hxi Hxn) as [Ht|Hin]; [|done].
        pose proof (deleteValues_type_clears _ _ _ _ _ _ Hok1 Htriv Hstep
                      x Hx Hxi) as Hne.
        destruct Hne. unfold spec_key, name_str in *. simpl in *.
        subst n. rewrite Hxn. f_equal. symmetry. exact Ht.
    - split; [done|]. intros x Hx Hxi Hxn.
      apply getValueTypes_In. exists x. split; [done|]. split; [done|].
      unfold spec_key in *. simpl in *. by rewrite Hxn. }
  destruct Hend as [Hok' Hk']. split; [done|].
  intros x Hx Hxi Hxn. by apply (Hk' x Hx Hxi Hxn).
Qed.

(** *** Renumbering *)

(** The invariant only looks at the specification table and at the number
    of rows of every object in every table. *)
Lemma store_ok_same_counts s s' :
  id_table s' = id_table s →
  (∀ k id, count_id id (rows_of k s') = count_id id (rows_of k s)) →
  store_ok s → store_ok s'.
Proof.
  intros Hspec Hcnt [Hex Hcomp]. split.
  - intros row. rewrite Hspec, Hcnt. apply Hex.
  - intros k id. rewrite Hspec, Hcnt. apply Hcomp.
Qed.

Lemma renumberList_type_same id cond col col_val shift field t s s' :
  renumberList_type id cond col col_val shift field t s = Ok s' →
  id_table s' = id_table s
  ∧ ∀ k id', count_id id' (rows_of k s') = count_id id' (rows_of k s).
Proof.
  unfold renumberList_type.
  intros (rows & Hrows%rows_of_tableRows & [= <-])%bind_Ok.
  split; [done|]. intros k id'. rewrite rows_of_setTableRows.
  destruct (decide (_ = k)) as [<-|]; [|done].
  rewrite Hrows. apply count_id_map.
  intros r. by destruct (_ && _).
Qed.

Lemma renumberList_same id target field shift s s' :
  renumberList id target field shift s = Ok s' →
  id_table s' = id_table s
  ∧ ∀ k id', count_id id' (rows_of k s') = count_id id' (rows_of k s).
Proof.
  unfold renumberList.
  destruct (getLastListColumn (fname target)) as [[col col_val]|]; [|done].
  apply (foldM_preserves _
           (λ s1, id_table s1 = id_table s
                  ∧ ∀ k id', count_id id' (rows_of k s1)
                             = count_id id' (rows_of k s))); [|done].
  intros t s1 s2 _ [Hs Hc] [Hs' Hc']%renumberList_type_same. split.
  - congruence.
  - intros k id'. by rewrite Hc', Hc.
Qed.

Lemma renumberList_ok id target field shift s s' :
  store_ok s → renumberList id target field shift s = Ok s' → store_ok s'.
Proof.
  intros Hok [Hs Hc]%renumberList_same. by apply (store_ok_same_counts s).
Qed.

Lemma renumberList_keys Q id' id target field shift s s' :
  keys_in Q id' s → renumberList id target field shift s = Ok s' →
  keys_in Q id' s'.
Proof.
  intros HQ [Hs _]%renumberList_same. unfold keys_in. by rewrite Hs.
Qed.

End StoreSteps.

Section LogicSteps.

Context {P : Predicates}.

Lemma fillWithNones_ok id path s s' :
  store_ok s → _fillWithNones id path s = Ok s' → store_ok s'.
Proof.
  intros Hok. unfold _fillWithNones.
  intros (max & _ & H)%bind_Ok.
  destruct (List.last (fname path) NWild); [done| |done].
  revert H. apply foldM_preserves; [|done].
  intros i0 s1 s2 _. apply setFieldValue_ok.
Qed.

Lemma storeFields_ok id path fields s s' :
  store_ok s → _storeFields id path fields s = Ok s' → store_ok s'.
Proof.
  unfold _storeFields. apply foldM_preserves.
  intros f s1 s2 _. apply setFieldValue_ok.
Qed.

Lemma delete_loop_ok id cond fields s s' :
  store_ok s →
  foldM (λ fld s, deleteValues id fld cond s) fields s = Ok s' →
  store_ok s'.
Proof.
  apply foldM_preserves. intros f s1 s2 _. apply deleteValues_ok.
Qed.

Lemma delete_loop_keys Q id' id cond fields s s' :
  keys_in Q id' s →
  foldM (λ fld s, deleteValues id fld cond s) fields s = Ok s' →
  keys_in Q id' s'.
Proof.
  apply foldM_preserves. intros f s1 s2 _. apply deleteValues_keys.
Qed.

Lemma renumber_step_ok id target shift fld s s' :
  store_ok s →
  (if shift <? 0
   then deleteValues id fld (Some (columns (fname target))) s
   else Ok s) ≫= renumberList id target fld shift = Ok s' →
  store_ok s'.
Proof.
  intros Hok (s1 & H1 & H2)%bind_Ok.
  eapply renumberList_ok; [|exact H2].
  destruct (shift <? 0); [by eapply deleteValues_ok | by injection H1 as <-].
Qed.

Lemma renumber_step_keys Q id' id target shift fld s s' :
  keys_in Q id' s →
  (if shift <? 0
   then deleteValues id fld (Some (columns (fname target))) s
   else Ok s) ≫= renumberList id target fld shift = Ok s' →
  keys_in Q id' s'.
Proof.
  intros Hok (s1 & H1 & H2)%bind_Ok.
  eapply renumberList_keys; [|exact H2].
  destruct (shift <? 0); [by eapply deleteValues_keys | by injection H1 as <-].
Qed.

Lemma renumber_ok id target shift s s' :
  store_ok s → _renumber id target shift s = Ok s' → store_ok s'.
Proof.
  unfold _renumber. apply foldM_preserves.
  intros fld s1 s2 _. apply renumber_step_ok.
Qed.

Lemma renumber_keys Q id' id target shift s s' :
  keys_in Q id' s → _renumber id target shift s = Ok s' → keys_in Q id' s'.
Proof.
  unfold _renumber. apply foldM_preserves.
  intros fld s1 s2 _. apply renumber_step_keys.
Qed.

Lemma deleteField_ok id field s s' :
  store_ok s → _deleteField id field s = Ok s' → store_ok s'.
Proof.
  unfold _deleteField. destruct (_ && _).
  - apply renumber_ok.
  - apply delete_loop_ok.
Qed.

Lemma deleteField_keys Q id' id field s s' :
  keys_in Q id' s → _deleteField id field s = Ok s' → keys_in Q id' s'.
Proof.
  unfold _deleteField. destruct (_ && _).
  - apply renumber_keys.
  - apply delete_loop_keys.
Qed.

Lemma all_wild_columns n : all_wild n → cond_trivial (columns n).
Proof.
  induction 1 as [|e n He _ IH]; simpl; [constructor|].
  destruct e; [done|done|]. by constructor.
Qed.

Lemma foldM_snoc {A S : Type} (body : A → S → result S) (l : list A) (x : A)
  (s s' : S) :
  foldM body (l ++ [x]) s = Ok s' ↔
  ∃ s1, foldM body l s = Ok s1 ∧ body x s1 = Ok s'.
Proof.
  rewrite foldM_app, bind_Ok. simpl.
  split; intros (s1 & H1 & H2); exists s1; split; try done.
  - by destruct (body x s1).
  - by rewrite H2.
Qed.

(** The deletion of a field given without index removes its counters. *)
Lemma deleteField_clears id field s s' :
  store_ok s → all_wild (fname field) →
  _deleteField id field s = Ok s' →
  keys_in (λ k, k.1 ≠ name_str_no_type (fname field)) id s'.
Proof.
  intros Hok Hwild. unfold _deleteField, _renumber, getFieldsList.
  destruct (_ && _).
  - intros (s1 & H1 & H2)%foldM_snoc.
    apply bind_Ok in H2 as (s2 & Hdel & Hren). simpl in Hdel.
    eapply renumberList_keys; [|exact Hren].
    eapply (deleteValues_clears id (mkPath (fname field))); [| |exact Hdel].
    + eapply (foldM_preserves _ store_ok); [|exact Hok|exact H1].
      intros fld t t' _. apply renumber_step_ok.
    + by apply all_wild_columns.
  - intros (s1 & H1 & H2)%foldM_snoc.
    eapply (deleteValues_clears id (mkPath (fname field))); [| |exact H2].
    + by eapply delete_loop_ok.
    + by apply all_wild_columns.
Qed.

Lemma nt_fromNameStrNoType e :
  name_str_no_type (fromNameStrNoType e) = e.
Proof.
  unfold name_str_no_type, fromNameStrNoType.
  induction e as [|[x|] e IH]; simpl; by rewrite ?IH.
Qed.

Lemma all_wild_fromNameStrNoType e : all_wild (fromNameStrNoType e).
Proof.
  unfold all_wild, fromNameStrNoType.
  induction e as [|[x|] e IH]; simpl; by constructor.
Qed.

Lemma deleteSpecification_ok id s :
  store_ok s → keys_in (λ _, False) id s →
  store_ok (deleteSpecification id s).
Proof.
  intros [Hex Hcomp] Hnone. split.
  - intros row [Hin _]%filter_In. by apply Hex.
  - intros k id' Hpos. destruct (Hcomp k id' Hpos) as (row & Hin & Hid & Hk).
    exists row. split; [|done]. apply filter_In. split; [done|].
    apply negb_true_iff, Z.eqb_neq. intros Heq.
    by apply (Hnone row Hin).
Qed.

Lemma deleteObject_ok id s s' :
  store_ok s → _deleteObject id s = Ok s' → store_ok s'.
Proof.
  intros Hok. unfold _deleteObject.
  intros (s1 & Hloop & [= <-])%bind_Ok.
  pose (I := λ (l : list Field) (s : DB),
          Forall (λ f, all_wild (fname f)) l
          ∧ store_ok s
          ∧ keys_in (λ k, In k.1 (map (λ f, name_str_no_type (fname f)) l))
              id s).
  assert (Hend : I [] s1).
  { eapply (foldM_remaining _ I); [| |exact Hloop].
    - intros f l t t' (Hw & Hokt & Hkeys) Hstep.
      inversion Hw as [|? ? Hwf Hwl]; subst. split; [done|]. split.
      + by eapply deleteField_ok.
      + intros row Hin Hid.
        pose proof (deleteField_keys _ _ _ _ _ _ Hkeys Hstep row Hin Hid)
          as [Heq|Hl]; [|done].
        pose proof (deleteField_clears _ _ _ _ Hokt Hwf Hstep row Hin Hid)
          as Hne.
        simpl in Hne, Heq. by destruct Hne.
    - unfold getFieldsList. rewrite app_nil_r. split; [|split; [done|]].
      + apply List.Forall_forall. intros f (e & <- & _)%in_map_iff.
        apply all_wild_fromNameStrNoType.
      + intros row Hin Hid. rewrite map_map. simpl.
        apply in_map_iff. exists (s_field row). split.
        * apply nt_fromNameStrNoType.
        * apply In_distinct, in_map_iff. exists row. split; [done|].
          apply filter_In. split; [done|].
          rewrite andb_true_r. by apply Z.eqb_eq. }
  destruct Hend as (_ & Hok1 & Hkeys).
  apply deleteSpecification_ok; [done|].
  intros row Hin Hid. by apply (Hkeys row Hin Hid).
Qed.

Lemma createHierarchy_ok id name_copy : ∀ tmp s s',
  store_ok s → _createHierarchy id tmp name_copy s = Ok s' → store_ok s'.
Proof.
  induction name_copy as [|next rest IH]; intros tmp s s' Hok; simpl.
  - by intros [= <-].
  - intros (s1 & H1 & (s2 & H2 & H3)%bind_Ok)%bind_Ok.
    eapply IH; [|exact H3].
    eapply setFieldValue_ok; [|exact H2].
    destruct (_ && _); [by eapply fillWithNones_ok | by injection H1 as <-].
Qed.

Lemma checkForConflicts_ok id field remove_conflicts s s' :
  store_ok s → _checkForConflicts id field remove_conflicts s = Ok s' →
  store_ok s'.
Proof.
  unfold _checkForConflicts. generalize (@nil name_elem) as tmp.
  induction (fname field) as [|next rest IH]; intros tmp Hok; simpl.
  - by intros [= <-].
  - destruct (_ =? 0)%nat; [by intros [= <-]|].
    destruct (_ && _); [|by apply IH].
    destruct remove_conflicts; [|done].
    intros (s1 & H1 & H2)%bind_Ok.
    eapply (createHierarchy_ok id (next :: rest)); [|exact H2].
    by eapply delete_loop_ok.
Qed.

Lemma fillAutocreated_ok id rev_name : ∀ s s',
  store_ok s → _fillAutocreated id rev_name s = Ok s' → store_ok s'.
Proof.
  induction rev_name as [|e rest IH]; intros s s' Hok.
  - by intros [= <-].
  - cbn [_fillAutocreated]. intros (s1 & H1 & H2)%bind_Ok.
    eapply IH; [|exact H2].
    destruct (is_int e); [by eapply fillWithNones_ok | by injection H1 as <-].
Qed.

Lemma modifyFields_ok id path fields remove_conflicts s s' :
  store_ok s → _modifyFields id path fields remove_conflicts s = Ok s' →
  store_ok s'.
Proof.
  intros Hok. unfold _modifyFields.
  intros (has & _ & (s1 & H1 & H2)%bind_Ok)%bind_Ok.
  eapply storeFields_ok; [|exact H2].
  destruct has.
  - by eapply delete_loop_ok.
  - apply bind_Ok in H1 as (s0 & Hc & Hf).
    eapply fillAutocreated_ok; [|exact Hf].
    by eapply checkForConflicts_ok.
Qed.

Lemma store_ok_next_id s n :
  store_ok s →
  store_ok {| id_table := id_table s; field_tables := field_tables s;
              next_id := n |}.
Proof. by apply store_ok_same_counts. Qed.

Lemma processInsertRequest_ok id path groups remove_conflicts s s' :
  store_ok s →
  processInsertRequest id path groups remove_conflicts s = Ok s' →
  store_ok s'.
Proof.
  intros Hok. unfold processInsertRequest.
  intros (s1 & H1 & (s2 & H2 & ([gs s3] & H3 & H4)%bind_Ok)%bind_Ok)%bind_Ok.
  assert (Hok1 : store_ok s1).
  { unfold insert_prepare_parent in H1.
    destruct (match getFieldValue _ _ _ with [] => true | _ => _ end).
    - destruct (_ || _); [by eapply modifyFields_ok | done].
    - by injection H1 as <-. }
  assert (Hok2 : store_ok s2).
  { unfold insert_fill in H2. destruct (fname path); [done|].
    destruct (List.last _ _); [done| |by injection H2 as <-].
    destruct (0 <? _); [by eapply fillWithNones_ok | by injection H2 as <-]. }
  assert (Hok3 : store_ok s3).
  { unfold insert_enumerate in H3.
    apply bind_Ok in H3 as (max & _ & H3).
    destruct max as [m|].
    - destruct (fname path !! _) as [[| |]|]; try done.
      + apply bind_Ok in H3 as (sr & Hr & (gs' & _ & [= _ <-])%bind_Ok).
        by eapply renumber_ok.
      + by apply bind_Ok in H3 as (gs' & _ & [= _ <-]).
    - by apply bind_Ok in H3 as (gs' & _ & [= _ <-]). }
  revert H4. apply foldM_preserves; [|done].
  intros f t t' _. apply setFieldValue_ok.
Qed.

Lemma processDeleteRequest_ok id fields s s' :
  store_ok s → processDeleteRequest id fields s = Ok s' → store_ok s'.
Proof.
  destruct fields as [fs|]; simpl.
  - apply foldM_preserves. intros f t t' _. apply deleteField_ok.
  - apply deleteObject_ok.
Qed.

Lemma processCreateRequest_ok fields s new_id s' :
  store_ok s → processCreateRequest fields s = Ok (new_id, s') → store_ok s'.
Proof.
  intros Hok. unfold processCreateRequest, Engine.getNewId.
  intros (s1 & H1 & [= _ <-])%bind_Ok.
  eapply modifyFields_ok; [|exact H1]. by apply store_ok_next_id.
Qed.

End LogicSteps.

(** *** Repair *)

Section Dictionaries.

Context {K V : Type} `{EqDecision K}.

Lemma dict_get_upd_eq (k : K) (f : option V → V) (d : list (K * V)) :
  dict_get k (dict_upd k f d) = Some (f (dict_get k d)).
Proof.
  induction d as [|[k' v] d IH]; simpl.
  - by rewrite bool_decide_eq_true_2.
  - destruct (decide (k' = k)) as [->|Hne].
    + rewrite bool_decide_eq_true_2 by done. simpl.
      by rewrite bool_decide_eq_true_2.
    + rewrite bool_decide_eq_false_2 by done. simpl.
      by rewrite bool_decide_eq_false_2.
Qed.

Lemma dict_get_upd_ne (k k' : K) (f : option V → V) (d : list (K * V)) :
  k ≠ k' → dict_get k' (dict_upd k f d) = dict_get k' d.
Proof.
  intros Hne. induction d as [|[k0 v] d IH]; simpl.
  - by rewrite bool_decide_eq_false_2.
  - destruct (decide (k0 = k)) as [->|Hne0].
    + rewrite bool_decide_eq_true_2 by done. simpl.
      by rewrite bool_decide_eq_false_2.
    + rewrite bool_decide_eq_false_2 by done. simpl.
      by rewrite IH.
Qed.

Lemma dict_get_In (k : K) (v : V) (d : list (K * V)) :
  dict_get k d = Some v → In (k, v) d.
Proof.
  induction d as [|[k' v'] d IH]; simpl; [done|].
  destruct (decide (k' = k)) as [->|Hne].
  - rewrite bool_decide_eq_true_2 by done. intros [= ->]. by left.
  - rewrite bool_decide_eq_false_2 by done. intros H. right. by apply IH.
Qed.

Lemma dict_get_None (k : K) (d : list (K * V)) :
  dict_get k d = None → ¬ In k d.*1.
Proof.
  induction d as [|[k' v'] d IH]; simpl; [tauto|].
  destruct (decide (k' = k)) as [->|Hne].
  - by rewrite bool_decide_eq_true_2.
  - rewrite bool_decide_eq_false_2 by done. intros H [?|?]; [done|].
    by apply IH.
Qed.

Lemma In_dict_get (k : K) (v : V) (d : list (K * V)) :
  NoDup d.*1 → In (k, v) d → dict_get k d = Some v.
Proof.
  induction d as [|[k' v'] d IH]; simpl; [done|].
  intros [Hnotin Hnd]%NoDup_cons [[= -> ->]|Hin].
  - by rewrite bool_decide_eq_true_2.
  - destruct (decide (k' = k)) as [->|Hne].
    + destruct Hnotin. apply list_elem_of_In.
      change k with (k, v).1. by apply in_map.
    + rewrite bool_decide_eq_false_2 by done. by apply IH.
Qed.

(** Keys stay unique, and the values keep a property the update keeps. *)
Lemma dict_upd_wf (Q : V → Prop) (k : K) (f : option V → V)
  (d : list (K * V)) :
  NoDup d.*1 → Forall (λ e, Q e.2) d →
  Q (f (dict_get k d)) →
  NoDup (dict_upd k f d).*1 ∧ Forall (λ e, Q e.2) (dict_upd k f d).
Proof.
  induction d as [|[k' v] d IH]; simpl.
  - intros _ _ HQ. split.
    + apply NoDup_singleton.
    + by constructor.
  - intros [Hnotin Hnd]%NoDup_cons HF HQ.
    inversion HF as [|? ? Hv HFd]; subst.
    destruct (decide (k' = k)) as [->|Hne].
    + rewrite bool_decide_eq_true_2 in * by done. simpl. split.
      * by apply NoDup_cons.
      * by constructor.
    + rewrite bool_decide_eq_false_2 in * by done. simpl.
      destruct (IH Hnd HFd HQ) as [Hnd' HF']. split.
      * apply NoDup_cons. split; [|done].
        intros Hin%list_elem_of_In. apply in_map_iff in Hin as ([k0 v0] & Hk & Hin).
        simpl in Hk. subst k0.
        destruct (dict_get k' d) as [v1|] eqn:Hget.
        -- apply Hnotin, list_elem_of_In.
           change k' with (k', v1).1. apply in_map. by apply dict_get_In.
        -- apply In_dict_get in Hin; [|done].
           rewrite dict_get_upd_ne in Hin by done. congruence.
      * by constructor.
Qed.

End Dictionaries.

Section Repair.

Lemma refs_get_add id n t id' n' t' d :
  refs_get id' n' t' (refcounters_add id n t d)
  = refs_get id' n' t' d
    + (if decide ((id, n, t) = (id', n', t')) then 1 else 0).
Proof.
  unfold refs_get, refcounters_add.
  destruct (decide (id = id')) as [<-|Hid].
  - rewrite dict_get_upd_eq.
    destruct (decide (n = n')) as [<-|Hn].
    + rewrite dict_get_upd_eq.
      destruct (decide (t = t')) as [<-|Ht].
      * rewrite dict_get_upd_eq, decide_True by done. simpl.
        destruct (dict_get id d) as [names|]; simpl; [|done].
        destruct (dict_get n names) as [types|]; simpl; [|done].
        destruct (dict_get t types); simpl; lia.
      * rewrite dict_get_upd_ne by done.
        rewrite decide_False by congruence.
        destruct (dict_get id d) as [names|]; simpl; [|done].
        destruct (dict_get n names) as [types|]; simpl; lia.
    + rewrite dict_get_upd_ne by done.
      rewrite decide_False by congruence.
      destruct (dict_get id d) as [names|]; simpl; lia.
  - rewrite dict_get_upd_ne by done.
    rewrite decide_False by congruence. lia.
Qed.

Lemma Forall_default_get {K V : Type} `{EqDecision K} (Q : list V → Prop)
  (k : K) (d : list (K * list V)) :
  Q [] → Forall (λ e, Q e.2) d → Q (default [] (dict_get k d)).
Proof.
  intros Hnil HF. destruct (dict_get k d) as [v|] eqn:Hget; [|done].
  apply dict_get_In in Hget.
  by apply (proj1 (List.Forall_forall _ _) HF (k, v)).
Qed.

Lemma refs_wf_add id n t d : refs_wf d → refs_wf (refcounters_add id n t d).
Proof.
  intros [Hnd HF]. unfold refs_wf, refcounters_add.
  set (Q2 := λ types : list (type_tag * Z),
         NoDup types.*1 ∧ Forall (λ c, 1 ≤ c.2) types).
  set (Q1 := λ names : list (list (option string) * list (type_tag * Z)),
         NoDup names.*1 ∧ Forall (λ e', Q2 e'.2) names).
  apply (dict_upd_wf Q1); [done|done|].
  assert (H1 : Q1 (default [] (dict_get id d))).
  { apply (Forall_default_get Q1); [|done].
    split; [apply NoDup_nil_2 | constructor]. }
  destruct H1 as [Hnd1 HF1].
  apply (dict_upd_wf Q2); [done|done|].
  assert (H2 : Q2 (default [] (dict_get n (default [] (dict_get id d))))).
  { apply (Forall_default_get Q2); [|done].
    split; [apply NoDup_nil_2 | constructor]. }
  destruct H2 as [Hnd2 HF2].
  apply (dict_upd_wf (λ c, 1 ≤ c)); [done|done|].
  destruct (dict_get t _) as [c|] eqn:Hget; [|lia].
  apply dict_get_In in Hget.
  pose proof (proj1 (List.Forall_forall _ _) HF2 (t, c) Hget) as Hc.
  simpl in Hc. lia.
Qed.

(** The scan of one table adds, for every object, the number of its rows
    to the counter of the table. *)
Lemma scan_table k rows : ∀ d,
  refs_wf d →
  let d' := fold_left (λ rc obj_id, refcounters_add obj_id k.1 k.2 rc)
              (map r_id rows) d in
  refs_wf d'
  ∧ ∀ id n t, refs_get id n t d'
              = refs_get id n t d
                + (if decide (k = (n, t)) then count_id id rows else 0).
Proof.
  induction rows as [|r rows IH]; intros d Hwf; simpl.
  - split; [done|]. intros id n t. unfold count_id. simpl.
    destruct (decide _); lia.
  - destruct (IH (refcounters_add (r_id r) k.1 k.2 d)) as [Hwf' Hget];
      [by apply refs_wf_add|].
    split; [done|]. intros id n t. rewrite Hget, refs_get_add.
    unfold count_id. simpl.
    destruct (decide (k = (n, t))) as [->|Hne]; simpl.
    + destruct (decide (r_id r = id)) as [->|Hid].
      * rewrite decide_True by done. rewrite Z.eqb_refl. simpl. lia.
      * rewrite decide_False by congruence.
        rewrite (proj2 (Z.eqb_neq _ _)) by done. lia.
    + rewrite decide_False; [lia|]. intros [= ? ? ?]. destruct Hne.
      destruct k. simpl in *. congruence.
Qed.

Lemma assoc_rows_notin k l : ¬ In k l.*1 → assoc_rows k l = [].
Proof.
  induction l as [|[k' rows] l IH]; simpl; [done|]. intros Hnot.
  rewrite bool_decide_eq_false_2 by tauto. apply IH. tauto.
Qed.

Lemma scan_tables l : ∀ d,
  refs_wf d → NoDup l.*1 →
  let d' := fold_left
              (λ refcounters '(k, rows),
                 fold_left (λ rc obj_id, refcounters_add obj_id k.1 k.2 rc)
                   (map r_id rows) refcounters) l d in
  refs_wf d'
  ∧ ∀ id n t, refs_get id n t d'
              = refs_get id n t d + count_id id (assoc_rows (n, t) l).
Proof.
  induction l as [|[k rows] l IH]; intros d Hwf Hnd; simpl.
  - split; [done|]. intros. unfold count_id. simpl. lia.
  - apply NoDup_cons in Hnd as [Hnotin Hnd].
    destruct (scan_table k rows d Hwf) as [Hwf1 Hget1].
    destruct (IH _ Hwf1 Hnd) as [Hwf2 Hget2].
    split; [done|]. intros id n t. rewrite Hget2, Hget1.
    destruct (decide (k = (n, t))) as [->|Hne].
    + rewrite bool_decide_eq_true_2 by done.
      rewrite assoc_rows_notin; [unfold count_id at 2; simpl; lia|].
      by rewrite <- list_elem_of_In.
    + rewrite bool_decide_eq_false_2 by done. lia.
Qed.

Lemma assoc_rows_map_to_list (k : list (option string) * type_tag)
  (m : gmap (list (option string) * type_tag) (list Row)) :
  assoc_rows k (map_to_list m) = default [] (m !! k).
Proof.
  pose proof (NoDup_fst_map_to_list m) as Hnd.
  destruct (m !! k) as [rows|] eqn:Hl; simpl.
  - apply elem_of_map_to_list in Hl. revert Hl Hnd.
    generalize (map_to_list m) as l.
    induction l as [|[k' rows'] l IH]; simpl.
    + by intros ?%elem_of_nil.
    + intros [[= -> ->]|Hin]%elem_of_cons [Hnotin Hnd]%NoDup_cons.
      * by rewrite bool_decide_eq_true_2.
      * destruct (decide (k' = k)) as [->|Hne].
        -- destruct Hnotin. apply list_elem_of_fmap. by exists (k, rows).
        -- rewrite bool_decide_eq_false_2 by done. by apply IH.
  - apply assoc_rows_notin. rewrite <- list_elem_of_In.
    intros ([k' rows] & Hk & Hin)%list_elem_of_fmap. simpl in Hk. subst k'.
    apply elem_of_map_to_list in Hin. congruence.
Qed.

Lemma In_flatten_refs row d :
  In row (flatten_refs d)
  ↔ ∃ names types,
      In (s_id row, names) d ∧ In (s_field row, types) names
      ∧ In (s_type row, s_refcount row) types.
Proof.
  unfold flatten_refs. rewrite in_flat_map. split.
  - intros ([id names] & Hin & H). apply in_flat_map in H as ([n types] & Hn & H).
    apply in_map_iff in H as ([t c] & <- & Ht). simpl. by exists names, types.
  - intros (names & types & Hin & Hn & Ht).
    exists (s_id row, names). split; [done|].
    apply in_flat_map. exists (s_field row, types). split; [done|].
    apply in_map_iff. exists (s_type row, s_refcount row). split; [|done].
    by destruct row.
Qed.

Lemma refs_wf_nil : refs_wf [].
Proof. split; [apply NoDup_nil_2 | constructor]. Qed.

(** Whatever the specification table was, the repair leaves a consistent
    one. *)
Lemma repair_ok s : store_ok (repairSupportTables s).
Proof.
  unfold repairSupportTables, count_refs.
  destruct (scan_tables (map_to_list (field_tables s)) [] refs_wf_nil
              (NoDup_fst_map_to_list _)) as [Hwf Hget].
  cbv zeta in Hwf, Hget.
  set (d := fold_left _ (map_to_list (field_tables s)) []) in *.
  assert (Hcount : ∀ id k,
            refs_get id k.1 k.2 d = count_id id (rows_of k s)).
  { intros id [n t]. simpl. rewrite Hget.
    unfold rows_of. by rewrite assoc_rows_map_to_list. }
  destruct Hwf as [Hnd HF]. split.
  - intros row [names [types (Hin & Hn & Ht)]]%In_flatten_refs.
    pose proof (proj1 (List.Forall_forall _ _) HF _ Hin) as [Hnd1 HF1].
    pose proof (proj1 (List.Forall_forall _ _) HF1 _ Hn) as [Hnd2 HF2].
    pose proof (proj1 (List.Forall_forall _ _) HF2 _ Ht) as Hc.
    simpl in *. split; [|done].
    change (rows_of (spec_key row) (set_id_table (flatten_refs d) s))
      with (rows_of (spec_key row) s).
    rewrite <- Hcount. unfold refs_get, spec_key. simpl.
    rewrite (In_dict_get _ _ _ Hnd Hin).
    rewrite (In_dict_get _ _ _ Hnd1 Hn).
    by rewrite (In_dict_get _ _ _ Hnd2 Ht).
  - intros [n t] id.
    change (rows_of (n, t) (set_id_table (flatten_refs d) s))
      with (rows_of (n, t) s).
    rewrite <- Hcount. unfold refs_get. simpl.
    destruct (dict_get id d) as [names|] eqn:H1; [|lia].
    destruct (dict_get n names) as [types|] eqn:H2; [|lia].
    destruct (dict_get t types) as [c|] eqn:H3; simpl; [|lia].
    intros _. exists (mkSpecRow id n t c). split; [|done].
    apply In_flatten_refs. exists names, types. simpl.
    split; [|split]; by apply dict_get_In.
Qed.

End Repair.

(** *** Every request *)

Section RefcountInvariant.

Context {P : Predicates} {E : EngineSql}.

Lemma processRequest_ok request s response s' :
  store_ok s → processRequest request s = Ok (response, s') → store_ok s'.
Proof.
  intros Hok. destruct request; simpl.
  - intros ([new_id s1] & H & [= _ <-])%bind_Ok.
    by eapply processCreateRequest_ok.
  - intros (s1 & H & [= _ <-])%bind_Ok. by eapply modifyFields_ok.
  - intros (s1 & H & [= _ <-])%bind_Ok. by eapply processInsertRequest_ok.
  - by intros (fs & H & [= _ <-])%bind_Ok.
  - intros (s1 & H & [= _ <-])%bind_Ok. by eapply processDeleteRequest_ok.
  - by intros [= _ <-].
  - by intros [= _ <-].
  - by intros (es & H & [= _ <-])%bind_Ok.
  - intros [= _ <-]. apply repair_ok.
Qed.

Lemma run_ok requests : ∀ s, store_ok s → store_ok (run requests s).
Proof.
  induction requests as [|r rest IH]; intros s Hok; simpl; [done|].
  destruct (processRequest r s) as [[resp s']|e] eqn:Hr.
  - apply IH. by eapply processRequest_ok.
  - by apply IH.
Qed.

(** C1: refcount consistency is an invariant of the store.  The store
    invariant (every counter is the number of rows of its object in its
    table and is at least one, and every row has its counter) holds in the
    empty store and is kept by every request that completes: create,
    modify, insert, delete, read, search, object-exists, dump and repair.
    It gives refcount consistency: for every row [(id, field, type, r)] of
    the specification table, the table of [(field, type)] exists and holds
    exactly [r] rows of [id].  So refcount consistency holds after every
    batch of requests run on the empty store. *)
Theorem refcount_consistency_invariant :
  store_ok empty_db
  ∧ (∀ request s response s',
       store_ok s → processRequest request s = Ok (response, s') →
       store_ok s')
  ∧ (∀ s, store_ok s → refcount_consistent s)
  ∧ (∀ requests, refcount_consistent (run requests empty_db)).
Proof.
  split; [apply store_ok_empty|].
  split; [apply processRequest_ok|].
  split; [apply store_ok_consistent|].
  intros requests. apply store_ok_consistent, run_ok, store_ok_empty.
Qed.

End RefcountInvariant.

(** ** The numbering of inserted elements *)

Section InsertNumbering.

Context {P : Predicates}.



Lemma set_name_elem_within col c f :
  (col < length (fname f))%nat →
  set_name_elem col c f
  = Ok (with_name f (<[col := NInt c]> (fname f))).
Proof.
  intros H. unfold set_name_elem. by rewrite (proj2 (Nat.ltb_lt _ _) H).
Qed.

(** Numbering never fails on fields whose names reach the target column. *)
Lemma enumerate_total groups col : ∀ start,
  Forall (Forall (λ f, (col < length (fname f))%nat)) groups →
  ∃ gs, enumerate groups col start = Ok gs.
Proof.
  induction groups as [|g groups IH]; intros start HF.
  - by eexists.
  - inversion HF as [|? ? Hg Hgs]; subst.
    assert (Hm : ∃ g', mapM (set_name_elem col start) g = Ok g').
    { clear -Hg. induction Hg as [|f g Hf _ [g' IHg]].
      - by eexists.
      - cbn [mapM]. rewrite set_name_elem_within by done.
        rewrite IHg. by eexists. }
    destruct Hm as [g' Hg']. destruct (IH (start + 1) Hgs) as [gs Hgs'].
    cbn [enumerate]. rewrite Hg', Hgs'. by eexists.
Qed.





End InsertNumbering.

(** ** The steps through which the logic layer changes the store *)

Section Primitives.

Context {P : Predicates}.

Variable id : Z.
Variable I : DB → Prop.

Hypothesis I_set : ∀ f s s', I s → _setFieldValue id f s = Ok s' → I s'.
Hypothesis I_del : ∀ fc cond t s s',
  I s → deleteValues_type id fc cond t s = Ok s' → I s'.
Hypothesis I_ren : ∀ cond col col_val shift f t s s',
  I s → renumberList_type id cond col col_val shift f t s = Ok s' → I s'.

Lemma steps_deleteValues field condition s s' :
  I s → deleteValues id field condition s = Ok s' → I s'.
Proof.
  unfold deleteValues. apply foldM_preserves.
  intros t s1 s2 _. apply I_del.
Qed.

Lemma steps_renumberList target field shift s s' :
  I s → renumberList id target field shift s = Ok s' → I s'.
Proof.
  unfold renumberList.
  destruct (getLastListColumn (fname target)) as [[col col_val]|]; [|done].
  apply foldM_preserves. intros t s1 s2 _. apply I_ren.
Qed.

Lemma steps_fillWithNones path s s' :
  I s → _fillWithNones id path s = Ok s' → I s'.
Proof.
  intros HI. unfold _fillWithNones.
  intros (max & _ & H)%bind_Ok.
  destruct (List.last (fname path) NWild); [done| |done].
  revert H. apply foldM_preserves; [|done].
  intros i0 s1 s2 _. apply I_set.
Qed.

Lemma steps_storeFields path fields s s' :
  I s → _storeFields id path fields s = Ok s' → I s'.
Proof.
  unfold _storeFields. apply foldM_preserves.
  intros f s1 s2 _. apply I_set.
Qed.

Lemma steps_delete_loop cond fields s s' :
  I s →
  foldM (λ fld s, deleteValues id fld cond s) fields s = Ok s' →
  I s'.
Proof.
  apply foldM_preserves. intros f s1 s2 _. apply steps_deleteValues.
Qed.

Lemma steps_renumber target shift s s' :
  I s → _renumber id target shift s = Ok s' → I s'.
Proof.
  unfold _renumber. apply foldM_preserves.
  intros fld s1 s2 _ HI (s3 & H1 & H2)%bind_Ok.
  eapply steps_renumberList; [|exact H2].
  destruct (shift <? 0);
    [by eapply steps_deleteValues | by injection H1 as <-].
Qed.

Lemma steps_deleteField field s s' :
  I s → _deleteField id field s = Ok s' → I s'.
Proof.
  unfold _deleteField. destruct (_ && _).
  - apply steps_renumber.
  - apply steps_delete_loop.
Qed.

Lemma steps_createHierarchy name_copy : ∀ tmp s s',
  I s → _createHierarchy id tmp name_copy s = Ok s' → I s'.
Proof.
  induction name_copy as [|next rest IH]; intros tmp s s' HI; simpl.
  - by intros [= <-].
  - intros (s1 & H1 & (s2 & H2 & H3)%bind_Ok)%bind_Ok.
    eapply IH; [|exact H3].
    eapply I_set; [|exact H2].
    destruct (_ && _); [by eapply steps_fillWithNones | by injection H1 as <-].
Qed.

Lemma steps_checkForConflicts field remove_conflicts s s' :
  I s → _checkForConflicts id field remove_conflicts s = Ok s' → I s'.
Proof.
  unfold _checkForConflicts. generalize (@nil name_elem) as tmp.
  induction (fname field) as [|next rest IH]; intros tmp HI; simpl.
  - by intros [= <-].
  - destruct (_ =? 0)%nat; [by intros [= <-]|].
    destruct (_ && _); [|by apply IH].
    destruct remove_conflicts; [|done].
    intros (s1 & H1 & H2)%bind_Ok.
    eapply (steps_createHierarchy (next :: rest)); [|exact H2].
    by eapply steps_delete_loop.
Qed.

Lemma steps_fillAutocreated rev_name : ∀ s s',
  I s → _fillAutocreated id rev_name s = Ok s' → I s'.
Proof.
  induction rev_name as [|e rest IH]; intros s s' HI.
  - by intros [= <-].
  - cbn [_fillAutocreated]. intros (s1 & H1 & H2)%bind_Ok.
    eapply IH; [|exact H2].
    destruct (is_int e); [by eapply steps_fillWithNones | by injection H1 as <-].
Qed.

Lemma steps_modifyFields path fields remove_conflicts s s' :
  I s → _modifyFields id path fields remove_conflicts s = Ok s' → I s'.
Proof.
  intros HI. unfold _modifyFields.
  intros (has & _ & (s1 & H1 & H2)%bind_Ok)%bind_Ok.
  eapply steps_storeFields; [|exact H2].
  destruct has.
  - by eapply steps_delete_loop.
  - apply bind_Ok in H1 as (s0 & Hc & Hf).
    eapply steps_fillAutocreated; [|exact Hf].
    by eapply steps_checkForConflicts.
Qed.

Lemma steps_processInsertRequest path groups remove_conflicts s s' :
  I s → processInsertRequest id path groups remove_conflicts s = Ok s' → I s'.
Proof.
  intros HI. unfold processInsertRequest.
  intros (s1 & H1 & (s2 & H2 & ([gs s3] & H3 & H4)%bind_Ok)%bind_Ok)%bind_Ok.
  assert (HI1 : I s1).
  { unfold insert_prepare_parent in H1.
    destruct (match getFieldValue _ _ _ with [] => true | _ => _ end).
    - destruct (_ || _); [by eapply steps_modifyFields | done].
    - by injection H1 as <-. }
  assert (HI2 : I s2).
  { unfold insert_fill in H2. destruct (fname path); [done|].
    destruct (List.last _ _); [done| |by injection H2 as <-].
    destruct (0 <? _); [by eapply steps_fillWithNones | by injection H2 as <-]. }
  assert (HI3 : I s3).
  { unfold insert_enumerate in H3.
    apply bind_Ok in H3 as (max & _ & H3).
    destruct max as [m|].
    - destruct (fname path !! _) as [[| |]|]; try done.
      + apply bind_Ok in H3 as (sr & Hr & (gs' & _ & [= _ <-])%bind_Ok).
        by eapply steps_renumber.
      + by apply bind_Ok in H3 as (gs' & _ & [= _ <-]).
    - by apply bind_Ok in H3 as (gs' & _ & [= _ <-]). }
  revert H4. apply foldM_preserves; [|done].
  intros f t t' _. apply I_set.
Qed.

Lemma steps_processDeleteRequest fields s s' :
  (∀ s, I s → I (deleteSpecification id s)) →
  I s → processDeleteRequest id fields s = Ok s' → I s'.
Proof.
  intros Hspec. destruct fields as [fs|]; simpl.
  - apply foldM_preserves. intros f t t' _. apply steps_deleteField.
  - intros HI. unfold _deleteObject.
    intros (s1 & Hloop & [= <-])%bind_Ok. apply Hspec.
    revert Hloop. apply foldM_preserves; [|done].
    intros f t t' _. apply steps_deleteField.
Qed.

End Primitives.

(** A property of the store that the three steps keep for every object,
    and that the removal of the specification of an object, the allocation
    of an id and the repair keep, is kept by every request. *)
Lemma steps_processRequest {P : Predicates} {E : EngineSql} (I : DB → Prop) :
  (∀ id f s s', I s → _setFieldValue id f s = Ok s' → I s') →
  (∀ id fc cond t s s',
     I s → deleteValues_type id fc cond t s = Ok s' → I s') →
  (∀ id cond col col_val shift f t s s',
     I s → renumberList_type id cond col col_val shift f t s = Ok s' → I s') →
  (∀ id s, I s → I (deleteSpecification id s)) →
  (∀ s, I s → I (Engine.getNewId s).2) →
  (∀ s, I s → I (repairSupportTables s)) →
  ∀ request s response s',
    I s → processRequest request s = Ok (response, s') → I s'.
Proof.
  intros Hset Hdel Hren Hspec Hnew Hrep request s response s' HI.
  destruct request; simpl.
  - intros ([new_id s1] & H & [= _ <-])%bind_Ok.
    unfold processCreateRequest in H.
    destruct (Engine.getNewId s) as [nid s0] eqn:Hn.
    apply bind_Ok in H as (s2 & H & [= <- <-]).
    specialize (Hnew s HI). rewrite Hn in Hnew.
    exact (steps_modifyFields nid I (Hset nid) (Hdel nid)
             _ _ _ _ _ Hnew H).
  - intros (s1 & H & [= _ <-])%bind_Ok.
    exact (steps_modifyFields id I (Hset id) (Hdel id)
             _ _ _ _ _ HI H).
  - intros (s1 & H & [= _ <-])%bind_Ok.
    exact (steps_processInsertRequest id I (Hset id) (Hdel id) (Hren id)
             _ _ _ _ _ HI H).
  - by intros (fs & H & [= _ <-])%bind_Ok.
  - intros (s1 & H & [= _ <-])%bind_Ok.
    exact (steps_processDeleteRequest id I (Hdel id) (Hren id)
             _ _ _ (Hspec id) HI H).
  - by intros [= _ <-].
  - by intros [= _ <-].
  - by intros (es & H & [= _ <-])%bind_Ok.
  - intros [= _ <-]. by apply Hrep.
Qed.

Lemma steps_run {P : Predicates} {E : EngineSql} (I : DB → Prop) :
  (∀ request s response s',
     I s → processRequest request s = Ok (response, s') → I s') →
  ∀ requests s, I s → I (run requests s).
Proof.
  intros Hreq requests.
  induction requests as [|r rest IH]; intros s HI; simpl; [done|].
  destruct (processRequest r s) as [[resp s']|e] eqn:Hr.
  - apply IH. by eapply Hreq.
  - by apply IH.
Qed.

(** ** One counter for every field and type of an object *)

Section SpecUnique.

Context {P : Predicates}.

Lemma NoDup_map_filter {A B : Type} (key : A → B) (f : A → bool) (l : list A) :
  NoDup (map key l) → NoDup (map key (List.filter f l)).
Proof.
  induction l as [|x l IH]; simpl; [done|].
  intros [Hnotin Hnd]%NoDup_cons. destruct (f x); simpl; [|by apply IH].
  apply NoDup_cons. split; [|by apply IH].
  intros Hin%list_elem_of_In. apply Hnotin, list_elem_of_In.
  apply in_map_iff in Hin as (y & Hy & [Hin _]%filter_In).
  apply in_map_iff. by exists y.
Qed.

Lemma map_key_map {A B : Type} (key : A → B) (g : A → A) (l : list A) :
  (∀ x, key (g x) = key x) → map key (map g l) = map key l.
Proof.
  intros Hg. rewrite map_map. apply map_ext. intros x. apply Hg.
Qed.

Lemma increaseRefcount_unique id field s :
  spec_unique s → spec_unique (increaseRefcount id field s).
Proof.
  intros Hu. unfold spec_unique.
  destruct (increaseRefcount_spec id field s) as [_ [[Hnew ->]|[_ ->]]].
  - rewrite map_app. apply NoDup_app. split; [done|]. split.
    + intros x Hx%list_elem_of_In Hin%list_elem_of_In.
      destruct Hin as [<-|[]].
      apply in_map_iff in Hx as (row & [= Hid Hf Ht] & Hrow).
      apply Hnew. exists row. unfold spec_key. by rewrite Hf, Ht.
    + apply NoDup_singleton.
  - rewrite map_key_map; [done|].
    intros x. by destruct (spec_sel_t _ _ _ x).
Qed.

Lemma setFieldValue_unique id field s s' :
  spec_unique s → _setFieldValue id field s = Ok s' → spec_unique s'.
Proof.
  intros Hu [Hspec _]%setFieldValue_effect.
  unfold spec_unique. rewrite Hspec. by apply increaseRefcount_unique.
Qed.

Lemma deleteValues_type_unique id fc cond t s s' :
  spec_unique s → deleteValues_type id fc cond t s = Ok s' → spec_unique s'.
Proof.
  intros Hu H. apply deleteValues_type_effect in H. cbv zeta in H.
  destruct H as [[_ ->]|(_ & (row & rest & _ & Hspec) & _)]; [done|].
  unfold spec_unique. rewrite Hspec. destruct (_ =? _).
  - by apply NoDup_map_filter.
  - rewrite map_key_map; [done|].
    intros x. by destruct (spec_sel_t _ _ _ x).
Qed.

Lemma renumberList_type_unique id cond col col_val shift field t s s' :
  spec_unique s →
  renumberList_type id cond col col_val shift field t s = Ok s' →
  spec_unique s'.
Proof.
  intros Hu [Hspec _]%renumberList_type_same.
  unfold spec_unique. by rewrite Hspec.
Qed.

Lemma deleteSpecification_unique id s :
  spec_unique s → spec_unique (deleteSpecification id s).
Proof. apply NoDup_map_filter. Qed.

Lemma map_flat_map {A B C : Type} (g : B → C) (f : A → list B) (l : list A) :
  map g (flat_map f l) = flat_map (λ a, map g (f a)) l.
Proof.
  induction l as [|a l IH]; simpl; [done|]. by rewrite map_app, IH.
Qed.

(** The lists made from the entries of a dictionary do not overlap when
    every element tells the key of its entry. *)
Lemma NoDup_flat_map_keys {K V B : Type} (π : B → K) (f : K * V → list B)
  (d : list (K * V)) :
  NoDup d.*1 →
  (∀ e b, In e d → In b (f e) → π b = e.1) →
  (∀ e, In e d → NoDup (f e)) →
  NoDup (flat_map f d).
Proof.
  induction d as [|e d IH]; simpl; [constructor|].
  intros [Hnotin Hnd]%NoDup_cons Hπ Hf.
  apply NoDup_app. split; [apply Hf; by left|]. split.
  - intros b Hb%list_elem_of_In Hin%list_elem_of_In.
    apply in_flat_map in Hin as (e' & He' & Hb').
    apply Hnotin, list_elem_of_In, in_map_iff. exists e'. split; [|done].
    rewrite <- (Hπ e b) by (by left || done).
    symmetry. apply Hπ; [by right | done].
  - apply IH; [done| |].
    + intros e' b He'. apply Hπ. by right.
    + intros e' He'. apply Hf. by right.
Qed.

Lemma NoDup_map_inj_on {A B : Type} (g : A → B) (l : list A) :
  (∀ x y, In x l → In y l → g x = g y → x = y) → NoDup l → NoDup (map g l).
Proof.
  induction l as [|x l IH]; simpl; [constructor|].
  intros Hinj [Hnotin Hnd]%NoDup_cons.
  apply NoDup_cons. split.
  - intros Hin%list_elem_of_In. apply in_map_iff in Hin as (y & Hy & Hin).
    apply Hnotin, list_elem_of_In.
    rewrite (Hinj x y); [done|by left|by right|done].
  - apply IH; [|done]. intros a b Ha Hb. apply Hinj; by right.
Qed.

Lemma flatten_refs_unique d :
  refs_wf d → NoDup (map spec_id_key (flatten_refs d)).
Proof.
  intros [Hnd HF]. unfold flatten_refs. rewrite map_flat_map.
  apply (NoDup_flat_map_keys fst); [done| |].
  - intros [obj_id names] b _ Hb. simpl.
    rewrite map_flat_map in Hb.
    apply in_flat_map in Hb as ([n types] & _ & Hb).
    rewrite map_map in Hb.
    by apply in_map_iff in Hb as ([t c] & <- & _).
  - intros [obj_id names] Hin.
    pose proof (proj1 (List.Forall_forall _ _) HF _ Hin) as [Hnd1 HF1].
    simpl in Hnd1, HF1. rewrite map_flat_map.
    apply (NoDup_flat_map_keys (λ b, b.2.1)); [done| |].
    + intros [n types] b _ Hb. simpl. rewrite map_map in Hb.
      by apply in_map_iff in Hb as ([t c] & <- & _).
    + intros [n types] Hn.
      pose proof (proj1 (List.Forall_forall _ _) HF1 _ Hn) as [Hnd2 _].
      simpl in Hnd2. rewrite map_map.
      assert (Heq : map (λ x : type_tag * Z,
                           spec_id_key (let '(t, c) := x in
                                        mkSpecRow obj_id n t c)) types
                    = map (λ t, (obj_id, (n, t))) types.*1).
      { rewrite map_map. apply map_ext. by intros [t c]. }
      rewrite Heq. apply NoDup_map_inj_on; [|done].
      by intros x y _ _ [= ->].
Qed.

Lemma repair_unique s : spec_unique (repairSupportTables s).
Proof.
  unfold repairSupportTables, count_refs.
  destruct (scan_tables (map_to_list (field_tables s)) [] refs_wf_nil
              (NoDup_fst_map_to_list _)) as [Hwf _].
  cbv zeta in Hwf. by apply flatten_refs_unique.
Qed.

End SpecUnique.

Section SpecUniqueInvariant.

Context {P : Predicates} {E : EngineSql}.

(** X1: the specification table never holds two rows for the same
    object, field and type.  This holds in the empty store, every request
    that completes keeps it, the repair establishes it whatever the table
    held, and so it holds after every batch of requests run on the empty
    store. *)
Theorem spec_rows_unique_invariant :
  spec_unique empty_db
  ∧ (∀ request s response s',
       spec_unique s → processRequest request s = Ok (response, s') →
       spec_unique s')
  ∧ (∀ s, spec_unique (processRepairRequest s))
  ∧ (∀ requests, spec_unique (run requests empty_db)).
Proof.
  assert (Hreq : ∀ request s response s',
            spec_unique s → processRequest request s = Ok (response, s') →
            spec_unique s').
  { apply steps_processRequest.
    - intros id f s s'. apply setFieldValue_unique.
    - intros id fc cond t s s'. apply deleteValues_type_unique.
    - intros id cond col col_val shift f t s s'.
      apply renumberList_type_unique.
    - intros id s. apply deleteSpecification_unique.
    - by intros s.
    - intros s _. apply repair_unique. }
  split; [constructor|]. split; [exact Hreq|].
  split; [apply repair_unique|].
  intros requests. apply steps_run; [exact Hreq | constructor].
Qed.

End SpecUniqueInvariant.

(** ** The life cycle of the tables *)

Section TableLifecycle.

Context {P : Predicates}.

(** What [_setFieldValue] does to the set of tables. *)
Lemma setFieldValue_tables id field s s' :
  _setFieldValue id field s = Ok s' →
  field_tables s'
  = <[name_str field :=
        rows_of (name_str field) s
        ++ [mkRow id (fvalue field) (columns (fname field))]]>
      (field_tables s).
Proof.
  unfold _setFieldValue, addValueRecord.
  set (s1 := assureFieldTableExists field s).
  destruct (increaseRefcount_spec id field s1) as [Htab _].
  assert (Hrows : Engine.tableRows (name_str field)
                    (increaseRefcount id field s1)
                  = Ok (rows_of (name_str field) s)).
  { unfold Engine.tableRows. rewrite Htab. apply tableRows_assure. }
  rewrite Hrows. simpl. intros [= <-]. simpl. rewrite Htab.
  subst s1. unfold assureFieldTableExists, Engine.createTable.
  destruct (negb _); simpl; [|done]. apply insert_insert_eq.
Qed.

Lemma setFieldValue_nonempty id field s s' :
  tables_nonempty s → _setFieldValue id field s = Ok s' → tables_nonempty s'.
Proof.
  intros Hne Htab%setFieldValue_tables k rows. rewrite Htab.
  destruct (decide (name_str field = k)) as [<-|Hk].
  - rewrite lookup_insert_eq. intros [= <-]. by destruct (rows_of _ s).
  - rewrite lookup_insert_ne by done. apply Hne.
Qed.

(** What one round of [deleteValues] does to the set of tables. *)
Lemma deleteValues_type_tables id fc cond t s s' :
  deleteValues_type id fc cond t s = Ok s' →
  let k := name_str (with_type fc t) in
  let rest := List.filter (λ r, negb (row_sel id cond r)) (rows_of k s) in
  field_tables s' = field_tables s
  ∨ field_tables s'
    = if bool_decide (rest = [])
      then delete k (field_tables s)
      else <[k := rest]> (field_tables s).
Proof.
  intros H k rest. unfold deleteValues_type in H. fold k in H.
  apply bind_Ok in H as (rows & Hrows & H).
  pose proof (rows_of_tableRows _ _ _ Hrows) as Hr.
  subst rest. rewrite Hr.
  destruct (0 <? _); [|left; by injection H as <-].
  right. apply bind_Ok in H as (s1 & Hdec & H).
  assert (Ht1 : field_tables s1 = field_tables s).
  { unfold decreaseRefcount in Hdec.
    destruct (map s_refcount _) as [|r l]; [done|].
    destruct (r =? _); by injection Hdec as <-. }
  apply bind_Ok in H as (empty & Hempty & [= <-]).
  unfold Engine.tableIsEmpty in Hempty.
  apply bind_Ok in Hempty as (rows2 & Hrows2 & [= <-]).
  unfold Engine.tableRows, Engine.setTableRows in Hrows2. simpl in Hrows2.
  rewrite lookup_insert_eq in Hrows2. injection Hrows2 as <-.
  destruct (bool_decide _); simpl; rewrite Ht1; [|done].
  apply delete_insert_eq.
Qed.

Lemma deleteValues_type_nonempty id fc cond t s s' :
  tables_nonempty s → deleteValues_type id fc cond t s = Ok s' →
  tables_nonempty s'.
Proof.
  intros Hne Htab%deleteValues_type_tables k rows. cbv zeta in Htab.
  destruct Htab as [->| ->]; [apply Hne|].
  destruct (bool_decide _) eqn:He.
  - intros [_ Hl]%lookup_delete_Some. by apply (Hne k).
  - apply bool_decide_eq_false in He.
    destruct (decide (name_str (with_type fc t) = k)) as [<-|Hk].
    + rewrite lookup_insert_eq. by intros [= <-].
    + rewrite lookup_insert_ne by done. apply Hne.
Qed.

Lemma renumberList_type_nonempty id cond col col_val shift field t s s' :
  tables_nonempty s →
  renumberList_type id cond col col_val shift field t s = Ok s' →
  tables_nonempty s'.
Proof.
  intros Hne. unfold renumberList_type.
  intros (rows & Hrows & [= <-])%bind_Ok k rows'. simpl.
  unfold Engine.tableRows in Hrows.
  destruct (field_tables s !! name_str (with_type field t)) as [rows0|] eqn:Hl;
    [|done]. injection Hrows as ->.
  destruct (decide (name_str (with_type field t) = k)) as [<-|Hk].
  - rewrite lookup_insert_eq. intros [= <-].
    pose proof (Hne _ _ Hl). by destruct rows.
  - rewrite lookup_insert_ne by done. apply Hne.
Qed.

(** In a consistent store without an empty table, the tables are those of
    the rows of the specification table. *)
Lemma lifecycle_of_invariants s :
  store_ok s → tables_nonempty s → table_lifecycle s.
Proof.
  intros Hok Hne k. split.
  - intros [rows Hl]. pose proof (Hne k rows Hl) as Hrows.
    destruct rows as [|r rows]; [done|].
    destruct Hok as [_ Hcomp].
    destruct (Hcomp k (r_id r)) as (row & Hin & _ & Hk).
    + unfold rows_of, count_id. rewrite Hl. simpl. rewrite Z.eqb_refl.
      simpl. lia.
    + by exists row.
  - intros (row & Hin & <-).
    destruct (store_ok_consistent s Hok row Hin) as (rows & Hl & _).
    by exists rows.
Qed.

End TableLifecycle.

Section TableLifecycleInvariant.

Context {P : Predicates} {E : EngineSql}.

(** X2: the life cycle of the per-field tables.  No request leaves
    a table without rows: a table is created when its first row is
    written and dropped when its last row is deleted.  Together with the
    invariant of the counters this gives, after every batch of requests
    run on the empty store: a table exists exactly when a row of the
    specification table refers to it. *)
Theorem table_lifecycle_invariant :
  tables_nonempty empty_db
  ∧ (∀ request s response s',
       tables_nonempty s → processRequest request s = Ok (response, s') →
       tables_nonempty s')
  ∧ (∀ s, store_ok s → tables_nonempty s → table_lifecycle s)
  ∧ (∀ requests, table_lifecycle (run requests empty_db)).
Proof.
  assert (Hreq : ∀ request s response s',
            tables_nonempty s → processRequest request s = Ok (response, s') →
            tables_nonempty s').
  { apply steps_processRequest.
    - intros id f s s'. apply setFieldValue_nonempty.
    - intros id fc cond t s s'. apply deleteValues_type_nonempty.
    - intros id cond col col_val shift f t s s'.
      apply renumberList_type_nonempty.
    - by intros id s.
    - by intros s.
    - by intros s. }
  assert (Hempty : tables_nonempty empty_db).
  { intros k rows. simpl. by rewrite lookup_empty. }
  split; [exact Hempty|]. split; [exact Hreq|].
  split; [apply lifecycle_of_invariants|].
  intros requests. apply lifecycle_of_invariants.
  - apply run_ok, store_ok_empty.
  - by apply steps_run.
Qed.

End TableLifecycleInvariant.

(** ** Requests on one object and the other objects *)

Section Isolation.

Context {P : Predicates}.

Lemma filter_andb {A : Type} (a b : A → bool) (l : list A) :
  List.filter (λ x, a x && b x) l = List.filter b (List.filter a l).
Proof.
  induction l as [|x l IH]; simpl; [done|].
  destruct (a x); simpl; [|done]. destruct (b x); by rewrite IH.
Qed.

Lemma filter_filter_neg {A : Type} (a b : A → bool) (l : list A) :
  (∀ x, a x = true → b x = true) →
  List.filter a (List.filter b l) = List.filter a l.
Proof.
  intros Hab. induction l as [|x l IH]; simpl; [done|].
  destruct (b x) eqn:Hb; simpl.
  - destruct (a x); by rewrite IH.
  - destruct (a x) eqn:Ha; [|done]. apply Hab in Ha. congruence.
Qed.

Lemma filter_map_same {A : Type} (a : A → bool) (g : A → A) (l : list A) :
  (∀ x, a (g x) = a x) → (∀ x, a x = true → g x = x) →
  List.filter a (map g l) = List.filter a l.
Proof.
  intros Hag Hg. induction l as [|x l IH]; simpl; [done|].
  rewrite Hag. destruct (a x) eqn:Ha; [|done]. by rewrite Hg, IH.
Qed.

Lemma same_object_refl id s : same_object id s s.
Proof. by split. Qed.

Lemma same_object_trans id s1 s2 s3 :
  same_object id s1 s2 → same_object id s2 s3 → same_object id s1 s3.
Proof.
  intros [H1 H2] [H3 H4]. split; [congruence|].
  intros k. by rewrite H4, H2.
Qed.

Lemma eqb_other (a id id' : Z) :
  id' ≠ id → (a =? id') = true → (a =? id) = false.
Proof. intros Hne ->%Z.eqb_eq. by apply Z.eqb_neq. Qed.

Lemma spec_sel_t_other id id' n t x :
  id' ≠ id → (s_id x =? id') = true → spec_sel_t id n t x = false.
Proof.
  intros Hne Hx. unfold spec_sel_t, spec_sel.
  by rewrite (eqb_other _ id id').
Qed.

Lemma row_sel_other id id' cond r :
  id' ≠ id → (r_id r =? id') = true → row_sel id cond r = false.
Proof.
  intros Hne Hx. unfold row_sel. by rewrite (eqb_other _ id id').
Qed.

Lemma setFieldValue_other id id' field s s' :
  id' ≠ id → _setFieldValue id field s = Ok s' → same_object id' s s'.
Proof.
  intros Hne [Hspec Hrows]%setFieldValue_effect. split.
  - rewrite Hspec.
    destruct (increaseRefcount_spec id field s) as [_ [[_ ->]|[_ ->]]].
    + rewrite List.filter_app. simpl.
      rewrite (proj2 (Z.eqb_neq id id')) by done. apply app_nil_r.
    + apply filter_map_same.
      * intros x. by destruct (spec_sel_t _ _ _ x).
      * intros x Hx. by rewrite (spec_sel_t_other id id').
  - intros k. rewrite Hrows. destruct (decide _); [|done].
    rewrite List.filter_app. simpl.
    rewrite (proj2 (Z.eqb_neq id id')) by done. apply app_nil_r.
Qed.

Lemma deleteValues_type_other id id' fc cond t s s' :
  id' ≠ id → deleteValues_type id fc cond t s = Ok s' → same_object id' s s'.
Proof.
  intros Hne H. apply deleteValues_type_effect in H. cbv zeta in H.
  destruct H as [[_ ->]|(_ & (row & rest & _ & Hspec) & Hrows)];
    [apply same_object_refl|].
  split.
  - rewrite Hspec. destruct (_ =? _).
    + apply filter_filter_neg. intros x Hx.
      by rewrite (spec_sel_t_other id id').
    + apply filter_map_same.
      * intros x. by destruct (spec_sel_t _ _ _ x).
      * intros x Hx. by rewrite (spec_sel_t_other id id').
  - intros k. rewrite Hrows. destruct (decide _) as [<-|]; [|done].
    apply filter_filter_neg. intros x Hx.
    by rewrite (row_sel_other id id').
Qed.

Lemma renumberList_type_other id id' cond col col_val shift field t s s' :
  id' ≠ id →
  renumberList_type id cond col col_val shift field t s = Ok s' →
  same_object id' s s'.
Proof.
  intros Hne. unfold renumberList_type.
  intros (rows & Hrows%rows_of_tableRows & [= <-])%bind_Ok.
  split; [done|]. intros k. rewrite rows_of_setTableRows.
  destruct (decide _) as [<-|]; [|done]. rewrite Hrows.
  apply filter_map_same.
  - intros x. by destruct (_ && _).
  - intros x Hx. by rewrite (row_sel_other id id').
Qed.

Lemma deleteSpecification_other id id' s :
  id' ≠ id → same_object id' s (deleteSpecification id s).
Proof.
  intros Hne. split; [|done]. simpl.
  apply filter_filter_neg. intros x Hx. by rewrite (eqb_other _ id id').
Qed.

(** *** What a read depends on *)

Lemma getFieldValue_rows_of id field s :
  getFieldValue id field s
  = map (λ r, {| fname := getDeterminedName (fname field) (r_cols r);
                 ftype := ftype field;
                 fvalue := r_value r |})
      (List.filter (λ r, cond_holds (columns (fname field)) (r_cols r))
         (List.filter (λ r, r_id r =? id) (rows_of (name_str field) s))).
Proof.
  unfold getFieldValue, Engine.tableExists, Engine.tableRows, rows_of.
  rewrite <- filter_andb.
  destruct (field_tables s !! name_str field) as [rows|] eqn:Hl; simpl; done.
Qed.

Lemma getFieldValue_same id field s s' :
  same_object id s s' → getFieldValue id field s' = getFieldValue id field s.
Proof.
  intros [_ Hrows]. by rewrite !getFieldValue_rows_of, Hrows.
Qed.

Lemma getFieldsInfo_same id masks s s' :
  same_object id s s' → getFieldsInfo id masks s' = getFieldsInfo id masks s.
Proof.
  intros [Hspec _]. unfold getFieldsInfo, getRawFieldsInfo.
  by rewrite !filter_andb, Hspec.
Qed.

Lemma read_result_list_same id path masks s s' :
  same_object id s s' →
  read_result_list id path masks s' = read_result_list id path masks s.
Proof.
  intros Hsame. unfold read_result_list.
  rewrite (getFieldsInfo_same id _ s s') by done.
  destruct (getFieldsInfo _ _ s) as [fl|e]; simpl; [|done].
  f_equal. apply flat_map_ext. intros f. by apply getFieldValue_same.
Qed.

Lemma processReadRequest_same id path masks s s' :
  same_object id s s' →
  processReadRequest id path masks s' = processReadRequest id path masks s.
Proof.
  intros Hsame. unfold processReadRequest.
  by rewrite (read_result_list_same id _ _ s s').
Qed.

Lemma objectExists_same id s s' :
  same_object id s s' → objectExists id s' = objectExists id s.
Proof. intros [Hspec _]. unfold objectExists. by rewrite Hspec. Qed.

End Isolation.

Section IsolationTheorem.

Context {P : Predicates} {E : EngineSql}.

Lemma same_object_steps id id' s0 :
  id' ≠ id →
  (∀ f s s', same_object id' s0 s → _setFieldValue id f s = Ok s' →
             same_object id' s0 s')
  ∧ (∀ fc cond t s s',
       same_object id' s0 s → deleteValues_type id fc cond t s = Ok s' →
       same_object id' s0 s')
  ∧ (∀ cond col col_val shift f t s s',
       same_object id' s0 s →
       renumberList_type id cond col col_val shift f t s = Ok s' →
       same_object id' s0 s')
  ∧ (∀ s, same_object id' s0 s → same_object id' s0 (deleteSpecification id s)).
Proof.
  intros Hne. split_all.
  - intros f s s' H0 H. eapply same_object_trans; [exact H0|].
    by eapply setFieldValue_other.
  - intros fc cond t s s' H0 H. eapply same_object_trans; [exact H0|].
    by eapply deleteValues_type_other.
  - intros cond col col_val shift f t s s' H0 H.
    eapply same_object_trans; [exact H0|].
    by eapply renumberList_type_other.
  - intros s H0. eapply same_object_trans; [exact H0|].
    by apply deleteSpecification_other.
Qed.

(** X3: a request changes nothing of the objects it does not write
    to.  After a create, modify, insert or delete request that completes
    (and after any read, search, object-exists or dump), every object
    other than the one written to has the rows it had, in the
    specification table and in every table; it exists as before and
    every read of it returns what it returned before. *)
Theorem requests_leave_other_objects
  (request : Request) (s : DB) (response : Response) (s' : DB) (id' : Z) :
  processRequest request s = Ok (response, s') →
  request ≠ RepairRequest →
  written_object request s ≠ Some id' →
  same_object id' s s'
  ∧ objectExists id' s' = objectExists id' s
  ∧ ∀ path masks,
      processReadRequest id' path masks s'
      = processReadRequest id' path masks s.
Proof.
  intros H Hrep Hw.
  assert (Hsame : same_object id' s s').
  { destruct request; simpl in H, Hw.
    - apply bind_Ok in H as ([new_id s1] & H & [= _ <-]).
      unfold processCreateRequest, Engine.getNewId in H.
      apply bind_Ok in H as (s2 & H & [= <- <-]).
      assert (Hne : id' ≠ next_id s) by congruence.
      destruct (same_object_steps (next_id s) id' s Hne)
        as (Hset & Hdel & _).
      refine (steps_modifyFields _ _ Hset Hdel _ _ _ _ _ _ H).
      by split.
    - apply bind_Ok in H as (s1 & H & [= _ <-]).
      assert (Hne : id' ≠ id) by congruence.
      destruct (same_object_steps id id' s Hne) as (Hset & Hdel & _).
      exact (steps_modifyFields _ _ Hset Hdel _ _ _ _ _
               (same_object_refl _ _) H).
    - apply bind_Ok in H as (s1 & H & [= _ <-]).
      assert (Hne : id' ≠ id) by congruence.
      destruct (same_object_steps id id' s Hne) as (Hset & Hdel & Hren & _).
      exact (steps_processInsertRequest _ _ Hset Hdel Hren _ _ _ _ _
               (same_object_refl _ _) H).
    - apply bind_Ok in H as (fs & _ & [= _ <-]). apply same_object_refl.
    - apply bind_Ok in H as (s1 & H & [= _ <-]).
      assert (Hne : id' ≠ id) by congruence.
      destruct (same_object_steps id id' s Hne) as (_ & Hdel & Hren & Hspec).
      exact (steps_processDeleteRequest _ _ Hdel Hren _ _ _ Hspec
               (same_object_refl _ _) H).
    - injection H as _ <-. apply same_object_refl.
    - injection H as _ <-. apply same_object_refl.
    - apply bind_Ok in H as (es & _ & [= _ <-]). apply same_object_refl.
    - done. }
  split; [done|]. split.
  - by apply objectExists_same.
  - intros path masks. by apply processReadRequest_same.
Qed.

End IsolationTheorem.

(** ** Which errors the logic layer can raise *)

Section ErrorClasses.

Context {P : Predicates}.

Lemma engine_only_getMaxListIndex id field s :
  engine_only (getMaxListIndex id field s).
Proof.
  unfold getMaxListIndex.
  destruct (getLastListColumn _) as [[col cv]|]; [|apply engine_only_Err].
  apply engine_only_bind; [apply engine_only_getFieldsInfo|]. intros flds _.
  apply engine_only_bind; [|intros m _; apply engine_only_Ok].
  apply engine_only_foldM. intros fld m _.
  apply engine_only_bind; [apply engine_only_tableRows|]. intros rows _.
  destruct (max_col _ _); apply engine_only_Ok.
Qed.

Lemma engine_only_fillWithNones id path s :
  engine_only (_fillWithNones id path s).
Proof.
  apply engine_only_bind; [apply engine_only_getMaxListIndex|]. intros m _.
  destruct (List.last _ _); try apply engine_only_Err.
  apply engine_only_foldM. intros i0 s' _. apply engine_only_setFieldValue.
Qed.

Lemma engine_only_renumberList id target field shift s :
  engine_only (renumberList id target field shift s).
Proof.
  unfold renumberList.
  destruct (getLastListColumn _) as [[col cv]|]; [|apply engine_only_Err].
  apply engine_only_foldM. intros t s' _.
  apply engine_only_bind; [apply engine_only_tableRows|]. intros rows _.
  apply engine_only_Ok.
Qed.

Lemma engine_only_renumber id target shift s :
  engine_only (_renumber id target shift s).
Proof.
  apply engine_only_foldM. intros fld s' _.
  apply engine_only_bind; [|intros s1 _; apply engine_only_renumberList].
  destruct (shift <? 0);
    [apply engine_only_deleteValues | apply engine_only_Ok].
Qed.

Lemma engine_only_deleteField id field s :
  engine_only (_deleteField id field s).
Proof.
  unfold _deleteField. destruct (_ && _).
  - apply engine_only_renumber.
  - apply engine_only_delete_loop.
Qed.

Lemma engine_only_deleteObject id s : engine_only (_deleteObject id s).
Proof.
  apply engine_only_bind; [|intros s1 _; apply engine_only_Ok].
  apply engine_only_foldM. intros f s' _. apply engine_only_deleteField.
Qed.

Lemma engine_only_createHierarchy id name_copy : ∀ tmp s,
  engine_only (_createHierarchy id tmp name_copy s).
Proof.
  induction name_copy as [|next rest IH]; intros tmp s; simpl;
    [apply engine_only_Ok|].
  apply engine_only_bind.
  - destruct (_ && _);
      [apply engine_only_fillWithNones | apply engine_only_Ok].
  - intros s1 _.
    apply engine_only_bind; [apply engine_only_setFieldValue|].
    intros s2 _. apply IH.
Qed.

Lemma engine_only_checkForConflicts id field s :
  engine_only (_checkForConflicts id field true s).
Proof.
  unfold _checkForConflicts. generalize (@nil name_elem) as tmp.
  induction (fname field) as [|next rest IH]; intros tmp; simpl;
    [apply engine_only_Ok|].
  destruct (_ =? 0)%nat; [apply engine_only_Ok|].
  destruct (_ && _); [|apply IH].
  apply engine_only_bind; [apply engine_only_delete_loop|].
  intros s1 _. apply (engine_only_createHierarchy id (next :: rest)).
Qed.

Lemma engine_only_fillAutocreated id rev_name : ∀ s,
  engine_only (_fillAutocreated id rev_name s).
Proof.
  induction rev_name as [|e rest IH]; intros s;
    [apply engine_only_Ok|].
  cbn [_fillAutocreated]. apply engine_only_bind; [|intros s1 _; apply IH].
  destruct (is_int e);
    [apply engine_only_fillWithNones | apply engine_only_Ok].
Qed.

Lemma engine_only_objectHasField id field s :
  engine_only (objectHasField id field s).
Proof.
  unfold objectHasField.
  destruct (_ =? 0)%nat; [apply engine_only_Ok|].
  destruct (_ =? 0)%nat; [apply engine_only_Ok|].
  apply engine_only_bind; [|intros tabs _; apply engine_only_Ok].
  apply engine_only_mapM. intros t _. apply engine_only_tableRows.
Qed.

Lemma engine_only_modifyFields id path fields s :
  engine_only (_modifyFields id path fields true s).
Proof.
  apply engine_only_bind; [apply engine_only_objectHasField|].
  intros has _.
  apply engine_only_bind; [|intros s1 _; apply engine_only_storeFields].
  destruct has; [apply engine_only_delete_loop|].
  apply engine_only_bind; [apply engine_only_checkForConflicts|].
  intros s1 _. apply engine_only_fillAutocreated.
Qed.

Lemma engine_only_enumerate groups col : ∀ start,
  engine_only (enumerate groups col start).
Proof.
  induction groups as [|g groups IH]; intros start; simpl;
    [apply engine_only_Ok|].
  apply engine_only_bind.
  - apply engine_only_mapM. intros f _. unfold set_name_elem.
    destruct (_ <? _)%nat; [apply engine_only_Ok | apply engine_only_Err].
  - intros g' _. apply engine_only_bind; [apply IH|].
    intros gs _. apply engine_only_Ok.
Qed.

Lemma engine_only_processInsertRequest id path groups s :
  engine_only (processInsertRequest id path groups true s).
Proof.
  apply engine_only_bind.
  { unfold insert_prepare_parent.
    destruct (match getFieldValue _ _ _ with [] => true | _ => _ end);
      [|apply engine_only_Ok].
    rewrite orb_true_r. apply engine_only_modifyFields. }
  intros s1 _. apply engine_only_bind.
  { unfold insert_fill. destruct (fname path); [apply engine_only_Err|].
    destruct (List.last _ _);
      [apply engine_only_Err| |apply engine_only_Ok].
    destruct (0 <? _);
      [apply engine_only_fillWithNones | apply engine_only_Ok]. }
  intros s2 _. apply engine_only_bind.
  { unfold insert_enumerate.
    apply engine_only_bind; [apply engine_only_getMaxListIndex|].
    intros [m|] _.
    - destruct (fname path !! _) as [[| |]|]; try apply engine_only_Err.
      + apply engine_only_bind; [apply engine_only_renumber|]. intros sr _.
        apply engine_only_bind; [apply engine_only_enumerate|].
        intros gs _. apply engine_only_Ok.
      + apply engine_only_bind; [apply engine_only_enumerate|].
        intros gs _. apply engine_only_Ok.
    - apply engine_only_bind; [apply engine_only_enumerate|].
      intros gs _. apply engine_only_Ok. }
  intros [gs s3] _. apply engine_only_foldM.
  intros f s' _. apply engine_only_setFieldValue.
Qed.

(** X4: [StructureError] is raised under [remove_conflicts = False]
    only, and [LogicError] by reads only.  A create, a delete, a modify
    with [remove_conflicts] and an insert with [remove_conflicts] raise
    nothing but faults of the engine or of the interpreter. *)
Theorem writes_raise_engine_faults_only
  (id : Z) (path : Field) (fields : list Field)
  (field_groups : list (list Field)) (targets : option (list Field))
  (s : DB) (e : error) :
  (processCreateRequest fields s = Err e → e = EngineError)
  ∧ (processDeleteRequest id targets s = Err e → e = EngineError)
  ∧ (processModifyRequest id path fields true s = Err e → e = EngineError)
  ∧ (processInsertRequest id path field_groups true s = Err e
     → e = EngineError).
Proof.
  split_all.
  - unfold processCreateRequest, Engine.getNewId.
    intros [H|(s1 & _ & ?)]%bind_Err; [|done].
    by apply engine_only_modifyFields in H.
  - destruct targets as [fs|]; simpl.
    + apply engine_only_foldM. intros f s' _. apply engine_only_deleteField.
    + apply engine_only_deleteObject.
  - apply engine_only_modifyFields.
  - apply engine_only_processInsertRequest.
Qed.

(** X5: without [remove_conflicts], [_checkForConflicts] changes
    nothing: it returns with the store as it was, or raises
    [StructureError]. *)
Theorem conflict_check_is_read_only (id : Z) (field : Field) (s : DB) :
  _checkForConflicts id field false s = Ok s
  ∨ _checkForConflicts id field false s = Err StructureError.
Proof.
  unfold _checkForConflicts. generalize (@nil name_elem) as tmp.
  induction (fname field) as [|next rest IH]; intros tmp; simpl;
    [by left|].
  destruct (_ =? 0)%nat; [by left|].
  destruct (_ && _); [by right | apply IH].
Qed.

(** X6: an insertion needs a path that ends in an index or in
    [None].  With an empty path ([path.name[-1]] of an empty name) or a
    path that ends in a key (a string compared with [0]),
    [processInsertRequest] raises, whatever the store, the payload and
    [remove_conflicts]. *)
Theorem insert_needs_list_position
  (id : Z) (path : Field) (field_groups : list (list Field))
  (remove_conflicts : bool) (s : DB) :
  is_str (List.last (fname path) (NStr "")) = true →
  ∃ e, processInsertRequest id path field_groups remove_conflicts s = Err e.
Proof.
  intros Hlast. unfold processInsertRequest.
  destruct (insert_prepare_parent id path remove_conflicts s) as [s1|e];
    [|by exists e].
  simpl. unfold insert_fill.
  destruct (fname path) as [|e0 n] eqn:Hn; [by exists EngineError|].
  assert (Hl : List.last (e0 :: n) NWild = List.last (e0 :: n) (NStr "")).
  { clear. revert e0. induction n as [|x n IH]; intros e0; [done|].
    exact (IH x). }
  rewrite Hl. destruct (List.last (e0 :: n) (NStr "")); try done.
  by exists EngineError.
Qed.

End ErrorClasses.

(** ** Objects that exist and objects that do not *)

Section Existence.

Context {P : Predicates}.


Lemma objectExists_false id s :
  objectExists id s = false
  ↔ List.filter (λ r, s_id r =? id) (id_table s) = [].
Proof.
  unfold objectExists.
  destruct (List.filter _ (id_table s)) as [|row l]; simpl.
  - done.
  - split; [|done]. intros H%Z.ltb_ge. lia.
Qed.











End Existence.

(** ** The deletion of an object and the dump *)

Section DeleteAndDump.

Context {P : Predicates} {E : EngineSql}.


Lemma filter_neg_all {A : Type} (a : A → bool) (l : list A) :
  List.filter a l = [] → List.filter (λ x, negb (a x)) l = l.
Proof.
  induction l as [|x l IH]; simpl; [done|].
  destruct (a x); simpl; [done|]. intros H. by rewrite IH.
Qed.



(** X9: the deletion of an object that does not exist completes
    and leaves the store as it was. *)
Theorem delete_absent_object (id : Z) (s : DB) :
  objectExists id s = false → processDeleteRequest id None s = Ok s.
Proof.
  intros Hex%objectExists_false. simpl.
  unfold _deleteObject, getFieldsList.
  assert (Hnil : List.filter (λ r, (s_id r =? id) && true) (id_table s) = []).
  { by rewrite filter_andb, Hex. }
  rewrite Hnil. simpl. f_equal.
  unfold deleteSpecification. rewrite filter_neg_all by done.
  by destruct s.
Qed.



Lemma mapM_total {A B : Type} (f : A → result B) (l : list A) :
  (∀ x, In x l → ∃ y, f x = Ok y) →
  ∃ ys, mapM f l = Ok ys ∧ Forall2 (λ x y, f x = Ok y) l ys.
Proof.
  induction l as [|x l IH]; intros Hf; simpl.
  - exists []. split; [done|constructor].
  - destruct (Hf x) as [y Hy]; [by left|].
    destruct IH as (ys & Hys & HF); [intros z Hz; apply Hf; by right|].
    exists (y :: ys). rewrite Hy. simpl. rewrite Hys. simpl.
    split; [done|]. by constructor.
Qed.


End DeleteAndDump.

(** ** The repair of the specification table *)

Section RepairProperties.


End RepairProperties.

(** ** The statements of a search *)

Section SearchStatements.

Context {E : EngineSql}.

Local Open Scope string_scope.
Local Open Scope list_scope.

Lemma count_char_append c (a b : string) :
  count_char c (a +:+ b) = (count_char c a + count_char c b)%nat.
Proof.
  induction a as [|ch a IH]; [done|].
  change (String ch a +:+ b) with (String ch (a +:+ b)).
  cbn [count_char]. rewrite IH. lia.
Qed.

Lemma tables_of_query condition :
  ∀ q tables values,
    buildSqlQuery_cond condition = Some (q, tables, values) →
    ∀ k, In (FieldTable k) tables → In k (getMentionedFields condition).
Proof.
  induction condition as [[op1|] cmp op2 invert|c1 IH1 o c2 IH2 invert];
    intros q tables values; simpl.
  - destruct invert; intros [= _ <- _] k; simpl; intros H;
      repeat destruct H as [H|H]; try done; injection H as <-; by left.
  - destruct invert; [|done]. intros [= _ <- _] k [H|[]]. done.
  - destruct (buildSqlQuery_cond c1) as [[[q1 t1] v1]|] eqn:H1;
      destruct (buildSqlQuery_cond c2) as [[[q2 t2] v2]|] eqn:H2.
    + intros [= _ <- _] k [H|H]%in_app_iff; apply in_app_iff.
      * left. by eapply IH1.
      * right. by eapply IH2.
    + destruct o; [done|]. intros [= <- <- <-] k H. apply in_app_iff.
      left. by eapply IH1.
    + destruct o; [done|]. intros [= <- <- <-] k H. apply in_app_iff.
      right. by eapply IH2.
    + done.
Qed.

Lemma mentioned_after_update condition existing :
  ∀ k, In k (getMentionedFields (updateCondition condition existing)) →
       k ∈ existing.
Proof.
  induction condition as [[op1|] cmp op2 invert|c1 IH1 o c2 IH2 invert];
    intros k; simpl.
  - destruct (bool_decide _) eqn:Hex; simpl; [|done].
    intros [<-|[]]. by apply bool_decide_eq_true in Hex.
  - done.
  - intros [H|H]%in_app_iff; [by apply IH1 | by apply IH2].
Qed.

(** X12: a search gives the engine only tables that exist: every
    per-field table among the tables of the statement that
    [processSearchRequest] executes exists in the store. *)
Theorem search_uses_existing_tables
  (condition : option Condition) (s : DB)
  (q : string) (tables : list table_ref) (values : list value) :
  search_query condition s = Some (q, tables, values) →
  Forall (table_ref_exists s) tables.
Proof.
  unfold search_query, search_condition. intros H.
  apply List.Forall_forall. intros [|k] Hin; [done|]. simpl.
  destruct condition as [c|]; simpl in H.
  - pose proof (tables_of_query _ _ _ _ H k Hin) as Hm.
    apply mentioned_after_update in Hm.
    apply list_elem_of_In in Hm.
    unfold selectExistingTables in Hm. by apply filter_In in Hm as [_ ?].
  - injection H as _ <- _. by destruct Hin as [|[]].
Qed.

Section SlotCounts.

Hypothesis regexp_op_plain :
  table_slots getRegexpOp = 0%nat ∧ value_slots getRegexpOp = 0%nat.
Hypothesis columns_condition_plain : ∀ n,
  table_slots (columns_condition_sql n) = 0%nat
  ∧ value_slots (columns_condition_sql n) = 0%nat.

Lemma comparisons_plain cmp :
  table_slots (comparisons cmp) = 0%nat
  ∧ value_slots (comparisons cmp) = 0%nat.
Proof. destruct cmp; first [exact regexp_op_plain | done]. Qed.

Lemma slots_of_query condition :
  ∀ q tables values,
    buildSqlQuery_cond condition = Some (q, tables, values) →
    table_slots q = length tables ∧ value_slots q = length values.
Proof.
  unfold table_slots, value_slots.
  induction condition as [[op1|] cmp op2 invert|c1 IH1 o c2 IH2 invert];
    intros q tables values; simpl.
  - destruct (comparisons_plain cmp) as [Hc1 Hc2].
    destruct (columns_condition_plain (fname op1)) as [Hn1 Hn2].
    unfold table_slots, value_slots in *.
    destruct invert; intros [= <- <- <-];
      unfold leaf_base_query, lacking_query;
      rewrite !count_char_append, Hc1, Hc2, Hn1, Hn2; done.
  - destruct invert; [|done]. by intros [= <- <- <-].
  - destruct (buildSqlQuery_cond c1) as [[[q1 t1] v1]|] eqn:H1;
      destruct (buildSqlQuery_cond c2) as [[[q2 t2] v2]|] eqn:H2.
    + destruct (IH1 _ _ _ eq_refl) as [Ha Hb].
      destruct (IH2 _ _ _ eq_refl) as [Hc Hd].
      intros [= <- <- <-].
      rewrite !count_char_append, !length_app, Ha, Hb, Hc, Hd.
      destruct o; simpl; lia.
    + destruct o; [done|]. intros [= <- <- <-]. by apply IH1.
    + destruct o; [done|]. intros [= <- <- <-]. by apply IH2.
    + done.
Qed.

(** X13: a statement of [buildSqlQuery] has one table slot [{}] for
    every table and one value slot [?] for every value it is given to the
    engine with, provided the text of the regexp operator and of the
    columns conditions hold no slot. *)
Theorem statement_slots_match
  (condition : option Condition)
  (q : string) (tables : list table_ref) (values : list value) :
  buildSqlQuery condition = Some (q, tables, values) →
  table_slots q = length tables ∧ value_slots q = length values.
Proof.
  destruct condition as [c|]; simpl.
  - apply slots_of_query.
  - by intros [= <- <- <-].
Qed.

End SlotCounts.

End SearchStatements.

(** ** The propagation of the inversion *)

Section Inversion.

Lemma propagateInversion_as_set b condition :
  _propagateInversion (set_invert condition b)
  = _propagateInversion_as b condition.
Proof. by destruct condition. Qed.

(** The equations of [_propagateInversion], as the source has them. *)
Lemma propagateInversion_equations :
  (∀ operand1 cmp operand2 invert,
     _propagateInversion (Leaf operand1 cmp operand2 invert)
     = Leaf operand1 cmp operand2 invert)
  ∧ (∀ operand1 oper operand2,
       _propagateInversion (Node operand1 oper operand2 true)
       = Node
           (_propagateInversion
              (set_invert operand1 (negb (invert_of operand1))))
           (invert_operator oper)
           (_propagateInversion
              (set_invert operand2 (negb (invert_of operand2))))
           false)
  ∧ (∀ operand1 oper operand2,
       _propagateInversion (Node operand1 oper operand2 false)
       = Node (_propagateInversion operand1) oper
           (_propagateInversion operand2) false).
Proof.
  split; [done|]. split; [|done].
  intros c1 o c2. by rewrite !propagateInversion_as_set.
Qed.

Lemma propagate_at_leaves condition : ∀ b,
  inversion_at_leaves (_propagateInversion_as b condition).
Proof.
  induction condition as [o1 cmp o2 i|c1 IH1 o c2 IH2 i]; intros b;
    simpl; [done|].
  destruct b; simpl; auto.
Qed.

Lemma holds_set_invert truth condition b :
  condition_holds truth (set_invert condition b)
  = xorb (xorb b (invert_of condition)) (condition_holds truth condition).
Proof.
  destruct condition as [o1 cmp o2 i|c1 o c2 i]; simpl;
    by destruct b, i, (_ : bool).
Qed.

Lemma propagate_holds truth condition : ∀ b,
  condition_holds truth (_propagateInversion_as b condition)
  = condition_holds truth (set_invert condition b).
Proof.
  induction condition as [o1 cmp o2 i|c1 IH1 o c2 IH2 i]; intros b;
    simpl; [done|].
  destruct b; simpl; rewrite IH1, IH2, !holds_set_invert.
  - destruct o, (invert_of c1), (invert_of c2),
      (condition_holds truth c1), (condition_holds truth c2); done.
  - destruct o, (invert_of c1), (invert_of c2),
      (condition_holds truth c1), (condition_holds truth c2); done.
Qed.

Lemma propagate_fixed condition :
  inversion_at_leaves condition →
  _propagateInversion_as (invert_of condition) condition = condition.
Proof.
  induction condition as [o1 cmp o2 i|c1 IH1 o c2 IH2 i]; simpl; [done|].
  intros (-> & H1 & H2). by rewrite IH1, IH2.
Qed.

Lemma propagate_mentions condition : ∀ b,
  getMentionedFields (_propagateInversion_as b condition)
  = getMentionedFields condition.
Proof.
  induction condition as [[o1|] cmp o2 i|c1 IH1 o c2 IH2 i]; intros b;
    simpl; try done.
  destruct b; simpl; by rewrite IH1, IH2.
Qed.

(** X14: [_propagateInversion] leaves the inversion at the leaves
    and keeps the meaning of the condition.  No node of the result is
    inverted; under every truth value of the comparisons the result holds
    exactly when the condition does (De Morgan); the function is
    idempotent and changes nothing in a condition without inverted node;
    and the fields the condition mentions stay the same, in their
    order. *)
Theorem propagateInversion_normalises (condition : Condition) :
  inversion_at_leaves (_propagateInversion condition)
  ∧ (∀ truth,
       condition_holds truth (_propagateInversion condition)
       = condition_holds truth condition)
  ∧ _propagateInversion (_propagateInversion condition)
    = _propagateInversion condition
  ∧ (inversion_at_leaves condition → _propagateInversion condition = condition)
  ∧ getMentionedFields (_propagateInversion condition)
    = getMentionedFields condition.
Proof.
  assert (Hself : ∀ c, set_invert c (invert_of c) = c) by (by intros []).
  assert (Hfix : ∀ c, inversion_at_leaves c → _propagateInversion c = c)
    by apply propagate_fixed.
  split; [apply propagate_at_leaves|]. split.
  { intros truth. unfold _propagateInversion.
    by rewrite propagate_holds, Hself. }
  split; [apply Hfix, propagate_at_leaves|].
  split; [apply Hfix|]. apply propagate_mentions.
Qed.

End Inversion.

(** ** The fields of a flattened document *)

Section FlattenStructure.

Import Codec Slots.

Lemma flatten_elems_under (elems : list doc) : ∀ i,
  flatten_elems [] elems i
  = flat_map (λ jx, map (λ f, (NInt jx.1 :: f.1, f.2)) (flattenNode jx.2 []))
      (zip (map (λ n, i + Z.of_nat n) (seq 0 (length elems))) elems).
Proof.
  induction elems as [|x elems IH]; intros i; [done|].
  cbn [flatten_elems length seq map zip zip_with flat_map].
  rewrite Z.add_0_r. f_equal; [apply (flattenNode_under (NInt i))|].
  rewrite IH. rewrite <- seq_shift, map_map. do 2 f_equal.
  apply map_ext. intros n. lia.
Qed.

Lemma flatten_DMap_under items :
  flattenNode (DMap items) []
  = ([], VMap)
    :: flat_map (λ kv, map (λ f, (NStr kv.1 :: f.1, f.2)) (flattenNode kv.2 []))
         items.
Proof.
  rewrite flattenNode_DMap. f_equal. apply flat_map_ext. intros [k x].
  apply (flattenNode_under (NStr k)).
Qed.

Lemma flatten_DList_under elems :
  flattenNode (DList elems) []
  = ([], VList)
    :: flat_map
         (λ jx, map (λ f, (NInt jx.1 :: f.1, f.2)) (flattenNode jx.2 []))
         (zip (map Z.of_nat (seq 0 (length elems))) elems).
Proof.
  rewrite flattenNode_DList, flatten_elems_under. do 3 f_equal.
Qed.

Lemma fst_zip_indices {A : Type} (l : list A) :
  (zip (map Z.of_nat (seq 0 (length l))) l).*1
  = map Z.of_nat (seq 0 (length l)).
Proof. apply fst_zip. by rewrite length_map, length_seq. Qed.

Lemma In_zip_snd {A B : Type} (l : list A) (k : list B) x :
  In x (zip l k) → In x.2 k.
Proof.
  revert k. induction l as [|a l IH]; intros [|b k]; simpl; try done.
  intros [<-|H]; [by left | right; by apply IH].
Qed.

Lemma flatten_head d :
  ∃ rest, flattenNode d [] = ([], root_value d) :: rest.
Proof. destruct d; simpl; by eexists. Qed.

Lemma flatten_determined d :
  Forall (λ f : list name_elem * value, determined f.1) (flattenNode d []).
Proof.
  induction d as [v|items IH|elems IH] using doc_induction.
  - repeat constructor.
  - rewrite flatten_DMap_under. constructor; [constructor|].
    apply List.Forall_forall. intros f (kv & Hkv & Hf)%in_flat_map.
    apply in_map_iff in Hf as (g & <- & Hg). simpl.
    constructor; [done|].
    pose proof (proj1 (List.Forall_forall _ _) IH kv Hkv) as Hc.
    by apply (proj1 (List.Forall_forall _ _) Hc g).
  - rewrite flatten_DList_under. constructor; [constructor|].
    apply List.Forall_forall. intros f (jx & Hjx & Hf)%in_flat_map.
    apply in_map_iff in Hf as (g & <- & Hg). simpl.
    constructor; [done|].
    pose proof (proj1 (List.Forall_forall _ _) IH jx.2 (In_zip_snd _ _ _ Hjx))
      as Hc.
    by apply (proj1 (List.Forall_forall _ _) Hc g).
Qed.

Lemma flatten_parents d :
  ∀ p e rest v,
    In (p ++ e :: rest, v) (flattenNode d []) →
    In (p, container_for e) (flattenNode d []).
Proof.
  induction d as [v0|items IH|elems IH] using doc_induction;
    intros p e rest v.
  - intros [[= H _]|[]]. by destruct p.
  - rewrite flatten_DMap_under.
    intros [[= H _]|H]; [by destruct p|].
    apply in_flat_map in H as (kv & Hkv & Hf).
    apply in_map_iff in Hf as (g & [= Hp Hv] & Hg).
    destruct p as [|e0 p]; simpl in Hp.
    + injection Hp as <- _. by left.
    + injection Hp as <- Hp. right.
      apply in_flat_map. exists kv. split; [done|].
      apply in_map_iff. exists (p, container_for e). split; [done|].
      pose proof (proj1 (List.Forall_forall _ _) IH kv Hkv) as Hc.
      apply (Hc p e rest g.2). rewrite <- Hp. by destruct g.
  - rewrite flatten_DList_under.
    intros [[= H _]|H]; [by destruct p|].
    apply in_flat_map in H as (jx & Hjx & Hf).
    apply in_map_iff in Hf as (g & [= Hp Hv] & Hg).
    destruct p as [|e0 p]; simpl in Hp.
    + injection Hp as <- _. by left.
    + injection Hp as <- Hp. right.
      apply in_flat_map. exists jx. split; [done|].
      apply in_map_iff. exists (p, container_for e). split; [done|].
      pose proof (proj1 (List.Forall_forall _ _) IH jx.2
                    (In_zip_snd _ _ _ Hjx)) as Hc.
      apply (Hc p e rest g.2). rewrite <- Hp. by destruct g.
Qed.

Lemma NoDup_map_cons_paths (e : name_elem)
  (l : list (list name_elem * value)) :
  NoDup l.*1 → NoDup (map (λ f, (e :: f.1, f.2)) l).*1.
Proof.
  intros Hnd.
  assert (Heq : (map (λ f : list name_elem * value, (e :: f.1, f.2)) l).*1
                = map (cons e) l.*1).
  { induction l as [|f l IH]; simpl; [done|]. f_equal. apply IH.
    by apply NoDup_cons in Hnd as [_ ?]. }
  rewrite Heq. apply NoDup_map_inj_on; [|done].
  by intros x y _ _ [= ->].
Qed.

Lemma flatten_paths_unique d :
  keys_unique d → NoDup (flattenNode d []).*1.
Proof.
  induction d as [v|items IH|elems IH] using doc_induction.
  - intros _. simpl. apply NoDup_singleton.
  - intros [Hnd Hch]%keys_unique_DMap. rewrite flatten_DMap_under.
    cbn [fmap list_fmap]. apply NoDup_cons. split.
    + intros Hin%list_elem_of_In. apply in_map_iff in Hin as (f & Hf & Hin).
      apply in_flat_map in Hin as (kv & _ & Hg).
      apply in_map_iff in Hg as (g & <- & _). done.
    + change (list_fmap _ _ fst ?l) with (map fst l).
      rewrite map_flat_map.
      apply (NoDup_flat_map_keys
               (λ p, match p with NStr k :: _ => k | _ => EmptyString end));
        [done| |].
      * intros kv b _ Hb. apply in_map_iff in Hb as (g & <- & Hg).
        by apply in_map_iff in Hg as (h & <- & _).
      * intros kv Hkv.
        apply (NoDup_map_cons_paths (NStr kv.1)).
        apply (proj1 (List.Forall_forall _ _) IH kv Hkv).
        apply (proj1 (List.Forall_forall _ _) Hch kv Hkv).
  - intros Hch%keys_unique_DList. rewrite flatten_DList_under.
    cbn [fmap list_fmap]. apply NoDup_cons. split.
    + intros Hin%list_elem_of_In. apply in_map_iff in Hin as (f & Hf & Hin).
      apply in_flat_map in Hin as (jx & _ & Hg).
      apply in_map_iff in Hg as (g & <- & _). done.
    + change (list_fmap _ _ fst ?l) with (map fst l).
      rewrite map_flat_map.
      apply (NoDup_flat_map_keys
               (λ p, match p with NInt j :: _ => j | _ => 0 end)).
      * rewrite fst_zip_indices. apply NoDup_map_inj_on.
        -- intros x y _ _. lia.
        -- apply NoDup_seq.
      * intros jx b _ Hb. apply in_map_iff in Hb as (g & <- & Hg).
        by apply in_map_iff in Hg as (h & <- & _).
      * intros jx Hjx.
        apply (NoDup_map_cons_paths (NInt jx.1)).
        pose proof (In_zip_snd _ _ _ Hjx) as Hx.
        apply (proj1 (List.Forall_forall _ _) IH jx.2 Hx).
        apply (proj1 (List.Forall_forall _ _) Hch jx.2 Hx).
Qed.

(** X15: the fields [_flattenHierarchy] makes of a document.  The
    first field is the root, with the value of the document or of its
    container; every name is without wildcard and every field has the
    type of its value; for every field, every proper prefix of its name
    is the name of a field that holds the container of the next element
    (a dictionary for a key, a list for an index); and when the
    dictionaries of the document have their keys once, no two fields have
    the same name. *)
Theorem flatten_is_well_formed (d : doc) :
  let fields := _flattenHierarchy d in
  (∃ rest, fields = mkField [] (root_value d) :: rest)
  ∧ Forall (λ f, determined (fname f) ∧ ftype f = type_of (fvalue f)) fields
  ∧ (∀ f p e rest,
       In f fields → fname f = p ++ e :: rest →
       In (mkField p (container_for e)) fields)
  ∧ (keys_unique d → NoDup (map fname fields)).
Proof.
  intros fields. subst fields. unfold _flattenHierarchy. split_all.
  - destruct (flatten_head d) as [rest ->]. by eexists.
  - apply List.Forall_forall. intros f ([p v] & <- & Hin)%in_map_iff.
    split; [|done].
    by apply (proj1 (List.Forall_forall _ _) (flatten_determined d) (p, v)).
  - intros f p e rest ([q v] & <- & Hin)%in_map_iff. simpl. intros ->.
    apply in_map_iff. exists (p, container_for e). split; [done|].
    by eapply flatten_parents.
  - intros Hu. rewrite map_map.
    assert (Heq : map (λ x : list name_elem * value,
                         fname (let '(path, v) := x in mkField path v))
                    (flattenNode d [])
                  = (flattenNode d []).*1).
    { apply map_ext. by intros [p v]. }
    rewrite Heq. by apply flatten_paths_unique.
Qed.

End FlattenStructure.

(** ** What is written is what is read *)

Section WriteThenRead.

Context {P : Predicates}.


















End WriteThenRead.

(** ** The transactions of the facade *)

Section Transactions.

Import Facade.

Context {P : Predicates} {E : EngineSql} {I : Interrupted}.

Lemma handle_all_process (prepared : list Request) : ∀ e,
  handle_all prepared e
  = match process_all prepared (e_store e) with
    | Ok (responses, s') =>
        ({| e_store := s'; e_saved := e_saved e |}, Returns responses)
    | Err err =>
        ((handle_all prepared e).1, Raises (Raised err))
    end.
Proof.
  induction prepared as [|r rest IH]; intros e; simpl.
  - by destruct e.
  - unfold call_handler.
    destruct (processRequest r (e_store e)) as [[resp s1]|err]; simpl; [|done].
    rewrite IH. simpl.
    destruct (process_all rest s1) as [[resps s2]|err]; simpl; [done|].
    by rewrite IH.
Qed.

Lemma handle_all_saved (prepared : list Request) : ∀ e,
  e_saved (handle_all prepared e).1 = e_saved e.
Proof.
  induction prepared as [|r rest IH]; intros e; simpl; [done|].
  unfold call_handler.
  destruct (processRequest r (e_store e)) as [[resp s1]|err]; simpl; [|done].
  specialize (IH {| e_store := s1; e_saved := e_saved e |}).
  destruct (handle_all rest _) as [e2 [res|x]]; simpl in *; done.
Qed.

(** What [_processRequests] does to an engine without open transaction:
    all the requests, or nothing. *)
Lemma processRequests_all_or_nothing requests e :
  e_saved e = None →
  _processRequests requests e
  = match process_all (map _prepareRequest requests) (e_store e) with
    | Ok (responses, s') =>
        ({| e_store := s'; e_saved := None |}, Returns responses)
    | Err err => (e, Raises (Raised err))
    end.
Proof.
  intros Hnone. unfold _processRequests.
  pose proof (handle_all_saved (map _prepareRequest requests) (engine_begin e))
    as Hsaved.
  rewrite handle_all_process in Hsaved |- *. simpl in *.
  destruct (process_all _ (e_store e)) as [[resps s']|err]; simpl in *.
  - done.
  - destruct (handle_all _ _) as [e2 out]; simpl in *.
    unfold engine_rollback. rewrite Hsaved. simpl.
    destruct e. simpl in *. by subst.
Qed.

Lemma settled_new engine remove_conflicts :
  settled (new_connection engine remove_conflicts).
Proof.
  unfold settled, engine_in_transaction. simpl. split; [|done].
  split; [by intros [? ?] | by intros [? ?]].
Qed.

(** The same, connection by connection: the flags and the requests decide
    whether a connection is settled. *)
Lemma settled_iff c :
  settled c
  ↔ match _transaction c, _sync c with
    | true, true => is_Some (e_saved (_engine c)) ∧ _requests c = []
    | true, false => e_saved (_engine c) = None
    | false, _ => e_saved (_engine c) = None ∧ _requests c = []
    end.
Proof.
  unfold settled, engine_in_transaction.
  destruct (_transaction c), (_sync c), (e_saved (_engine c)) as [sv|];
    rewrite ?is_Some_alt; intuition congruence.
Qed.

Lemma settled_begin sync c : settled c → settled (begin sync c).1.
Proof.
  rewrite !settled_iff. unfold begin.
  destruct (_transaction c) eqn:Ht; simpl; [by rewrite Ht|].
  destruct sync; simpl.
  - intros [_ Hr]. split; [by eexists|done].
  - by intros [Hs _].
Qed.

Lemma settled_rollback c : settled c → settled (rollback c).1.
Proof.
  rewrite !settled_iff. unfold rollback.
  destruct (_transaction c) eqn:Ht; simpl; [|by rewrite Ht].
  destruct (_sync c) eqn:Hs; simpl; rewrite ?Hs.
  - by intros [_ Hr].
  - done.
Qed.

Lemma settled_commit c : settled c → settled (commit c).1.
Proof.
  rewrite !settled_iff. unfold commit.
  destruct (_transaction c) eqn:Ht; simpl; [|by rewrite Ht].
  destruct (_sync c) eqn:Hs; simpl.
  - by intros [_ Hr].
  - intros Hnone. rewrite (processRequests_all_or_nothing _ _ Hnone).
    destruct (process_all _ _) as [[resps s']|err]; simpl; by rewrite ?Hs.
Qed.

Lemma settled_transacted queued c : settled c → settled (_transacted queued c).1.
Proof.
  intros Hc. unfold _transacted.
  destruct (_sync c) eqn:Hs.
  - destruct queued as [request|x]; [|done].
    assert (Hr : _requests c = []).
    { apply settled_iff in Hc. rewrite Hs in Hc.
      destruct (_transaction c); tauto. }
    rewrite Hr. simpl. unfold call_handler. simpl.
    assert (Hany : ∀ s, settled
                          (set_requests []
                             (set_engine
                                {| e_store := s;
                                   e_saved := e_saved (_engine c) |} c))).
    { intros s. apply settled_iff. apply settled_iff in Hc. simpl.
      rewrite Hs in *. destruct (_transaction c); tauto. }
    assert (Hrb : ∀ s,
              settled
                (set_requests []
                   (rollback
                      (set_engine
                         {| e_store := s; e_saved := e_saved (_engine c) |}
                         (set_requests [request] c))).1)).
    { intros s. apply settled_iff. apply settled_iff in Hc. unfold rollback.
      simpl. rewrite Hs in *.
      destruct (_transaction c) eqn:Ht; simpl; rewrite ?Ht, ?Hs; simpl;
        tauto. }
    destruct (processRequest _ _) as [[resp s1]|err]; simpl.
    + destruct (transform_result request resp) as [u|err]; simpl;
        [exact (Hany s1)|].
      specialize (Hrb s1). by destruct (rollback _).
    + specialize (Hrb (interrupted (_prepareRequest request)
                         (e_store (_engine c)))).
      by destruct (rollback _).
  - destruct (_transaction c) eqn:Ht; simpl.
    + destruct queued as [request|x]; simpl.
      * apply settled_iff. apply settled_iff in Hc. simpl.
        by rewrite Ht, Hs in *.
      * pose proof (settled_rollback c Hc) as Hr.
        by destruct (rollback c).
    + pose proof (settled_begin false c Hc) as Hb.
      unfold beginAsync. unfold begin in *. rewrite Ht in *. simpl in *.
      set (c1 := set_sync false (set_transaction true c)) in *.
      destruct queued as [request|x].
      * assert (Hq : settled (set_requests (_requests c1 ++ [request]) c1)).
        { apply settled_iff. by apply settled_iff in Hb. }
        pose proof (settled_commit _ Hq) as Hcm.
        by destruct (commit _).
      * exact (settled_rollback c1 Hb).
Qed.

(** X17: the bookkeeping of the transactions.  In a new connection
    and after every call of [begin], [commit], [rollback] and of a method
    under [_transacted], whether it returns or raises, the engine has a
    transaction open exactly when a synchronous transaction is in
    progress, and requests wait in [_requests] only during an
    asynchronous transaction. *)
Theorem connection_stays_settled :
  (∀ engine remove_conflicts, settled (new_connection engine remove_conflicts))
  ∧ (∀ o c, settled c → settled (apply_operation o c))
  ∧ (∀ operations engine remove_conflicts,
       settled (foldl (λ c o, apply_operation o c)
                  (new_connection engine remove_conflicts) operations)).
Proof.
  assert (Hstep : ∀ o c, settled c → settled (apply_operation o c)).
  { intros [sync| | |queued] c Hc; simpl.
    - by apply settled_begin.
    - by apply settled_commit.
    - by apply settled_rollback.
    - by apply settled_transacted. }
  split; [apply settled_new|]. split; [done|].
  intros operations engine remove_conflicts.
  generalize (settled_new engine remove_conflicts).
  generalize (new_connection engine remove_conflicts).
  induction operations as [|o l IH]; intros c Hc; simpl; [done|].
  apply IH. by apply Hstep.
Qed.

(** The transformation raises on the results of reads and dumps only, and
    their handlers leave the store as it is. *)
Lemma transform_raises_on_reads request s response s' e :
  processRequest request s = Ok (response, s') →
  transform_result request response = Err e →
  s' = s.
Proof.
  destruct request; simpl; try done.
  - destruct (processReadRequest _ _ _ s); simpl; [|done]. by intros [= _ <-].
  - destruct (processDumpRequest s); simpl; [|done]. by intros [= _ <-].
Qed.

Lemma prepared_same_kind request response :
  transform_result (_prepareRequest request) response
  = transform_result request response.
Proof. by destruct request as [| | | | |[c|]| | |]. Qed.

(** X18: a call outside a transaction is atomic.  On a connection
    with no transaction in progress, a method under [_transacted] either
    returns the result of the handler in its readable form and leaves the
    store the handler made, or raises what the handler or the
    transformation of the result raised and leaves the connection and
    the store exactly as they were; a method that raises before it has
    built its request leaves them as they were too. *)
Theorem call_outside_transaction_is_atomic
  (request : Request) (x : exception) (c : Connection) :
  idle c →
  _transacted (Returns request) c
  = match processRequest (_prepareRequest request) (store_of_connection c)
    with
    | Ok (response, s') =>
        match transform_result request response with
        | Ok u => (closed_connection s' false c, Returns u)
        | Err e => (c, Raises (Raised e))
        end
    | Err e => (c, Raises (Raised e))
    end
  ∧ _transacted (Raises x) c = (c, Raises x).
Proof.
  intros (Ht & Hs & Hr & Hsv). destruct c as [[s sv] t sy r rc].
  simpl in *. subst.
  unfold _transacted, beginAsync, begin, commit, rollback, _processRequests,
    store_of_connection, closed_connection. simpl.
  split; [|done]. unfold call_handler. simpl.
  destruct (processRequest _ _) as [[response s1]|err] eqn:Hp; simpl; [|done].
  destruct (transform_result request response) as [u|err] eqn:Htr; simpl;
    [done|].
  rewrite <- prepared_same_kind in Htr.
  by rewrite (transform_raises_on_reads _ _ _ _ _ Hp Htr).
Qed.

Lemma queue_requests (requests : list Request) : ∀ c,
  _transaction c = true → _sync c = false →
  foldl (λ c r, (_transacted (Returns r) c).1) c requests
  = set_requests (_requests c ++ requests) c.
Proof.
  induction requests as [|r l IH]; intros c Ht Hs; simpl.
  - rewrite app_nil_r. by destruct c.
  - unfold _transacted at 2. rewrite Hs, Ht. simpl.
    rewrite IH by done. simpl. by rewrite <- app_assoc.
Qed.

(** X19: an asynchronous transaction.  The calls between
    [beginAsync] and [commit] touch nothing in the store.  [commit]
    handles the requests in their order in one transaction of the engine:
    when a handler raises, the store and the connection are as before
    [beginAsync]; when all return, the store is the one the last handler
    made, also when the transformation of the results raises afterwards.
    [rollback], and a method that raises before it has built its request,
    end the transaction and drop the requests that waited. *)
Theorem async_transaction_all_or_nothing
  (requests : list Request) (x : exception) (c : Connection) :
  idle c →
  let queued :=
    foldl (λ c r, (_transacted (Returns r) c).1) (beginAsync c).1 requests in
  store_of_connection queued = store_of_connection c
  ∧ commit queued
    = match process_all (map _prepareRequest requests) (store_of_connection c)
      with
      | Ok (responses, s') =>
          (closed_connection s' false c,
           match _transformResults requests responses with
           | Ok l => Returns (Some l)
           | Err e => Raises (Raised e)
           end)
      | Err e => (c, Raises (Raised e))
      end
  ∧ rollback queued = (c, Returns tt)
  ∧ _transacted (Raises x) queued = (c, Raises x).
Proof.
  intros (Ht & Hs & Hr & Hsv). destruct c as [[s sv] t sy r rc].
  simpl in *. subst.
  unfold beginAsync, begin. simpl.
  rewrite queue_requests by done.
  unfold store_of_connection, closed_connection. simpl.
  split; [done|]. split; [|split].
  - unfold commit. simpl.
    rewrite processRequests_all_or_nothing by done. simpl.
    by destruct (process_all _ _) as [[responses s']|err].
  - done.
  - done.
Qed.

(** X20: a synchronous transaction.  During it a call is handled at
    once.  When the handler and the transformation of its result return,
    the transaction goes on with the store the handler made.  When one of
    them raises, the call raises the same, the store is again the one
    [beginSync] found, with the earlier calls of the transaction undone,
    and the transaction is over.  [rollback] does the same without
    raising; both leave [_sync] set.  [commit] keeps the store and clears
    [_sync]. *)
Theorem sync_transaction_steps (s0 : DB) (request : Request) (c : Connection) :
  in_sync_transaction s0 c →
  rollback c = (closed_connection s0 true c, Returns tt)
  ∧ commit c = (closed_connection (store_of_connection c) false c, Returns None)
  ∧ _transacted (Returns request) c
    = match processRequest (_prepareRequest request) (store_of_connection c)
      with
      | Ok (response, s') =>
          match transform_result request response with
          | Ok u => (with_store s' c, Returns u)
          | Err e => (closed_connection s0 true c, Raises (Raised e))
          end
      | Err e => (closed_connection s0 true c, Raises (Raised e))
      end.
Proof.
  intros (Ht & Hs & Hr & Hsv). destruct c as [[s sv] t sy r rc].
  simpl in *. subst.
  unfold _transacted, commit, rollback, store_of_connection,
    closed_connection, with_store. simpl.
  split; [done|]. split; [done|]. unfold call_handler. simpl.
  destruct (processRequest _ _) as [[response s']|err]; simpl; [|done].
  by destruct (transform_result request response).
Qed.

(** X21: after the rollback of a synchronous transaction the
    connection is still in synchronous mode ([_sync] is reset by [commit]
    and [begin] only).  [commit] and [rollback] raise [FacadeError] and
    change nothing; [begin] starts a transaction in the mode asked for;
    and a call is handled at once outside any transaction of the engine:
    what a handler that returns has written stays, and when the handler
    or the transformation raises, the call raises [FacadeError] instead,
    from the [rollback] in the handler of the exception, and the engine
    keeps what the handler had written. *)
Theorem sync_mode_outlives_rollback (request : Request) (c : Connection) :
  stale_sync c →
  rollback c = (c, Raises FacadeError)
  ∧ commit c = (c, Raises FacadeError)
  ∧ (∀ sync, (begin sync c).2 = Returns tt ∧ _sync (begin sync c).1 = sync)
  ∧ _transacted (Returns request) c
    = match processRequest (_prepareRequest request) (store_of_connection c)
      with
      | Ok (response, s') =>
          (closed_connection s' true c,
           match transform_result request response with
           | Ok u => Returns u
           | Err _ => Raises FacadeError
           end)
      | Err _ =>
          (closed_connection
             (interrupted (_prepareRequest request) (store_of_connection c))
             true c,
           Raises FacadeError)
      end.
Proof.
  intros (Ht & Hs & Hr & Hsv). destruct c as [[s sv] t sy r rc].
  simpl in *. subst.
  unfold _transacted, commit, rollback, begin, store_of_connection,
    closed_connection. simpl.
  split; [done|]. split; [done|]. split; [by intros []|].
  unfold call_handler. simpl.
  destruct (processRequest _ _) as [[response s']|err]; simpl; [|done].
  by destruct (transform_result request response).
Qed.

End Transactions.

(** ** The scenarios, evaluated *)

Section Scenarios.

Import Examples.

#[local] Existing Instance spec_predicates.
#[local] Existing Instance example_engine.

Local Open Scope string_scope.



Lemma refcount_consistency_invariant_witness :
  store_ok tracks_store ∧ refcount_consistent tracks_store.
Proof.
  destruct (refcount_consistency_invariant (P := spec_predicates)
              (E := example_engine)) as (H0 & Hstep & Hcons & _).
  assert (H : store_ok tracks_store).
  { apply (Hstep (CreateRequest tracks_fields) empty_db (RNewId 1)
             tracks_store H0).
    vm_compute; reflexivity. }
  split; [exact H | exact (Hcons _ H)].
Defined.


(** The two elements appended to the list whose maximum index is 3 get
    the indices 4 and 5. *)
Example append_after_max :
  (processInsertRequest 1 (mkPath [NStr "l"; NWild]) gap_insert_groups false
     gap_store
   ≫= λ s, processReadRequest 1 (Some (mkPath [NStr "l"; NWild])) None s)
  = Ok [{| fname := []; ftype := TInt; fvalue := VInt 5 |};
        {| fname := []; ftype := TInt; fvalue := VInt 7 |};
        {| fname := []; ftype := TInt; fvalue := VInt 8 |}]
  ∧ (processInsertRequest 1 (mkPath [NStr "l"; NWild]) gap_insert_groups
       false gap_store
     ≫= λ s, Ok (used_indices 1 [NStr "l"] s))
    = Ok [3; 4; 5].
Proof. split_all; vm_compute; reflexivity. Qed.

(** Scenario 5 of the spec: [NOT (phone == '1111')] finds the object with
    another phone and the object without phone. *)
Example search_not_phone :
  processSearchRequest (Some (phone_is_1111 true)) phones_store = [2; 3]
  ∧ processSearchRequest (Some (phone_is_1111 false)) phones_store = [1].
Proof. split; vm_compute; reflexivity. Qed.

(** C6, on the code: the values written at one path are all stored, and a
    read returns all of them.  After a create with three values at
    [['tracks']], the read of [['tracks']] returns the three values; with
    the values [1], ['a'], [2] at [['x']], the read returns [1], [2], ['a'],
    from which [_fieldsToTree] keeps ['a'], not the last value written. *)
Theorem same_path_values_are_all_read :
  processReadRequest 1 (Some (mkPath [NStr "tracks"])) None tracks_store
  = Ok [{| fname := []; ftype := TStr; fvalue := VStr "Track 1" |};
        {| fname := []; ftype := TStr; fvalue := VStr "Track 2" |};
        {| fname := []; ftype := TStr; fvalue := VStr "Track 3" |}]
  ∧ processReadRequest 1 (Some (mkPath [NStr "x"])) None mixed_store
    = Ok [{| fname := []; ftype := TInt; fvalue := VInt 1 |};
          {| fname := []; ftype := TInt; fvalue := VInt 2 |};
          {| fname := []; ftype := TStr; fvalue := VStr "a" |}]
  ∧ (processReadRequest 1 (Some (mkPath [NStr "x"])) None mixed_store
     ≫= Codec._fieldsToTree)
    = Ok (Codec.DScalar (Codec.SStr "a")).
Proof. split_all; vm_compute; reflexivity. Qed.

(** C5, on the code: the walk of [_checkForConflicts] ends at the first
    prefix without values.  The object holds the scalar [5] at
    [['a', 'b']] and nothing at [['a']]; the modification of
    [['a', 'b', 'c']] with [remove_conflicts] false raises nothing and
    stores its payload under the scalar. *)
Theorem conflict_below_empty_prefix_not_detected :
  let path := mkPath [NStr "a"; NStr "b"; NStr "c"] in
  let payload := Codec._flattenHierarchy (Codec.DScalar (Codec.SInt 7)) in
  objectHasField 1 path scalar_below_store = Ok false
  ∧ getValueTypes 1 (mkPath [NStr "a"; NStr "b"]) scalar_below_store = [TInt]
  ∧ map fvalue
      (getFieldValue 1 (with_type (mkPath [NStr "a"; NStr "b"]) TInt)
         scalar_below_store) = [VInt 5]
  ∧ getValueTypes 1 (mkPath [NStr "a"]) scalar_below_store = []
  ∧ ∃ s',
      processModifyRequest 1 path payload false scalar_below_store = Ok s'
      ∧ processReadRequest 1 None None s'
        = Ok [{| fname := []; ftype := TMap; fvalue := VMap |};
              {| fname := [NStr "a"; NStr "b"]; ftype := TInt;
                 fvalue := VInt 5 |};
              {| fname := [NStr "a"; NStr "b"; NStr "c"]; ftype := TInt;
                 fvalue := VInt 7 |}].
Proof.
  intros path payload. split_all; try (vm_compute; reflexivity).
  eexists. split; vm_compute; reflexivity.
Qed.

(** C8, on the code: the parent of an insertion is read in the table of the
    null type only.  The object holds the string ['x'] at [['a']]; the
    insertion at [['a', None]] with [remove_conflicts] false raises
    nothing, replaces the string by a list and stores the element. *)
Theorem insert_over_string_parent_not_rejected :
  map fvalue
    (getFieldValue 1 (with_type (mkPath [NStr "a"]) TStr) string_parent_store)
  = [VStr "x"]
  ∧ getFieldValue 1 (mkPath [NStr "a"]) string_parent_store = []
  ∧ ∃ s',
      processInsertRequest 1 (mkPath [NStr "a"; NWild]) insert_groups false
        string_parent_store = Ok s'
      ∧ processReadRequest 1 None None s'
        = Ok [{| fname := []; ftype := TMap; fvalue := VMap |};
              {| fname := [NStr "a"]; ftype := TList; fvalue := VList |};
              {| fname := [NStr "a"; NInt 0]; ftype := TInt;
                 fvalue := VInt 1 |}].
Proof.
  split_all; try (vm_compute; reflexivity).
  eexists. split; vm_compute; reflexivity.
Qed.

(** C3, on the code: a create stores the names of its payload as they are.
    After [create(5, path=['l', 3])] the list at [['l']] has the index [3]
    in use and no other: the indices are not dense, and no null field
    stands at the indices [0], [1], [2]. *)
Theorem create_under_index_leaves_gap :
  processCreateRequest gap_fields empty_db = Ok (1, gap_store)
  ∧ gap_fields = [mkField [NStr "l"; NInt 3] (VInt 5)]
  ∧ used_indices 1 [NStr "l"] gap_store = [3]
  ∧ ¬ dense (used_indices 1 [NStr "l"] gap_store)
  ∧ processReadRequest 1 None None gap_store
    = Ok [{| fname := [NStr "l"; NInt 3]; ftype := TInt; fvalue := VInt 5 |}].
Proof.
  split_all; try (vm_compute; reflexivity).
  intros [n Hn].
  assert (H3 : In 3 (used_indices 1 [NStr "l"] gap_store))
    by (vm_compute; tauto).
  assert (H0 : ¬ In 0 (used_indices 1 [NStr "l"] gap_store))
    by (vm_compute; intros [H|[]]; discriminate).
  pose proof (proj1 (Hn 3) H3) as Hlt.
  apply H0. apply (proj2 (Hn 0)). lia.
Qed.

End Scenarios.

(** ** The scenarios of the further properties *)

Section PlainEngine.

Local Open Scope string_scope.
Local Open Scope list_scope.

Lemma pretty_N_char_plain (c : ascii) :
  c = "{"%char ∨ c = "?"%char → ∀ y, pretty_N_char y ≠ c.
Proof.
  intros [-> | ->] y; unfold pretty_N_char; by repeat case_match.
Qed.

Lemma pretty_N_go_plain (c : ascii) (x : N) : ∀ s,
  (∀ y, pretty_N_char y ≠ c) →
  count_char c (pretty_N_go x s) = count_char c s.
Proof.
  induction (N.lt_wf_0 x) as [x _ IH]; intros s Hc.
  assert (x = 0 ∨ 0 < x)%N as [->|?] by lia.
  - by rewrite pretty_N_go_0.
  - rewrite pretty_N_go_step by done.
    rewrite IH; [|by apply N.div_lt|done].
    cbn [count_char]. by rewrite bool_decide_eq_false_2.
Qed.

Lemma pretty_N_plain (c : ascii) (x : N) :
  c = "{"%char ∨ c = "?"%char → count_char c (pretty x) = 0%nat.
Proof.
  intros Hc. unfold pretty, pretty_N. destruct (decide _).
  - by destruct Hc as [-> | ->].
  - rewrite pretty_N_go_plain; [done|]. by apply pretty_N_char_plain.
Qed.

Lemma pretty_nat_plain (c : ascii) (x : nat) :
  c = "{"%char ∨ c = "?"%char → count_char c (pretty x) = 0%nat.
Proof. apply pretty_N_plain. Qed.

Lemma pretty_Z_plain (c : ascii) (x : Z) :
  c = "{"%char ∨ c = "?"%char → count_char c (pretty x) = 0%nat.
Proof.
  intros Hc. destruct x as [|p|p].
  - by destruct Hc as [-> | ->].
  - by apply (pretty_N_plain c (Npos p)).
  - change (pretty (Z.neg p)) with ("-" +:+ pretty (Npos p)).
    rewrite count_char_append, (pretty_N_plain c (Npos p)) by done.
    by destruct Hc as [-> | ->].
Qed.

Lemma concat_plain (c : ascii) (l : list string) :
  Forall (λ x, count_char c x = 0%nat) l →
  count_char c (String.concat "" l) = 0%nat.
Proof.
  induction 1 as [|x l Hx _ IH]; [done|].
  cbn [String.concat]. destruct l as [|y l]; [done|].
  change (String.append x (String.append "" (String.concat "" (y :: l))))
    with (x +:+ String.concat "" (y :: l)).
  by rewrite count_char_append, Hx, IH.
Qed.

Lemma example_engine_plain (c : ascii) (n : list name_elem) :
  c = "{"%char ∨ c = "?"%char →
  count_char c (@columns_condition_sql Examples.example_engine n) = 0%nat.
Proof.
  intros Hc. cbn [columns_condition_sql Examples.example_engine].
  apply concat_plain. apply List.Forall_forall.
  intros x Hx. apply list_elem_of_In, elem_of_lookup_imap in Hx
    as (i & o & -> & _).
  destruct o as [v|]; [|done].
  rewrite !count_char_append, pretty_nat_plain, pretty_Z_plain by done.
  by destruct Hc as [-> | ->].
Qed.

End PlainEngine.

Section MoreScenarios.

Import Examples.

#[local] Existing Instance spec_predicates.
#[local] Existing Instance example_engine.

Local Open Scope string_scope.

Lemma store_ok_tracks : store_ok tracks_store.
Proof.
  apply (processRequest_ok (CreateRequest tracks_fields) empty_db (RNewId 1)
           tracks_store store_ok_empty).
  vm_compute; reflexivity.
Qed.


Lemma spec_rows_unique_invariant_witness : spec_unique tracks_store.
Proof.
  destruct (spec_rows_unique_invariant (P := spec_predicates)
              (E := example_engine)) as (H0 & Hstep & _).
  apply (Hstep (CreateRequest tracks_fields) empty_db (RNewId 1)
           tracks_store H0).
  vm_compute; reflexivity.
Defined.

Lemma table_lifecycle_invariant_witness :
  tables_nonempty tracks_store ∧ table_lifecycle tracks_store.
Proof.
  destruct (table_lifecycle_invariant (P := spec_predicates)
              (E := example_engine)) as (H0 & Hstep & Hlife & _).
  assert (H : tables_nonempty tracks_store).
  { apply (Hstep (CreateRequest tracks_fields) empty_db (RNewId 1)
             tracks_store H0).
    vm_compute; reflexivity. }
  split; [exact H | exact (Hlife _ store_ok_tracks H)].
Defined.

Lemma requests_leave_other_objects_witness :
  processReadRequest 2 None None phones_without_first
  = processReadRequest 2 None None phones_store.
Proof.
  assert (H1 : processRequest (DeleteRequest 1 None) phones_store
               = Ok (RNone, phones_without_first))
    by (vm_compute; reflexivity).
  assert (H2 : DeleteRequest 1 None ≠ RepairRequest) by discriminate.
  assert (H3 : written_object (DeleteRequest 1 None) phones_store ≠ Some 2)
    by (simpl; intros [=]).
  exact (proj2 (proj2 (requests_leave_other_objects _ _ _ _ 2 H1 H2 H3))
           None None).
Defined.

Lemma writes_raise_engine_faults_only_witness :
  ∃ e,
    (processCreateRequest [] corrupt_store = Err e
     ∧ processDeleteRequest 1 None corrupt_store = Err e
     ∧ processModifyRequest 1 (mkPath [NStr "a"]) [] true corrupt_store
       = Err e
     ∧ processInsertRequest 1 (mkPath []) [] true corrupt_store = Err e)
    ∧ e = EngineError.
Proof.
  eexists. split.
  - split_all; vm_compute; reflexivity.
  - apply (proj1 (writes_raise_engine_faults_only 1 (mkPath [NStr "a"]) []
                    [] None corrupt_store _)).
    vm_compute; reflexivity.
Defined.

Lemma insert_needs_list_position_witness :
  ∃ e,
    processInsertRequest 1 (mkPath [NStr "a"]) insert_groups false
      string_parent_store = Err e.
Proof.
  apply insert_needs_list_position. reflexivity.
Defined.



Lemma delete_absent_object_witness :
  processDeleteRequest 7 None phones_store = Ok phones_store.
Proof.
  apply delete_absent_object. vm_compute; reflexivity.
Defined.



Lemma search_uses_existing_tables_witness :
  Forall (table_ref_exists phones_store)
    [FieldTable ([Some "phone"], TStr); IdTable;
     FieldTable ([Some "phone"], TStr)].
Proof.
  eapply (search_uses_existing_tables (Some (phone_is_1111 true))
            phones_store).
  vm_compute; reflexivity.
Defined.

Lemma statement_slots_match_witness :
  ∃ q tables values,
    buildSqlQuery (Some not_first_phone) = Some (q, tables, values)
    ∧ table_slots q = length tables ∧ value_slots q = length values.
Proof.
  destruct (buildSqlQuery (Some not_first_phone)) as [[[q tables] values]|]
    eqn:Hq; [|vm_compute in Hq; discriminate].
  exists q, tables, values. split; [done|].
  refine (statement_slots_match (E := example_engine) _ _ _ _ _ _ Hq).
  - split; reflexivity.
  - intros n. split; apply example_engine_plain; auto.
Defined.

Lemma propagateInversion_normalises_witness :
  _propagateInversion (_propagateInversion not_first_phone)
  = _propagateInversion not_first_phone
  ∧ _propagateInversion (phone_is_1111 true) = phone_is_1111 true.
Proof.
  split.
  - exact (proj1 (proj2 (proj2 (propagateInversion_normalises
                                  not_first_phone)))).
  - apply (proj1 (proj2 (proj2 (proj2 (propagateInversion_normalises
                                         (phone_is_1111 true)))))).
    exact I.
Defined.

Lemma flatten_is_well_formed_witness :
  NoDup (map fname (Codec._flattenHierarchy nested_doc))
  ∧ In (mkField [NStr "a"] (container_for (NInt 2)))
      (Codec._flattenHierarchy nested_doc).
Proof.
  assert (H : Codec.keys_unique nested_doc).
  { simpl.
    repeat match goal with
           | |- _ ∧ _ => split
           | |- True => exact I
           | |- NoDup _ => apply (bool_decide_unpack _); vm_compute; exact I
           end. }
  destruct (flatten_is_well_formed nested_doc) as (_ & _ & Hpar & Hnd).
  split; [exact (Hnd H)|].
  apply (Hpar (mkField [NStr "a"; NInt 2; NInt 0] (VInt 1))
           [NStr "a"] (NInt 2) [NInt 0]).
  - vm_compute. tauto.
  - reflexivity.
Defined.

End MoreScenarios.

Section FacadeScenarios.

Import Examples.

#[local] Existing Instance spec_predicates.
#[local] Existing Instance example_engine.
#[local] Existing Instance nothing_written.

Local Open Scope string_scope.



Lemma call_outside_transaction_is_atomic_witness :
  Facade.Methods.deleteMany 1 None phones_connection
  = (closed_connection phones_without_first false phones_connection,
     Facade.Returns Facade.UNone)
  ∧ Facade.Methods.read 7 None None phones_connection
    = (phones_connection, Facade.Raises (Facade.Raised LogicError)).
Proof.
  assert (Hidle : idle phones_connection) by (by repeat split).
  pose proof (proj1 (call_outside_transaction_is_atomic (DeleteRequest 1 None)
                       Facade.FacadeError phones_connection Hidle)) as H1.
  pose proof (proj1 (call_outside_transaction_is_atomic
                       (ReadRequest 7 None None)
                       Facade.FacadeError phones_connection Hidle)) as H2.
  vm_compute in H1. vm_compute in H2. vm_compute. exact (conj H1 H2).
Defined.

Lemma async_transaction_all_or_nothing_witness :
  Facade.commit
    (Facade.Methods.read 1 None None
       (Facade.Methods.deleteMany 1 None
          (Facade.beginAsync phones_connection).1).1).1
  = (phones_connection, Facade.Raises (Facade.Raised LogicError)).
Proof.
  assert (Hidle : idle phones_connection) by (by repeat split).
  pose proof (proj1 (proj2 (async_transaction_all_or_nothing
                              [DeleteRequest 1 None; ReadRequest 1 None None]
                              Facade.FacadeError phones_connection Hidle)))
    as H.
  vm_compute in H. vm_compute. exact H.
Defined.

Lemma sync_transaction_steps_witness :
  Facade.Methods.read 1 None None phones_in_transaction
  = (closed_connection phones_store true phones_in_transaction,
     Facade.Raises (Facade.Raised LogicError)).
Proof.
  assert (Hin : in_sync_transaction phones_store phones_in_transaction)
    by (by repeat split).
  pose proof (proj2 (proj2 (sync_transaction_steps phones_store
                              (ReadRequest 1 None None) phones_in_transaction
                              Hin))) as H.
  vm_compute in H. vm_compute. exact H.
Defined.

Lemma sync_mode_outlives_rollback_witness :
  Facade.Methods.read 7 None None
    (Facade.rollback (Facade.beginSync phones_connection).1).1
  = (closed_connection phones_store true phones_connection,
     Facade.Raises Facade.FacadeError).
Proof.
  assert (Hst : stale_sync
                  (closed_connection phones_store true phones_connection))
    by (by repeat split).
  pose proof (proj2 (proj2 (proj2 (sync_mode_outlives_rollback
                                     (ReadRequest 7 None None) _ Hst)))) as H.
  vm_compute in H. vm_compute. exact H.
Defined.

End FacadeScenarios.
